(** * MelonFire: the pull/push revision engine of src/index.ts

    A shallow embedding of the WatermelonDB / Firestore synchronisation engine
    and the properties of its specification.

    Conventions of the embedding.
    - JavaScript numbers that hold revisions and counters are integers here
      ([Z]); the values involved are far below 2^53.
    - Strings are sequences of bytes (the UTF-8 bytes of the JavaScript
      string).  [decodeURIComponent] checks the shape of every escape
      sequence; its further check that the decoded octets are well-formed
      UTF-8 is not modelled (it holds for everything [encodeURIComponent]
      produced from well-formed text).
    - A Firestore database is a finite map from document paths to documents.
      Remote calls succeed unless the environment of the call says otherwise
      (see [Env]).
    - The caller's row objects live in a heap, so that a function which
      deletes a property of an object it was given is seen by the caller.
    - Plain objects used as dictionaries keep JavaScript's own-property
      order.  Reads and writes by key reach own properties only; the [in]
      operator also sees the properties every object inherits from
      Object.prototype ([js_in]). *)

From Stdlib Require Import ZArith NArith Lia Ascii String List.
From stdpp Require Import base option list gmap strings fin_maps sorting.

Open Scope Z_scope.

(** ** Errors and results *)

Inductive Error :=
  | URIError                                 (* malformed escape sequence *)
  | TypeError                                (* property access on undefined *)
  | OutOfSync (pulledUpTo revision : Z)      (* "Local DB out of sync ..." *)
  | BatchCommitted                           (* write batch used after commit() *)
  | InvalidArgument                          (* batch.delete on a non-reference *)
  | RemoteError (msg : string)               (* the remote store rejected a call *)
  | OutOfFuel.                               (* a loop of the model ran dry *)

Inductive Result (A : Type) :=
  | Ok (a : A)
  | Err (e : Error).
Arguments Ok {A} a.
Arguments Err {A} e.

Definition is_ok {A} (r : Result A) : bool :=
  match r with Ok _ => true | Err _ => false end.

Definition rbind {A B} (r : Result A) (k : A -> Result B) : Result B :=
  match r with Ok a => k a | Err e => Err e end.

Fixpoint rfoldl {A B} (f : A -> B -> Result A) (a : A) (l : list B) : Result A :=
  match l with
  | [] => Ok a
  | b :: l' => rbind (f a b) (fun a' => rfoldl f a' l')
  end.

(** ** Constants (src/index.ts, lines 86-89) *)

Definition MAX_TRANSACTION_WRITES : Z := 500.
Definition BATCH_COLLECTION : string := "melonBatches".
Definition DELETE_COLLECTION : string := "melonDeletes".
Definition MIN_REVISION : Z := 1.

(** ** Id codec: encodeURIComponent / decodeURIComponent *)

Module Codec.

Definition in_range (lo hi : N) (c : ascii) : bool :=
  let n := N_of_ascii c in ((lo <=? n) && (n <=? hi))%N.

Definition is_digit (c : ascii) : bool := in_range 48 57 c.
Definition is_upper (c : ascii) : bool := in_range 65 90 c.
Definition is_lower (c : ascii) : bool := in_range 97 122 c.

(* uriUnreserved: letters, digits and the marks - _ . ! ~ * ' ( ) *)
Definition unreserved (c : ascii) : bool :=
  is_digit c || is_upper c || is_lower c ||
  existsb (Ascii.eqb c)
    ["-"; "_"; "."; "!"; "~"; "*"; "'"; "("; ")"]%char.

Definition hex_digit (n : N) : ascii :=
  if (n <? 10)%N then ascii_of_N (48 + n) else ascii_of_N (55 + n).

Definition hex_value (c : ascii) : option N :=
  let n := N_of_ascii c in
  if is_digit c then Some (n - 48)%N
  else if in_range 65 70 c then Some (n - 55)%N
  else if in_range 97 102 c then Some (n - 87)%N
  else None.

Definition escape (c : ascii) : string :=
  let n := N_of_ascii c in
  String "%" (String (hex_digit (n / 16)) (String (hex_digit (n mod 16)) "")).

Fixpoint encodeURIComponent (s : string) : string :=
  match s with
  | EmptyString => ""
  | String c s' =>
      if unreserved c then String c (encodeURIComponent s')
      else escape c +:+ encodeURIComponent s'
  end.

Fixpoint decodeURIComponent (s : string) : Result string :=
  match s with
  | EmptyString => Ok ""
  | String c s' =>
      if Ascii.eqb c "%" then
        match s' with
        | String h (String l s'') =>
            match hex_value h, hex_value l with
            | Some a, Some b =>
                rbind (decodeURIComponent s'')
                      (fun r => Ok (String (ascii_of_N (16 * a + b)) r))
            | _, _ => Err URIError
            end
        | _ => Err URIError
        end
      else rbind (decodeURIComponent s') (fun r => Ok (String c r))
  end.

End Codec.
Export Codec.

(** ** Rows and documents (src/index.ts, lines 13-84) *)

Inductive val :=
  | VNull
  | VBool (b : bool)
  | VNum (n : Z)
  | VStr (s : string).

(* ChangeRecord & WatermelonClientInternals: the named properties the engine
   touches, and the remaining columns of the row. *)
Record Row := mkRow {
  id : string;
  _status : option string;
  _changed : option string;
  melonFireChange : option val;
  melonFireRevision : option Z;
  columns : list (string * val)
}.

Definition TableDeletes := list (string * list string).

Record BaseDoc := mkBaseDoc {
  melonLatestRevision : option Z;
  melonLatestDate : option string;
  melonBatchTokens : option (gmap Z string)   (* keyed by the revision *)
}.

Record BatchDoc := mkBatchDoc {
  batchLatestRevision : Z;
  batchLatestDate : string;
  batchDeletes : TableDeletes
}.

Record DeleteRecord := mkDeleteRecord {
  revision : Z;
  deletes : TableDeletes
}.

Inductive Doc :=
  | DRow (r : Row)
  | DBase (b : BaseDoc)
  | DBatch (b : BatchDoc)
  | DDel (d : DeleteRecord).

#[global] Instance val_eq_dec : EqDecision val.
Proof. solve_decision. Defined.
#[global] Instance Row_eq_dec : EqDecision Row.
Proof. solve_decision. Defined.
#[global] Instance Error_eq_dec : EqDecision Error.
Proof. solve_decision. Defined.

(* lines 259-265: delete obj._status; delete obj._changed *)
Definition removeWatermelonInternals (obj : Row) : Row :=
  {| id := id obj; _status := None; _changed := None;
     melonFireChange := melonFireChange obj;
     melonFireRevision := melonFireRevision obj;
     columns := columns obj |}.

(* lines 270-274: delete record.melonFireChange; delete record.melonFireRevision *)
Definition removeMelonFields (record : Row) : Row :=
  {| id := id record; _status := _status record; _changed := _changed record;
     melonFireChange := None;
     melonFireRevision := None;
     columns := columns record |}.

(* { ...raw, melonFireRevision: revision } *)
Definition withRevision (raw : Row) (rev : Z) : Row :=
  {| id := id raw; _status := _status raw; _changed := _changed raw;
     melonFireChange := melonFireChange raw;
     melonFireRevision := Some rev;
     columns := columns raw |}.

(** ** Sorting (query order) *)

Section Sorting.
Context {A : Type} (leb : A -> A -> bool).

Fixpoint insert_sorted (x : A) (l : list A) : list A :=
  match l with
  | [] => [x]
  | y :: l' => if leb x y then x :: l else y :: insert_sorted x l'
  end.

(* stable: equal keys keep the order of the input *)
Definition isort (l : list A) : list A := foldr insert_sorted [] l.
End Sorting.

(** ** Plain JavaScript objects used as dictionaries *)

Module JsObj.
Section JsObj.
Context {V : Type}.

(* own properties in creation order *)
Definition t := list (string * V).

Fixpoint set (k : string) (v : V) (o : list (string * V)) : list (string * V) :=
  match o with
  | [] => [(k, v)]
  | (k', v') :: o' =>
      if String.eqb k k' then (k, v) :: o' else (k', v') :: set k v o'
  end.

Fixpoint get (k : string) (o : list (string * V)) : option V :=
  match o with
  | [] => None
  | (k', v') :: o' => if String.eqb k k' then Some v' else get k o'
  end.

Definition has (k : string) (o : list (string * V)) : bool :=
  match get k o with Some _ => true | None => false end.

Fixpoint parse_digits (acc : N) (s : string) : option N :=
  match s with
  | EmptyString => Some acc
  | String c s' =>
      if Codec.is_digit c
      then parse_digits (10 * acc + (N_of_ascii c - 48))%N s'
      else None
  end.

(* an array index: the canonical decimal form of an integer below 2^32 - 1 *)
Definition array_index (s : string) : option N :=
  match s with
  | EmptyString => None
  | String c s' =>
      if Ascii.eqb c "0" && negb (String.eqb s' "") then None
      else match parse_digits 0%N s with
           | Some n => if (n <=? 4294967294)%N then Some n else None
           | None => None
           end
  end.

Definition index_of (e : string * V) : N :=
  match array_index e.1 with Some n => n | None => 0%N end.

Definition is_index (e : string * V) : bool :=
  match array_index e.1 with Some _ => true | None => false end.

(* OrdinaryOwnPropertyKeys: array indices ascending, then the other string
   keys in creation order *)
Definition entries (o : list (string * V)) : list (string * V) :=
  isort (fun a b => (index_of a <=? index_of b)%N) (List.filter is_index o)
  ++ List.filter (fun e => negb (is_index e)) o.

Definition keys (o : list (string * V)) : list string := map fst (entries o).
Definition values (o : list (string * V)) : list V := map snd (entries o).
End JsObj.
End JsObj.

(** ** The [in] operator on plain objects *)

(* the properties an object created by {} inherits from Object.prototype *)
Definition prototype_names : list string :=
  ["constructor"; "__defineGetter__"; "__defineSetter__"; "hasOwnProperty";
   "__lookupGetter__"; "__lookupSetter__"; "isPrototypeOf";
   "propertyIsEnumerable"; "toString"; "valueOf"; "__proto__";
   "toLocaleString"]%string.

Definition inherited (k : string) : bool :=
  bool_decide (k ∈ prototype_names).

(* key in obj: an own property of the object or an inherited one *)
Definition js_in {V} (k : string) (o : list (string * V)) : bool :=
  JsObj.has k o || inherited k.

(** ** The remote store (Firestore) *)

(* A document reference is the path of the document: collection and document
   ids in turn. *)
Definition DocRef := list string.

Abbreviation Store := (gmap (list string) Doc).

Definition collection (parent : DocRef) (name : string) : list string :=
  parent ++ [name].
Definition doc (coll : list string) (docId : string) : DocRef :=
  coll ++ [docId].

(* the last segment of a path whose parent is [coll] *)
Definition child_of (coll : list string) (p : DocRef) : option string :=
  match last p with
  | Some k => if decide (p = coll ++ [k]) then Some k else None
  | None => None
  end.

(* collection.get(): the documents of a collection, ordered by name *)
Definition collection_docs (st : Store) (coll : list string)
  : list (string * Doc) :=
  isort (fun a b => String.leb a.1 b.1)
    (omap (fun e => match child_of coll e.1 with
                    | Some k => Some (k, e.2)
                    | None => None
                    end)
          (map_to_list st)).

Inductive Write :=
  | WSet (ref : DocRef) (d : Doc)
  | WMergeBase (ref : DocRef) (rev : Z) (date : string)
               (tokens : option (gmap Z string))
  | WDelete (ref : DocRef).

(* set(ref, data, { merge: true }) on the base document: the named fields are
   replaced, a map-valued field is merged key by key, the rest is kept. *)
Definition merge_base (old : option Doc) (rev : Z) (date : string)
    (tokens : option (gmap Z string)) : Doc :=
  let oldTokens :=
    match old with Some (DBase b) => melonBatchTokens b | _ => None end in
  DBase {| melonLatestRevision := Some rev;
           melonLatestDate := Some date;
           melonBatchTokens :=
             match tokens, oldTokens with
             | Some new, Some old => Some (new ∪ old)
             | Some new, None => Some new
             | None, o => o
             end |}.

Definition apply_write (st : Store) (w : Write) : Store :=
  match w with
  | WSet ref d => <[ref := d]> st
  | WMergeBase ref rev date tokens =>
      <[ref := merge_base (st !! ref) rev date tokens]> st
  | WDelete ref => delete ref st
  end.

Definition apply_writes (st : Store) (ws : list Write) : Store :=
  foldl apply_write st ws.

(* firestore().batch() *)
Record WriteBatch := mkWriteBatch {
  writes : list Write;        (* queued operations, oldest first *)
  committed : bool
}.

Definition new_batch : WriteBatch := {| writes := []; committed := false |}.

(* batch.set / batch.delete: refused once commit() has been called *)
Definition batch_queue (b : WriteBatch) (w : Write) : Result WriteBatch :=
  if committed b then Err BatchCommitted
  else Ok {| writes := writes b ++ [w]; committed := false |}.

(** ** The world a call runs in *)

Abbreviation loc := nat.

Record World := mkWorld {
  store : Store;               (* the remote documents *)
  heap : list Row;             (* the caller's row objects *)
  commits : list (list Write)  (* every committed write batch, oldest first *)
}.

(* What the surroundings of one call contribute. *)
Record Env := mkEnv {
  autoId : string;                 (* the id collection.doc() generates *)
  now : string;                    (* new Date().toISOString() *)
  integrateFailure : option string (* the integrate transaction is rejected *)
}.

Definition M (A : Type) : Type := World -> Result A * World.

Definition ret {A} (a : A) : M A := fun w => (Ok a, w).
Definition throw {A} (e : Error) : M A := fun w => (Err e, w).
Definition bind {A B} (m : M A) (k : A -> M B) : M B :=
  fun w => match m w with
           | (Ok a, w') => k a w'
           | (Err e, w') => (Err e, w')
           end.
Definition lift {A} (r : Result A) : M A := fun w => (r, w).

Declare Scope melon_scope.
Delimit Scope melon_scope with melon.
Notation "x <- c1 ;; c2" := (bind c1 (fun x => c2))
  (at level 100, c1 at next level, right associativity) : melon_scope.
Notation "c1 ;;; c2" := (bind c1 (fun _ => c2))
  (at level 100, right associativity) : melon_scope.

Fixpoint mfoldl {A B} (f : A -> B -> M A) (a : A) (l : list B) : M A :=
  match l with
  | [] => ret a
  | b :: l' => bind (f a b) (fun a' => mfoldl f a' l')
  end.

Definition get_store : M Store := fun w => (Ok (store w), w).
Definition get_heap : M (list Row) := fun w => (Ok (heap w), w).

(* batch.commit(): the queued writes reach the store in order *)
Definition commit_batch (b : WriteBatch) : M WriteBatch :=
  fun w =>
    if committed b then (Err BatchCommitted, w)
    else (Ok {| writes := writes b; committed := true |},
          {| store := apply_writes (store w) (writes b);
             heap := heap w;
             commits := commits w ++ [writes b] |}).

(* the caller's object at [l] *)
Definition deref (h : list Row) (l : loc) : Row :=
  default (mkRow "" None None None None []) (h !! l).

(* removeWatermelonInternals applied to a caller's object: the deletes happen
   in place and the same reference is returned *)
Definition strip_in_place (l : loc) : M Row :=
  fun w =>
    let h := alter removeWatermelonInternals l (heap w) in
    (Ok (deref h l), {| store := store w; heap := h; commits := commits w |}).

(** ** The adapter's argument and result types *)

Record TableChanges (R : Type) := mkTableChanges {
  created : list R;
  updated : list R;
  deleted : list string
}.
Arguments mkTableChanges {R} _ _ _.
Arguments created {R} _.
Arguments updated {R} _.
Arguments deleted {R} _.

(* SyncDatabaseChangeSet as the caller passes it to push: the tables in
   Object.keys order, the rows by reference *)
Definition PushChangeSet := list (string * TableChanges loc).

Record SyncPushArgs := mkPushArgs {
  changes : PushChangeSet;
  lastPulledAt : Z
}.

Record SyncPullResult := mkPullResult {
  pulled : gmap string (TableChanges Row);
  timestamp : Z
}.

Record DeleteRef := mkDeleteRef {
  ref : DocRef;
  encodedId : string          (* DeleteRef.id: already url-encoded *)
}.

Abbreviation AllDeleteRefs := (gmap string (list DeleteRef)).

(** ** Revision metadata (lines 364-373) *)

Definition as_base (snap : option Doc) : option BaseDoc :=
  match snap with Some (DBase b) => Some b | _ => None end.

Definition revisionFromBaseSnap (snap : option Doc)
  : Z * option (gmap Z string) :=
  let existingDoc := as_base snap in
  let revision :=
    match existingDoc with
    | Some b =>
        match melonLatestRevision b with
        | Some n => if n =? 0 then MIN_REVISION else n + 1
        | None => MIN_REVISION
        end
    | None => MIN_REVISION
    end in
  (revision, match existingDoc with
             | Some b => melonBatchTokens b
             | None => None
             end).

(** ** Delete reference discovery (lines 306-362) *)

(* snap.data().id, as encodeURIComponent sees it *)
Definition data_id (d : Doc) : string :=
  match d with DRow r => id r | _ => "undefined" end.

(* the snapshots that exist, as DeleteRefs *)
Definition existing_refs (st : Store) (refs : list DocRef) : list DeleteRef :=
  omap (fun p => match st !! p with
                 | Some d => Some {| ref := p;
                                     encodedId := encodeURIComponent (data_id d) |}
                 | None => None
                 end) refs.

Definition findDeleteRefs_table (st : Store) (baseDoc : DocRef)
    (delRefs : AllDeleteRefs) (entry : string * TableChanges loc)
  : AllDeleteRefs :=
  let table := entry.1 in
  let deletedIds := deleted entry.2 in
  let baseExists :=
    existing_refs st
      (map (fun i => doc (collection baseDoc table) (encodeURIComponent i))
           deletedIds) in
  let delRefs1 :=
    match baseExists with
    | [] => delRefs
    | _ => <[table := baseExists]> delRefs
    end in
  let batchSnaps := collection_docs st (collection baseDoc BATCH_COLLECTION) in
  let delInBatchExists :=
    existing_refs st
      (flat_map
         (fun i =>
            map (fun b =>
                   doc (collection
                          (doc (collection baseDoc BATCH_COLLECTION) b.1) table)
                       (encodeURIComponent i))
                batchSnaps)
         deletedIds) in
  match delInBatchExists with
  | [] => delRefs1
  | refs =>
      match delRefs1 !! table with
      | Some l => <[table := l ++ refs]> delRefs1
      | None => <[table := refs]> delRefs1
      end
  end.

Definition findDeleteRefs (baseDoc : DocRef) (params : SyncPushArgs)
  : M AllDeleteRefs :=
  fun w =>
    (Ok (foldl (findDeleteRefs_table (store w) baseDoc) ∅ (changes params)), w).

(** ** countChanges (lines 584-601) *)

Definition countChanges {R} (chs : list (string * TableChanges R))
    (deleteCount : Z) : Z :=
  let tableCounts :=
    map (fun e => Z.of_nat (length (created e.2))
                  + Z.of_nat (length (updated e.2))) chs in
  foldl (fun prev cur => prev + cur) 0 tableCounts
  + (if 0 <? deleteCount then deleteCount + 1 else 0).

(** ** Inline push: one transaction (lines 380-448) *)

Definition storeRawInTrans (baseDoc : DocRef) (table : string) (rev : Z)
    (raw : Row) : Write :=
  let rawRec := withRevision raw rev in
  let rec := removeWatermelonInternals rawRec in
  WSet (doc (collection baseDoc table) (encodeURIComponent (id rec))) (DRow rec).

(* the body of Object.keys(changes).forEach: the writes queued for one table
   and the entry added to tableDeletes.  The test of line 421 is
   [table in delRefs]: for a table without an entry whose name is inherited
   from Object.prototype it holds, delRefs[table] is not an array and
   delRefs[table].map throws *)
Definition pushAll_table (h : list Row) (baseDoc : DocRef) (rev : Z)
    (delRefs : AllDeleteRefs) (acc : list Write * TableDeletes)
    (entry : string * TableChanges loc)
  : Result (list Write * TableDeletes) :=
  let table := entry.1 in
  let ws :=
    acc.1
    ++ map (fun l => storeRawInTrans baseDoc table rev (deref h l))
           (created entry.2)
    ++ map (fun l => storeRawInTrans baseDoc table rev (deref h l))
           (updated entry.2) in
  match delRefs !! table with
  | Some refs =>
      Ok (ws ++ map (fun r => WDelete (ref r)) refs,
          JsObj.set table (map encodedId refs) acc.2)
  | None => if inherited table then Err TypeError else Ok (ws, acc.2)
  end.

(* the writes the body of the transaction queues, if it does not throw *)
Definition pushAll_writes (env : Env) (h : list Row) (baseDoc : DocRef)
    (rev : Z) (chs : PushChangeSet) (delRefs : AllDeleteRefs)
  : Result (list Write) :=
  rbind (rfoldl (pushAll_table h baseDoc rev delRefs) ([], []) chs) (fun r =>
  let tableDeletes := r.2 in
  Ok (r.1
      ++ match tableDeletes with
         | [] => []
         | _ => [WSet (doc (collection baseDoc DELETE_COLLECTION) (autoId env))
                      (DDel {| revision := rev; deletes := tableDeletes |})]
         end
      ++ [WMergeBase baseDoc rev (now env) None])).

(* runTransaction: the queued writes are committed together when the body
   returns, and none of them when it throws *)
Definition pushAllChanges (env : Env) (baseDoc : DocRef)
    (params : SyncPushArgs) (delRefs : AllDeleteRefs) : M unit :=
  fun w =>
    let baseSnap := store w !! baseDoc in
    let rev := (revisionFromBaseSnap baseSnap).1 in
    if negb (rev =? lastPulledAt params)
    then (Err (OutOfSync (lastPulledAt params - 1) rev), w)
    else
      match pushAll_writes env (heap w) baseDoc rev (changes params) delRefs
      with
      | Ok ws =>
          (Ok tt,
           {| store := apply_writes (store w) ws;
              heap := heap w;
              commits := commits w |})
      | Err e => (Err e, w)
      end.

(** ** Array.prototype.slice *)

Definition js_slice {A} (l : list A) (s e : Z) : list A :=
  let len := Z.of_nat (length l) in
  let k := if s <? 0 then Z.max (len + s) 0 else Z.min s len in
  let final := if e <? 0 then Z.max (len + e) 0 else Z.min e len in
  take (Z.to_nat (final - k)) (drop (Z.to_nat k) l).

(** ** BatchWriter (lines 612-718) *)

Module BatchWriter.

Record t := mk {
  batch : WriteBatch;
  count : Z;
  bdoc : DocRef;       (* this.doc *)
  brevision : Z        (* this.revision *)
}.

(* constructor *)
Definition new (d : DocRef) (rev : Z) : t :=
  {| batch := new_batch; count := 0; bdoc := d; brevision := rev |}.

Definition with_batch (this : t) (b : WriteBatch) (c : Z) : t :=
  {| batch := b; count := c; bdoc := bdoc this; brevision := brevision this |}.

(* await this.batch.commit(); this.batch = firestore().batch(); this.count = 0 *)
Definition flushBatch (this : t) : M t :=
  bind (commit_batch (batch this)) (fun _ => ret (with_batch this new_batch 0)).

(* this.flushBatch() called without await (line 686).  commit() runs at
   once.  The two assignments after the await wait for the commit promise,
   which settles only after the remote round trip: they do not run before
   the calling job and the jobs it chains without remote calls have
   finished, and every such continuation of this program touches
   this.batch first.  A commit() that throws rejects a promise nobody
   looks at. *)
Definition flushBatch_detached (this : t) : M t :=
  fun w =>
    match commit_batch (batch this) w with
    | (Ok b, w') => (Ok (with_batch this b (count this)), w')
    | (Err _, w') => (Ok this, w')
    end.

Definition bumpCount (this : t) : M t :=
  let this1 := with_batch this (batch this) (count this + 1) in
  if count this1 =? MAX_TRANSACTION_WRITES then flushBatch this1
  else ret this1.

Definition flush (this : t) : M t := flushBatch this.

Definition write (table : string) (rec : Row) (this : t) : M t :=
  let r := doc (collection (bdoc this) table) (encodeURIComponent (id rec)) in
  let data := withRevision rec (brevision this) in
  bind (lift (batch_queue (batch this) (WSet r (DRow data))))
       (fun b => bumpCount (with_batch this b (count this))).

Definition created (table : string) (rec : Row) (this : t) : M t :=
  write table rec this.

Definition updated (table : string) (rec : Row) (this : t) : M t :=
  write table rec this.

Definition queue_deletes (b : WriteBatch) (refs : list DocRef)
  : Result WriteBatch :=
  rfoldl (fun b r => batch_queue b (WDelete r)) b refs.

(* the for loop of lines 669-688, from iteration [iBlock] on *)
Fixpoint deleted_blocks (fuel : nat) (restRefs : list DocRef) (iBlock : Z)
    (this : t) : M t :=
  (* iBlock < restRefs.length / MAX_TRANSACTION_WRITES + 1 *)
  if MAX_TRANSACTION_WRITES * iBlock
     <? Z.of_nat (length restRefs) + MAX_TRANSACTION_WRITES
  then
    match fuel with
    | O => throw OutOfFuel
    | S fuel' =>
        let block :=
          js_slice restRefs (iBlock * MAX_TRANSACTION_WRITES)
                   ((iBlock + 1) * MAX_TRANSACTION_WRITES) in
        bind (lift (queue_deletes (batch this) block)) (fun b =>
        let this1 :=
          with_batch this b (count this + Z.of_nat (length block)) in
        bind (if count this1 =? MAX_TRANSACTION_WRITES
              then flushBatch_detached this1 else ret this1) (fun this2 =>
        deleted_blocks fuel' restRefs (iBlock + 1) this2))
    end
  else ret this.

Definition deleted (refs : list DocRef) (this : t) : M t :=
  let headCount :=
    Z.min (Z.of_nat (length refs)) (MAX_TRANSACTION_WRITES - count this) in
  bind (lift (queue_deletes (batch this) (js_slice refs 0 headCount)))
       (fun b =>
  let this1 := with_batch this b (count this + headCount) in
  let restRefs := js_slice refs headCount (Z.of_nat (length refs)) in
  if count this1 =? MAX_TRANSACTION_WRITES then
    bind (flushBatch this1)
         (deleted_blocks (S (S (length restRefs))) restRefs 0)
  else ret this1).

End BatchWriter.

(** ** Side-batch push: stage, integrate, rollback (lines 474-582) *)

(* What batch.delete is handed: a document reference, or something else. *)
Inductive DeleteArg :=
  | ARef (r : DocRef)
  | AArray (rs : list DocRef).

(* WriteBatch.delete(documentRef): anything but a DocumentReference is
   refused with an error *)
Definition batch_delete (b : WriteBatch) (a : DeleteArg) : Result WriteBatch :=
  match a with
  | ARef r => batch_queue b (WDelete r)
  | AArray _ => Err InvalidArgument
  end.

(* the body of the staging loop for one table (lines 497-517) *)
Definition stage_table (delRefs : AllDeleteRefs)
    (acc : BatchWriter.t * TableDeletes) (entry : string * TableChanges loc)
  : M (BatchWriter.t * TableDeletes) :=
  let table := entry.1 in
  bind (mfoldl (fun bw l =>
                  bind (strip_in_place l)
                       (fun rec => BatchWriter.created table rec bw))
               acc.1 (created entry.2)) (fun bw1 =>
  bind (mfoldl (fun bw l =>
                  bind (strip_in_place l)
                       (fun rec => BatchWriter.updated table rec bw))
               bw1 (updated entry.2)) (fun bw2 =>
  (* table in delRefs (line 512), as at line 421 *)
  match delRefs !! table with
  | Some refs =>
      bind (BatchWriter.deleted (map ref refs) bw2) (fun bw3 =>
      ret (bw3, JsObj.set table (map encodedId refs) acc.2))
  | None => if inherited table then throw TypeError else ret (bw2, acc.2)
  end)).

(* the transaction of lines 524-552 *)
Definition integrate (env : Env) (baseDoc batchDoc : DocRef) (rev : Z)
    (batchTokens : option (gmap Z string)) (pulledAt : Z)
    (dels : TableDeletes) : M unit :=
  fun w =>
    match integrateFailure env with
    | Some msg => (Err (RemoteError msg), w)
    | None =>
        if negb (rev =? pulledAt)
        then (Err (OutOfSync (pulledAt - 1) rev), w)
        else
          let date := now env in
          let baseTokens := <[rev := autoId env]> (default ∅ batchTokens) in
          let root := {| batchLatestRevision := rev;
                         batchLatestDate := date;
                         batchDeletes := dels |} in
          (Ok tt,
           {| store := apply_writes (store w)
                         [WSet batchDoc (DBatch root);
                          WMergeBase baseDoc rev date (Some baseTokens)];
              heap := heap w;
              commits := commits w |})
    end.

(* the for loop of lines 562-577, from iteration [iBlock] on; every element
   of rollbackRefs is the array of one table's references *)
Fixpoint rollback_blocks (fuel : nat) (rollbackRefs : list (list DocRef))
    (iBlock : Z) : M unit :=
  if MAX_TRANSACTION_WRITES * iBlock
     <? Z.of_nat (length rollbackRefs) + MAX_TRANSACTION_WRITES
  then
    match fuel with
    | O => throw OutOfFuel
    | S fuel' =>
        let block :=
          js_slice rollbackRefs (iBlock * MAX_TRANSACTION_WRITES)
                   ((iBlock + 1) * MAX_TRANSACTION_WRITES) in
        bind (lift (rfoldl (fun b r => batch_delete b (AArray r))
                           new_batch block)) (fun b =>
        bind (commit_batch b) (fun _ =>
        rollback_blocks fuel' rollbackRefs (iBlock + 1)))
    end
  else ret tt.

(* the catch block of lines 553-581 *)
Definition rollback (batchDoc : DocRef) (chs : PushChangeSet) (err : Error)
  : M unit :=
  bind get_store (fun st =>
  let rollbackRefs :=
    map (fun entry : string * TableChanges loc =>
           map (fun d => doc (collection batchDoc entry.1) d.1)
               (collection_docs st (collection batchDoc entry.1)))
        chs in
  bind (rollback_blocks (S (S (length rollbackRefs))) rollbackRefs 0)
       (fun _ => throw err)).

(* lines 484-519 after the stale check: a fresh writer, every table in turn,
   then flush; the result is the deletes map of the batch document *)
Definition stage (batchDoc : DocRef) (rev : Z) (chs : PushChangeSet)
    (delRefs : AllDeleteRefs) : M TableDeletes :=
  bind (mfoldl (stage_table delRefs) (BatchWriter.new batchDoc rev, []) chs)
       (fun staged =>
  bind (BatchWriter.flush staged.1) (fun _ => ret staged.2)).

Definition pushBatchedChanges (env : Env) (baseDoc : DocRef)
    (params : SyncPushArgs) (delRefs : AllDeleteRefs) : M unit :=
  let batchDoc := doc (collection baseDoc BATCH_COLLECTION) (autoId env) in
  bind get_store (fun st =>
  let baseSnap := st !! baseDoc in
  let rev := (revisionFromBaseSnap baseSnap).1 in
  let batchTokens := (revisionFromBaseSnap baseSnap).2 in
  if negb (rev =? lastPulledAt params)
  then throw (OutOfSync (lastPulledAt params - 1) rev)
  else
    bind (stage batchDoc rev (changes params) delRefs) (fun dels =>
    fun w =>
      match integrate env baseDoc batchDoc rev batchTokens
                      (lastPulledAt params) dels w with
      | (Ok u, w') => (Ok u, w')
      | (Err err, w') => rollback batchDoc (changes params) err w'
      end)).

(** ** Push planner (lines 287-301) *)

Definition delChanges (delRefs : AllDeleteRefs) : Z :=
  map_fold (fun _ refs acc => acc + Z.of_nat (length refs)) 0 delRefs.

Definition pushChanges (env : Env) (baseDoc : DocRef) (params : SyncPushArgs)
  : M unit :=
  bind (findDeleteRefs baseDoc params) (fun delRefs =>
  if countChanges (changes params) (delChanges delRefs)
     <? MAX_TRANSACTION_WRITES
  then pushAllChanges env baseDoc params delRefs
  else pushBatchedChanges env baseDoc params delRefs).

(** ** Pull (lines 139-257) *)

(* ChangeLoadMap: per table, the rows and the deleted ids seen so far, each an
   object keyed by the decoded id *)
Record TableLoad := mkTableLoad {
  loadUpdated : list (string * Row);
  loadDeleted : list (string * unit)
}.

Abbreviation ChangeLoadMap := (gmap string TableLoad).

(* the revision a row document is ordered by *)
Definition row_revision (r : Row) : Z := default 0 (melonFireRevision r).

Definition in_revisions (s e : Z) (kd : string * Doc) : option (string * Row) :=
  match kd.2 with
  | DRow r =>
      match melonFireRevision r with
      | Some n => if (s <=? n) && (n <? e) then Some (kd.1, r) else None
      | None => None
      end
  | _ => None
  end.

(* collection(table).where("melonFireRevision", ">=", s)
     .where("melonFireRevision", "<", e).orderBy("melonFireRevision").get():
   the document ids with their data, by revision and then by name *)
Definition query_revisions (st : Store) (coll : list string) (s e : Z)
  : list (string * Row) :=
  isort (fun a b => row_revision a.2 <=? row_revision b.2)
        (omap (in_revisions s e) (collection_docs st coll)).

(* the body of refs.docs.forEach (lines 246-254) *)
Definition merge_doc (table : string) (cm : ChangeLoadMap) (storedData : Row)
  : Result ChangeLoadMap :=
  let rec := removeMelonFields (removeWatermelonInternals storedData) in
  match cm !! table with
  | None => Err TypeError
  | Some tl =>
      rbind (decodeURIComponent (id rec)) (fun key =>
      Ok (<[table := {| loadUpdated := JsObj.set key rec (loadUpdated tl);
                        loadDeleted := loadDeleted tl |}]> cm))
  end.

Definition mergeCreatesAndUpdates (st : Store) (root : DocRef)
    (startRevision endRevision : Z) (tables : list string)
    (changeMap : ChangeLoadMap) : Result ChangeLoadMap :=
  rfoldl (fun cm table =>
            rfoldl (merge_doc table) cm
                   (map snd (query_revisions st (collection root table)
                                             startRevision endRevision)))
         changeMap tables.

(* changeMap[table].deleted[decodeURIComponent(id)] = true *)
Definition mark_deleted (table : string) (cm : ChangeLoadMap) (i : string)
  : Result ChangeLoadMap :=
  match cm !! table with
  | None => Err TypeError
  | Some tl =>
      rbind (decodeURIComponent i) (fun key =>
      Ok (<[table := {| loadUpdated := loadUpdated tl;
                        loadDeleted := JsObj.set key tt (loadDeleted tl) |}]> cm))
  end.

(* Object.keys(deletes).forEach(table => deletes[table].forEach(...)) *)
Definition add_deletions (cm : ChangeLoadMap) (dels : TableDeletes)
  : Result ChangeLoadMap :=
  rfoldl (fun cm entry => rfoldl (mark_deleted entry.1) cm entry.2) cm dels.

(* collection(DELETE_COLLECTION).where("revision", ">=", s)
     .where("revision", "<", e).get() *)
Definition query_deletes (st : Store) (baseDoc : DocRef) (s e : Z)
  : list DeleteRecord :=
  omap (fun kd : string * Doc =>
          match kd.2 with
          | DDel d => if (s <=? revision d) && (revision d <? e)
                      then Some d else None
          | _ => None
          end)
       (collection_docs st (collection baseDoc DELETE_COLLECTION)).

Definition has_token (tokens : option (gmap Z string)) (r : Z) : bool :=
  match tokens with
  | Some m => match m !! r with Some _ => true | None => false end
  | None => false
  end.

(* the inner while loop (lines 168-170) *)
Fixpoint advance_end (fuel : nat) (tokens : option (gmap Z string))
    (endRevision e : Z) : Result Z :=
  if negb (has_token tokens e) && (e <? endRevision) then
    match fuel with
    | O => Err OutOfFuel
    | S fuel' => advance_end fuel' tokens endRevision (e + 1)
    end
  else Ok e.

(* one side-batch revision (lines 172-187) *)
Definition pull_batch (st : Store) (baseDoc : DocRef) (tables : list string)
    (tokens : option (gmap Z string)) (start : Z) (cm : ChangeLoadMap)
  : Result ChangeLoadMap :=
  match tokens with
  | None => Err TypeError
  | Some m =>
      match m !! start with
      | None => Err TypeError
      | Some token =>
          let root := doc (collection baseDoc BATCH_COLLECTION) token in
          rbind (mergeCreatesAndUpdates st root start (start + 1) tables cm)
                (fun cm1 =>
          match st !! root with
          | Some (DBatch rootDoc) => add_deletions cm1 (batchDeletes rootDoc)
          | _ => Err TypeError
          end)
      end
  end.

(* one run of revisions kept under baseDoc (lines 189-205) *)
Definition pull_run (st : Store) (baseDoc : DocRef) (tables : list string)
    (start e : Z) (cm : ChangeLoadMap) : Result ChangeLoadMap :=
  rbind (mergeCreatesAndUpdates st baseDoc start e tables cm) (fun cm1 =>
  rfoldl (fun cm record => add_deletions cm (deletes record)) cm1
         (query_deletes st baseDoc start e)).

(* the outer while loop (lines 167-208) *)
Fixpoint pull_loop (fuel : nat) (st : Store) (baseDoc : DocRef)
    (tables : list string) (tokens : option (gmap Z string))
    (endRevision start : Z) (cm : ChangeLoadMap) : Result ChangeLoadMap :=
  if start <? endRevision then
    match fuel with
    | O => Err OutOfFuel
    | S fuel' =>
        rbind (advance_end (Z.to_nat (endRevision - start)) tokens
                           endRevision start) (fun e =>
        if e =? start then
          rbind (pull_batch st baseDoc tables tokens start cm) (fun cm1 =>
          pull_loop fuel' st baseDoc tables tokens endRevision (e + 1) cm1)
        else
          rbind (pull_run st baseDoc tables start e cm) (fun cm1 =>
          pull_loop fuel' st baseDoc tables tokens endRevision e cm1))
    end
  else Ok cm.

(* lines 212-220, for one table; the filter of line 216 is
   [!(row.id in changeMap[table].deleted)] *)
Definition pulled_table (tl : TableLoad) : TableChanges Row :=
  {| created := [];
     updated := List.filter
                  (fun row => negb (js_in (id row) (loadDeleted tl)))
                  (JsObj.values (loadUpdated tl));
     deleted := JsObj.keys (loadDeleted tl) |}.

Definition build_changes (tables : list string) (cm : ChangeLoadMap)
  : Result (gmap string (TableChanges Row)) :=
  rfoldl (fun acc table =>
            match cm !! table with
            | Some tl => Ok (<[table := pulled_table tl]> acc)
            | None => Err TypeError
            end) ∅ tables.

Definition init_changeMap (tables : list string) : ChangeLoadMap :=
  foldl (fun cm table =>
           <[table := {| loadUpdated := []; loadDeleted := [] |}]> cm)
        ∅ tables.

Definition pullChanges (tables : list string) (baseDoc : DocRef)
    (pulledAt : option Z) : M SyncPullResult :=
  fun w =>
    let startRevision :=
      match pulledAt with None => MIN_REVISION | Some r => r end in
    let baseSnap := store w !! baseDoc in
    let endRevision := (revisionFromBaseSnap baseSnap).1 in
    let batchTokens := (revisionFromBaseSnap baseSnap).2 in
    let changeMap := init_changeMap tables in
    (rbind (pull_loop (Z.to_nat (endRevision - startRevision)) (store w)
                      baseDoc tables batchTokens endRevision startRevision
                      changeMap) (fun cm =>
     rbind (build_changes tables cm) (fun chs =>
     Ok {| pulled := chs; timestamp := endRevision |})),
     w).

(** ** Definitions used to state the properties *)

(* C of the planner: created plus updated rows over all tables *)
Fixpoint rowCount {R} (chs : list (string * TableChanges R)) : Z :=
  match chs with
  | [] => 0
  | e :: chs' =>
      Z.of_nat (length (created e.2)) + Z.of_nat (length (updated e.2))
      + rowCount chs'
  end.

(* effective = C + (D > 0 ? D + 1 : 0) *)
Definition effective (C D : Z) : Z :=
  C + (if bool_decide (D > 0) then D + 1 else 0).

(* the delete references findDeleteRefs returns on a store *)
Definition discovered (st : Store) (baseDoc : DocRef) (chs : PushChangeSet)
  : AllDeleteRefs :=
  foldl (findDeleteRefs_table st baseDoc) ∅ chs.

(* (latestRevision ?? 0) + 1, read off the root document *)
Definition nextRevisionToWrite (st : Store) (baseDoc : DocRef) : Z :=
  match as_base (st !! baseDoc) with
  | Some b => default 0 (melonLatestRevision b) + 1
  | None => 0 + 1
  end.

Definition no_changes : TableChanges Row :=
  {| created := []; updated := []; deleted := [] |}.

(* the caller's row objects a changeset names *)
Definition pushed_rows (chs : PushChangeSet) : list loc :=
  flat_map (fun e : string * TableChanges loc => created e.2 ++ updated e.2) chs.

(* the heap after removeWatermelonInternals ran on each of [ls] in turn *)
Definition strip_all (h : list Row) (ls : list loc) : list Row :=
  foldl (fun h l => alter removeWatermelonInternals l h) h ls.

(** ** Sample data for the examples *)

Definition sample_base : DocRef := ["backups"; "alice"]%string.

Definition sample_env : Env :=
  {| autoId := "token1"; now := "2024-01-01T00:00:00.000Z";
     integrateFailure := None |}.

(* the same surroundings, but the integrate transaction is rejected *)
Definition failing_env : Env :=
  {| autoId := "token1"; now := "2024-01-01T00:00:00.000Z";
     integrateFailure := Some "unavailable"%string |}.

Definition sample_row (i d : string) : Row :=
  {| id := i; _status := Some "created"%string; _changed := Some ""%string;
     melonFireChange := None; melonFireRevision := None;
     columns := [("data"%string, VStr d)] |}.

Definition empty_world (h : list Row) : World :=
  {| store := ∅; heap := h; commits := [] |}.

(* push @ 1: { entries: { created: [heap[0]], updated: [], deleted: [] } } *)
Definition push_first : SyncPushArgs :=
  {| changes := [("entries"%string, mkTableChanges [0%nat] [] [])];
     lastPulledAt := 1 |}.

(* a root at revision 2 where "aaa" was written at revision 1 and a delete
   record of revision 2 names it *)
Definition occluded_world : World :=
  {| store :=
       {[ sample_base := DBase (mkBaseDoc (Some 2) None None);
          sample_base ++ ["entries"; "aaa"]%string :=
            DRow (withRevision (removeWatermelonInternals
                                  (sample_row "aaa" "hello")) 1);
          sample_base ++ ["melonDeletes"; "d1"]%string :=
            DDel {| revision := 2;
                    deletes := [("entries"%string, ["aaa"%string])] |} ]};
     heap := []; commits := [] |}.

(* push @ 1 of two created rows, heap[0] and heap[1] *)
Definition push_two : SyncPushArgs :=
  {| changes := [("entries"%string, mkTableChanges [0%nat; 1%nat] [] [])];
     lastPulledAt := 1 |}.

(* the ids of the rows a pull returns as updated for a table *)
Definition pulled_ids (r : Result SyncPullResult) (table : string)
  : Result (list string) :=
  rbind r (fun res =>
  match pulled res !! table with
  | Some tc => Ok (map id (updated tc))
  | None => Err TypeError
  end).

#[global] Instance Result_eq_dec {A} `{EqDecision A} : EqDecision (Result A).
Proof. solve_decision. Defined.

(* a stored row as the pull hands it back: the four reserved properties gone *)
Definition stripped (r : Row) : Row :=
  removeMelonFields (removeWatermelonInternals r).

(* the entry of key [k] after the rows were merged in order: the last row
   whose id decodes to [k], or what was there before *)
Definition last_for_key (k : string) (before : option Row) (rows : list Row)
  : option Row :=
  foldl (fun acc r =>
           if decide (decodeURIComponent (id r) = Ok k)
           then Some (stripped r) else acc)
        before rows.

(* the updated map of [tl'] came from that of [tl] by merging documents of
   [root]/[t] with a revision in [s, e): every entry is what was there before
   or a stripped document of the range *)
Definition merged_from (st : Store) (root : DocRef) (s e : Z) (t : string)
    (tl tl' : TableLoad) : Prop :=
  loadDeleted tl' = loadDeleted tl
  /\ forall k' v,
       JsObj.get k' (loadUpdated tl') = Some v ->
       JsObj.get k' (loadUpdated tl) = Some v
       \/ exists dk' r' n',
            st !! doc (collection root t) dk' = Some (DRow r')
            /\ melonFireRevision r' = Some n' /\ s <= n' < e
            /\ decodeURIComponent (id r') = Ok k' /\ v = stripped r'.

(* two documents of table "entries" whose stored ids decode to the same key
   "a b": one written at revision 1, one at revision 2 *)
Definition row_rev1 : Row :=
  withRevision (removeWatermelonInternals (sample_row "a b" "old")) 1.
Definition row_rev2 : Row :=
  withRevision (removeWatermelonInternals (sample_row "a%20b" "new")) 2.

Definition rewritten_store : Store :=
  {[ sample_base := DBase (mkBaseDoc (Some 2) None None);
     sample_base ++ ["entries"; "a%20b"]%string := DRow row_rev1;
     sample_base ++ ["entries"; "a%2520b"]%string := DRow row_rev2 ]}.

(** ** Definitions used to state the round trip *)

(* what a pushed row is stored as at revision [rev] *)
Definition stored (rev : Z) (raw : Row) : Row :=
  withRevision (removeWatermelonInternals raw) rev.

(* the documents findDeleteRefs looks up for the deleted ids of a table: one
   under the root and one under every side batch, per id *)
Definition delete_candidates (st : Store) (baseDoc : DocRef) (t : string)
    (ids : list string) : list DocRef :=
  map (fun i => doc (collection baseDoc t) (encodeURIComponent i)) ids
  ++ flat_map
       (fun i =>
          map (fun b : string * Doc =>
                 doc (collection
                        (doc (collection baseDoc BATCH_COLLECTION) b.1) t)
                     (encodeURIComponent i))
              (collection_docs st (collection baseDoc BATCH_COLLECTION)))
       ids.

(* the ids held by those of them that exist *)
Definition found_ids (st : Store) (baseDoc : DocRef) (t : string)
    (ids : list string) : list string :=
  omap (fun p => data_id <$> st !! p) (delete_candidates st baseDoc t ids).

(* the rows of a table's changes, created first, as the heap holds them *)
Definition pushed (h : list Row) (ch : TableChanges loc) : list Row :=
  map (deref h) (created ch ++ updated ch).

(* [x] is the last row of [rows] carrying its id *)
Definition last_of_id (rows : list Row) (x : Row) : Prop :=
  exists rows1 rows2,
    rows = rows1 ++ x :: rows2 /\ id x ∉ map id rows2.

(* the store holds nothing of revision [r] yet, and nothing under the side
   batch [token] *)
Definition fresh_revision (st : Store) (baseDoc : DocRef) (r : Z)
    (token : string) : Prop :=
  has_token (revisionFromBaseSnap (st !! baseDoc)).2 r = false
  /\ (forall t dk row,
        st !! doc (collection baseDoc t) dk = Some (DRow row) ->
        melonFireRevision row <> Some r)
  /\ (forall dk d,
        st !! doc (collection baseDoc DELETE_COLLECTION) dk = Some (DDel d) ->
        revision d <> r)
  /\ (forall t dk,
        st !! doc (collection (doc (collection baseDoc BATCH_COLLECTION) token) t) dk
        = None).

(* the writes a push queues for one table under [target] (the root on the
   inline path, the side batch otherwise): every row, then every discovered
   delete *)
Definition table_sets (target : DocRef) (h : list Row) (rev : Z)
    (e : string * TableChanges loc) : list Write :=
  map (fun raw => WSet (doc (collection target e.1) (encodeURIComponent (id raw)))
                       (DRow (stored rev raw)))
      (pushed h e.2).

Definition table_dels (delRefs : AllDeleteRefs)
    (e : string * TableChanges loc) : list Write :=
  match delRefs !! e.1 with
  | Some refs => map (fun r => WDelete (ref r)) refs
  | None => []
  end.

Definition table_writes (target : DocRef) (h : list Row) (rev : Z)
    (delRefs : AllDeleteRefs) (e : string * TableChanges loc) : list Write :=
  table_sets target h rev e ++ table_dels delRefs e.

(* tableDeletes / deletes as the two paths build it *)
Definition deletes_map (delRefs : AllDeleteRefs) (chs : PushChangeSet)
    (td : TableDeletes) : TableDeletes :=
  foldl (fun td (e : string * TableChanges loc) =>
           match delRefs !! e.1 with
           | Some refs => JsObj.set e.1 (map encodedId refs) td
           | None => td
           end) td chs.

Definition write_target (w : Write) : DocRef :=
  match w with
  | WSet p _ => p
  | WMergeBase p _ _ _ => p
  | WDelete p => p
  end.

(* what one write does to the document at [p] *)
Definition write_effect (p : DocRef) (cur : option Doc) (w : Write)
  : option Doc :=
  if decide (write_target w = p) then
    match w with
    | WSet _ d => Some d
    | WMergeBase _ rev date tokens => Some (merge_base cur rev date tokens)
    | WDelete _ => None
    end
  else cur.

(** ** Definitions used in the proofs *)

(* a computation that never touches the heap, whatever it returns *)
Definition heap_kept {A} (m : M A) : Prop :=
  forall w, heap (m w).2 = heap w.

(* the world after a write batch holding [ws] was committed *)
Definition after_commit (w : World) (ws : list Write) : World :=
  {| store := apply_writes (store w) ws;
     heap := heap w;
     commits := commits w ++ [ws] |}.

(* a path of a document of table [t], under the root or under a side batch *)
Definition of_table (base : DocRef) (t : string) (p : DocRef) : Prop :=
  (exists k, p = base ++ [t; k])
  \/ (exists b k, p = base ++ [BATCH_COLLECTION; b; t; k]).

Definition refs_of (st : Store) (base : DocRef) (t : string)
    (ch : TableChanges loc) : list DeleteRef :=
  existing_refs st (delete_candidates st base t (deleted ch)).

(* the last row of [rows] whose document key is [dk] *)
Definition last_row_at (dk : string) (rows : list Row) : option Row :=
  foldl (fun acc raw =>
           if decide (encodeURIComponent (id raw) = dk) then Some raw else acc)
        None rows.

(* the writer is usable: its batch is open, and committing what it holds
   would bring the store to [done] applied to the store staging began on;
   the caller's objects are what they were, up to the internals *)
Definition staging (st0 : Store) (h0 : list Row) (done : list Write)
    (bw : BatchWriter.t) (w : World) : Prop :=
  committed (BatchWriter.batch bw) = false
  /\ 0 <= BatchWriter.count bw < MAX_TRANSACTION_WRITES
  /\ apply_writes (store w) (writes (BatchWriter.batch bw))
     = apply_writes st0 done
  /\ forall l, removeWatermelonInternals (deref (heap w) l)
               = removeWatermelonInternals (deref h0 l).

(* the writer holds a committed batch: every further use throws *)
Definition stuck (bw : BatchWriter.t) : Prop :=
  committed (BatchWriter.batch bw) = true
  /\ BatchWriter.count bw = MAX_TRANSACTION_WRITES.

(* where staging stands after some tables: the writer is stuck, or it is
   usable and [done] is what was written so far *)
Definition staged_so_far (st0 : Store) (h0 : list Row) (batchDoc : DocRef)
    (rev : Z) (done : list Write) (bw : BatchWriter.t) (w : World) : Prop :=
  stuck bw
  \/ (staging st0 h0 done bw w
      /\ BatchWriter.bdoc bw = batchDoc /\ BatchWriter.brevision bw = rev).

Definition batch_doc (env : Env) (base : DocRef) : DocRef :=
  doc (collection base BATCH_COLLECTION) (autoId env).

(* what the inline transaction writes after the tables *)
Definition inline_tail (env : Env) (base : DocRef) (r : Z)
    (dels : TableDeletes) : list Write :=
  match dels with
  | [] => []
  | _ => [WSet (doc (collection base DELETE_COLLECTION) (autoId env))
               (DDel {| revision := r; deletes := dels |})]
  end
  ++ [WMergeBase base r (now env) None].

(* the test [table in delRefs] holds for this table although findDeleteRefs
   made no entry for it: lines 423 and 514 throw *)
Definition throwing (delRefs : AllDeleteRefs)
    (e : string * TableChanges loc) : bool :=
  match delRefs !! e.1 with
  | Some _ => false
  | None => inherited e.1
  end.

(* what the integrate transaction writes *)
Definition batch_tail (env : Env) (base : DocRef) (r : Z)
    (tokens : option (gmap Z string)) (dels : TableDeletes) : list Write :=
  [WSet (batch_doc env base)
        (DBatch {| batchLatestRevision := r; batchLatestDate := now env;
                   batchDeletes := dels |});
   WMergeBase base r (now env)
              (Some (<[r := autoId env]> (default ∅ tokens)))].

(* [cm'] is [cm] with some deleted marks added: the tables are the same, the
   updated maps are the same, and a key is marked in [cm'] exactly when it
   was marked in [cm] or [added] names it *)
Definition marks_added (cm cm' : ChangeLoadMap)
    (added : string -> string -> Prop) : Prop :=
  (forall t, cm !! t = None -> cm' !! t = None)
  /\ forall t tl,
       cm !! t = Some tl ->
       exists tl',
         cm' !! t = Some tl'
         /\ loadUpdated tl' = loadUpdated tl
         /\ forall k, is_Some (JsObj.get k (loadDeleted tl'))
                      <-> is_Some (JsObj.get k (loadDeleted tl)) \/ added t k.

Definition has_tables (tables : list string) (cm : ChangeLoadMap) : Prop :=
  forall t, t ∈ tables -> is_Some (cm !! t).

(* the marks a deletes map asks for *)
Definition deletes_name (dels : TableDeletes) (t k : string) : Prop :=
  exists ids i, (t, ids) ∈ dels /\ i ∈ ids /\ decodeURIComponent i = Ok k.

(* the changes a changeset holds for a table; none if it does not name it *)
Definition changes_of (chs : PushChangeSet) (t : string) : TableChanges loc :=
  match list_find (fun e : string * TableChanges loc => e.1 = t) chs with
  | Some (_, e) => e.2
  | None => {| created := []; updated := []; deleted := [] |}
  end.

(* the documents found for a deleted id, under the root or under a side
   batch, carry that id *)
Definition keyed_by_id (st : Store) (base : DocRef) (chs : PushChangeSet)
  : Prop :=
  forall t ch i p d,
    (t, ch) ∈ chs -> i ∈ deleted ch ->
    p ∈ delete_candidates st base t [i] ->
    st !! p = Some d ->
    data_id d = i.

(* a document exists for id [i] of table [t], under the root or under a side
   batch *)
Definition has_document (st : Store) (base : DocRef) (t i : string) : Prop :=
  exists p, p ∈ delete_candidates st base t [i] /\ is_Some (st !! p).

(* what the change map holds for the requested tables after the run or the
   side batch of revision [r] was merged *)
Definition loads_of (st' : Store) (under : DocRef) (r : Z)
    (tables : list string) (dels : TableDeletes) (cm : ChangeLoadMap) : Prop :=
  forall t, t ∈ tables ->
    exists tl,
      cm !! t = Some tl
      /\ NoDup (loadUpdated tl).*1
      /\ (forall k, JsObj.get k (loadUpdated tl)
                    = last_for_key k None
                        (map snd (query_revisions st' (collection under t)
                                                  r (r + 1))))
      /\ (forall k, is_Some (JsObj.get k (loadDeleted tl))
                    <-> deletes_name dels t k).

(* a root at revision 1 that holds row "aaa" of table "entries" *)
Definition history_world (h : list Row) : World :=
  {| store :=
       {[ sample_base := DBase (mkBaseDoc (Some 1) None None);
          sample_base ++ ["entries"; "aaa"]%string :=
            DRow (stored 1 (sample_row "aaa" "hello")) ]};
     heap := h; commits := [] |}.

(* push @ 2: { entries: { created: [heap[0]], updated: [], deleted: ["aaa"] } } *)
Definition push_second : SyncPushArgs :=
  {| changes := [("entries"%string, mkTableChanges [0%nat] [] ["aaa"%string])];
     lastPulledAt := 2 |}.

(* push @ 2: { entries: { created: [heap[0]], updated: [], deleted: [] } } *)
Definition push_second_row : SyncPushArgs :=
  {| changes := [("entries"%string, mkTableChanges [0%nat] [] [])];
     lastPulledAt := 2 |}.

(* push @ 1: { entries: { created: [heap[0]], updated: [], deleted: ["zzz"] } } *)
Definition push_unknown_delete : SyncPushArgs :=
  {| changes := [("entries"%string, mkTableChanges [0%nat] [] ["zzz"%string])];
     lastPulledAt := 1 |}.

(* the ids a pull returns as deleted for a table *)
Definition pulled_deleted (r : Result SyncPullResult) (table : string)
  : Result (list string) :=
  rbind r (fun res =>
  match pulled res !! table with
  | Some tc => Ok (deleted tc)
  | None => Err TypeError
  end).

(** ** Definitions used to state further properties *)

(* the token a token map records for revision [k], if any *)
Definition token_of (tokens : option (gmap Z string)) (k : Z)
  : option string :=
  match tokens with
  | Some m => m !! k
  | None => None
  end.

(* the batch token the root records for revision [k], if any *)
Definition token_at (snap : option Doc) (k : Z) : option string :=
  token_of (revisionFromBaseSnap snap).2 k.

(* the delete references over all tables *)
Definition refCount (st : Store) (base : DocRef) (chs : PushChangeSet) : Z :=
  foldr (fun e acc => Z.of_nat (length (refs_of st base e.1 e.2)) + acc) 0 chs.

(* a computation keeps [I] on the world whatever it returns, and a value it
   returns satisfies [P] *)
Definition keeps {A} (I : World -> Prop) (P : A -> Prop) (m : M A) : Prop :=
  forall w, I w -> I (m w).2 /\ forall a, (m w).1 = Ok a -> P a.

(* since the world held store [st0] and commits [c0], write batches were
   committed, each of at most 500 writes that satisfy [Q], and nothing else
   reached the store *)
Definition committed_so_far (Q : Write -> Prop) (st0 : Store)
    (c0 : list (list Write)) (w : World) : Prop :=
  exists new,
    commits w = c0 ++ new
    /\ store w = apply_writes st0 (concat new)
    /\ Forall (fun ws => Z.of_nat (length ws) <= MAX_TRANSACTION_WRITES
                         /\ Forall Q ws) new.

(* the writer counts what its batch holds, which is at most 500 writes that
   satisfy [Q], and less than 500 while the batch is open *)
Definition writer_in_bounds (Q : Write -> Prop) (d : DocRef)
    (bw : BatchWriter.t) : Prop :=
  Z.of_nat (length (writes (BatchWriter.batch bw))) = BatchWriter.count bw
  /\ BatchWriter.count bw <= MAX_TRANSACTION_WRITES
  /\ (committed (BatchWriter.batch bw) = false ->
      BatchWriter.count bw < MAX_TRANSACTION_WRITES)
  /\ Forall Q (writes (BatchWriter.batch bw))
  /\ BatchWriter.bdoc bw = d.

(* an error other than running out of steps *)
Definition halts {A} (r : Result A) : Prop := r <> Err OutOfFuel.

(* the computation never stops for lack of steps *)
Definition mhalts {A} (m : M A) : Prop := forall w, halts (m w).1.

(* [st1] is [st] but for documents of the tables under [under] *)
Definition differs_under (under : DocRef) (st st1 : Store) : Prop :=
  forall p, (forall t k, p <> doc (collection under t) k) -> st1 !! p = st !! p.

(* a root at revision 1 whose token of revision 1 names a side batch that
   has no batch document *)
Definition dangling_world : World :=
  {| store :=
       {[ sample_base :=
            DBase (mkBaseDoc (Some 1) None (Some {[ 1 := "gone"%string ]})) ]};
     heap := []; commits := [] |}.

(** * Properties *)

(** ** Revision metadata *)

Lemma revisionFromBaseSnap_next (st : Store) (baseDoc : DocRef) :
  (revisionFromBaseSnap (st !! baseDoc)).1 = nextRevisionToWrite st baseDoc.
Proof.
  unfold revisionFromBaseSnap, nextRevisionToWrite, MIN_REVISION.
  destruct (as_base (st !! baseDoc)) as [b|]; simpl; [|done].
  destruct (melonLatestRevision b) as [n|]; simpl; [|done].
  destruct (Z.eqb_spec n 0); lia.
Qed.

(** ** The planner *)

Lemma foldl_add_shift (l : list Z) (a : Z) :
  foldl (fun prev cur => prev + cur) a l
  = a + foldl (fun prev cur => prev + cur) 0 l.
Proof.
  revert a. induction l as [|x l IH]; intros a; simpl; [lia|].
  rewrite (IH (a + x)), (IH (0 + x)). lia.
Qed.

Lemma countChanges_rowCount {R} (chs : list (string * TableChanges R)) (D : Z) :
  countChanges chs D = effective (rowCount chs) D.
Proof.
  unfold countChanges, effective.
  assert (foldl (fun prev cur => prev + cur) 0
            (map (fun e : string * TableChanges R =>
                    Z.of_nat (length (created e.2))
                    + Z.of_nat (length (updated e.2))) chs)
          = rowCount chs) as ->.
  { induction chs as [|e chs IH]; simpl; [done|].
    rewrite foldl_add_shift, IH. lia. }
  destruct (Z.ltb_spec 0 D); case_bool_decide; lia.
Qed.

(** C2.  The planner counts [effective = C + (D > 0 ? D + 1 : 0)], with C the
    created plus updated rows over all tables and D the number of delete
    references discovered, and takes the inline path exactly when
    [effective + 1 <= 500], the side-batch path otherwise. *)
Theorem pushChanges_plan (env : Env) (baseDoc : DocRef)
    (params : SyncPushArgs) (w : World) :
  let delRefs := discovered (store w) baseDoc (changes params) in
  let D := delChanges delRefs in
  let C := rowCount (changes params) in
  countChanges (changes params) D = effective C D
  /\ D = foldr (fun e acc => acc + Z.of_nat (length e.2)) 0 (map_to_list delRefs)
  /\ pushChanges env baseDoc params w
     = if bool_decide (effective C D + 1 <= MAX_TRANSACTION_WRITES)
       then pushAllChanges env baseDoc params delRefs w
       else pushBatchedChanges env baseDoc params delRefs w.
Proof.
  intros delRefs D C. split; [apply countChanges_rowCount|]. split.
  { unfold D, delChanges. rewrite map_fold_foldr.
    induction (map_to_list delRefs) as [|[t refs] l IH]; simpl; [done|].
    by rewrite IH. }
  unfold pushChanges, bind, findDeleteRefs. fold (discovered (store w) baseDoc (changes params)).
  fold delRefs. fold D. rewrite countChanges_rowCount. fold C.
  destruct (Z.ltb_spec (effective C D) MAX_TRANSACTION_WRITES);
    case_bool_decide; first [done | lia].
Qed.

(** ** Stale pushes *)

Lemma pushAllChanges_stale (env : Env) (baseDoc : DocRef)
    (params : SyncPushArgs) (delRefs : AllDeleteRefs) (w : World) :
  nextRevisionToWrite (store w) baseDoc <> lastPulledAt params ->
  pushAllChanges env baseDoc params delRefs w
  = (Err (OutOfSync (lastPulledAt params - 1)
                    (nextRevisionToWrite (store w) baseDoc)), w).
Proof.
  intros Hne. unfold pushAllChanges. rewrite revisionFromBaseSnap_next.
  destruct (Z.eqb_spec (nextRevisionToWrite (store w) baseDoc)
                       (lastPulledAt params)); [done|reflexivity].
Qed.

Lemma pushBatchedChanges_stale (env : Env) (baseDoc : DocRef)
    (params : SyncPushArgs) (delRefs : AllDeleteRefs) (w : World) :
  nextRevisionToWrite (store w) baseDoc <> lastPulledAt params ->
  pushBatchedChanges env baseDoc params delRefs w
  = (Err (OutOfSync (lastPulledAt params - 1)
                    (nextRevisionToWrite (store w) baseDoc)), w).
Proof.
  intros Hne. unfold pushBatchedChanges, bind, get_store.
  rewrite revisionFromBaseSnap_next.
  destruct (Z.eqb_spec (nextRevisionToWrite (store w) baseDoc)
                       (lastPulledAt params)); [done|reflexivity].
Qed.

(** C3.  A push whose [lastPulledAt] differs from the next revision read off
    the root, [(latestRevision ?? 0) + 1], fails with the out-of-sync error on
    either path and leaves everything as it was: no document is written and
    [latestRevision] is not advanced. *)
Theorem stale_push_rejected (env : Env) (baseDoc : DocRef)
    (params : SyncPushArgs) (w : World) :
  nextRevisionToWrite (store w) baseDoc <> lastPulledAt params ->
  let failure :=
    (Err (OutOfSync (lastPulledAt params - 1)
                    (nextRevisionToWrite (store w) baseDoc)), w) in
  pushChanges env baseDoc params w = failure
  /\ (forall delRefs, pushAllChanges env baseDoc params delRefs w = failure)
  /\ (forall delRefs, pushBatchedChanges env baseDoc params delRefs w = failure).
Proof.
  intros Hne failure. split; [|split].
  - unfold pushChanges, bind, findDeleteRefs.
    destruct (_ <? _); [by apply pushAllChanges_stale
                       |by apply pushBatchedChanges_stale].
  - intros. by apply pushAllChanges_stale.
  - intros. by apply pushBatchedChanges_stale.
Qed.

(** ** Pull: the final step *)

Lemma init_changeMap_lookup (tables : list string) (t : string) :
  init_changeMap tables !! t
  = if decide (t ∈ tables)
    then Some {| loadUpdated := []; loadDeleted := [] |} else None.
Proof.
  unfold init_changeMap.
  assert (forall cm : ChangeLoadMap,
    foldl (fun cm table =>
             <[table := {| loadUpdated := []; loadDeleted := [] |}]> cm)
          cm tables !! t
    = if decide (t ∈ tables)
      then Some {| loadUpdated := []; loadDeleted := [] |} else cm !! t) as H.
  { induction tables as [|t' tables IH]; intros cm; cbn [foldl].
    - by rewrite decide_False by apply not_elem_of_nil.
    - rewrite IH. destruct (decide (t ∈ tables)) as [Hin|Hnin].
      + by rewrite decide_True by (by right).
      + destruct (decide (t = t')) as [->|Hne].
        * rewrite decide_True by left. by rewrite lookup_insert_eq.
        * rewrite decide_False by (intros [?|?]%elem_of_cons; done).
          by rewrite lookup_insert_ne. }
  rewrite H. by destruct (decide _).
Qed.

Lemma build_changes_from (tables : list string) (cm : ChangeLoadMap)
    (acc : gmap string (TableChanges Row)) :
  (forall t, t ∈ tables -> is_Some (cm !! t)) ->
  exists chs,
    rfoldl (fun acc table =>
              match cm !! table with
              | Some tl => Ok (<[table := pulled_table tl]> acc)
              | None => Err TypeError
              end) acc tables = Ok chs
    /\ forall t, chs !! t = if decide (t ∈ tables)
                            then pulled_table <$> cm !! t else acc !! t.
Proof.
  revert acc. induction tables as [|t' tables IH]; intros acc Hall;
    cbn [rfoldl].
  - exists acc. split; [done|]. intros t.
    by rewrite decide_False by apply not_elem_of_nil.
  - destruct (Hall t') as [tl Htl]; [left|]. rewrite Htl. cbn [rbind].
    destruct (IH (<[t' := pulled_table tl]> acc)) as (chs & Hchs & Hlk).
    { intros t Ht. apply Hall. by right. }
    exists chs. split; [done|]. intros t. rewrite Hlk.
    destruct (decide (t ∈ tables)) as [Hin|Hnin].
    + by rewrite decide_True by (by right).
    + destruct (decide (t = t')) as [->|Hne].
      * rewrite decide_True by left. by rewrite lookup_insert_eq, Htl.
      * rewrite decide_False by (intros [?|?]%elem_of_cons; done).
        by rewrite lookup_insert_ne.
Qed.

Lemma build_changes_spec (tables : list string) (cm : ChangeLoadMap) :
  (forall t, t ∈ tables -> is_Some (cm !! t)) ->
  exists chs,
    build_changes tables cm = Ok chs
    /\ forall t, chs !! t = if decide (t ∈ tables)
                            then pulled_table <$> cm !! t else None.
Proof.
  intros Hall. destruct (build_changes_from tables cm ∅ Hall) as (chs & ? & H).
  exists chs. split; [done|]. intros t. rewrite H. by destruct (decide _).
Qed.

(** C8.  On a store whose root carries the committed revision L, a pull with
    [lastPulledAt = L + 1] returns, for every requested table, empty created,
    updated and deleted lists, and [timestamp = L + 1]. *)
Theorem pull_at_watermark (tables : list string) (baseDoc : DocRef)
    (w : World) (b : BaseDoc) (L : Z) :
  store w !! baseDoc = Some (DBase b) ->
  melonLatestRevision b = Some L ->
  exists res,
    pullChanges tables baseDoc (Some (L + 1)) w = (Ok res, w)
    /\ timestamp res = L + 1
    /\ forall t, pulled res !! t
                 = if decide (t ∈ tables) then Some no_changes else None.
Proof.
  intros Hroot HL. unfold pullChanges.
  assert ((revisionFromBaseSnap (store w !! baseDoc)).1 = L + 1) as Hend.
  { rewrite revisionFromBaseSnap_next. unfold nextRevisionToWrite.
    rewrite Hroot. simpl. rewrite HL. done. }
  rewrite Hend, Z.sub_diag. simpl. rewrite Z.ltb_irrefl. simpl.
  destruct (build_changes_spec tables (init_changeMap tables))
    as (chs & Hchs & Hlk).
  { intros t Ht. rewrite init_changeMap_lookup, decide_True by done. eauto. }
  rewrite Hchs. simpl. eexists. split; [done|]. split; [done|].
  intros t. simpl. rewrite Hlk, init_changeMap_lookup.
  by destruct (decide _).
Qed.

Lemma pull_at_watermark_witness :
  exists res,
    pullChanges ["entries"%string] ["backups"; "alice"]%string (Some (3 + 1))
      {| store := {[ ["backups"; "alice"]%string
                     := DBase (mkBaseDoc (Some 3) None None) ]};
         heap := []; commits := [] |}
    = (Ok res,
       {| store := {[ ["backups"; "alice"]%string
                      := DBase (mkBaseDoc (Some 3) None None) ]};
          heap := []; commits := [] |})
    /\ timestamp res = 3 + 1
    /\ forall t, pulled res !! t
                 = if decide (t ∈ ["entries"%string])
                   then Some no_changes else None.
Proof.
  apply (pull_at_watermark _ _ _ (mkBaseDoc (Some 3) None None) 3);
    reflexivity.
Defined.

Lemma stale_push_rejected_witness :
  let w := {| store := ∅; heap := []; commits := [] |} in
  let params := {| changes := []; lastPulledAt := 7 |} in
  let env := {| autoId := "t"%string; now := "d"%string;
                integrateFailure := None |} in
  pushChanges env ["backups"; "alice"]%string params w
  = (Err (OutOfSync (7 - 1) (nextRevisionToWrite ∅ ["backups"; "alice"]%string)), w).
Proof.
  intros w params env.
  apply (stale_push_rejected env ["backups"; "alice"]%string params w).
  vm_compute. discriminate.
Defined.

(** ** Sorting and object dictionaries *)

Lemma insert_sorted_Permutation {A} (leb : A -> A -> bool) (x : A) (l : list A) :
  insert_sorted leb x l ≡ₚ x :: l.
Proof.
  induction l as [|y l IH]; simpl; [done|].
  destruct (leb x y); [done|]. rewrite IH. apply Permutation_swap.
Qed.

Lemma isort_Permutation {A} (leb : A -> A -> bool) (l : list A) :
  isort leb l ≡ₚ l.
Proof.
  induction l as [|x l IH]; simpl; [done|].
  unfold isort in IH. by rewrite insert_sorted_Permutation, IH.
Qed.

Lemma filter_split_Permutation {A} (f : A -> bool) (l : list A) :
  List.filter f l ++ List.filter (fun x => negb (f x)) l ≡ₚ l.
Proof.
  induction l as [|x l IH]; simpl; [done|].
  destruct (f x); simpl.
  - by rewrite IH.
  - rewrite <- Permutation_middle. by rewrite IH.
Qed.

Lemma entries_Permutation {V} (o : list (string * V)) :
  JsObj.entries o ≡ₚ o.
Proof.
  unfold JsObj.entries. rewrite isort_Permutation.
  apply filter_split_Permutation.
Qed.

Lemma elem_of_keys {V} (o : list (string * V)) (k : string) :
  k ∈ JsObj.keys o <-> k ∈ map fst o.
Proof. unfold JsObj.keys. by rewrite entries_Permutation. Qed.

Lemma elem_of_values {V} (o : list (string * V)) (v : V) :
  v ∈ JsObj.values o <-> v ∈ map snd o.
Proof. unfold JsObj.values. by rewrite entries_Permutation. Qed.

Lemma get_Some_elem_of {V} (o : list (string * V)) (k : string) (v : V) :
  JsObj.get k o = Some v -> (k, v) ∈ o.
Proof.
  induction o as [|[k' v'] o IH]; simpl; [done|].
  destruct (String.eqb_spec k k') as [->|Hne].
  - intros [= ->]. left.
  - intros H. right. by apply IH.
Qed.

Lemma get_None_iff {V} (o : list (string * V)) (k : string) :
  JsObj.get k o = None <-> k ∉ map fst o.
Proof.
  induction o as [|[k' v'] o IH]; simpl.
  - split; [intros _; apply not_elem_of_nil|done].
  - destruct (String.eqb_spec k k') as [->|Hne].
    + split; [done|]. intros []. left.
    + rewrite IH, not_elem_of_cons. tauto.
Qed.

Lemma has_true_iff {V} (o : list (string * V)) (k : string) :
  JsObj.has k o = true <-> k ∈ JsObj.keys o.
Proof.
  rewrite elem_of_keys. unfold JsObj.has.
  destruct (JsObj.get k o) eqn:Hg.
  - split; [intros _|done].
    apply get_Some_elem_of in Hg. apply list_elem_of_fmap.
    by exists (k, v).
  - apply get_None_iff in Hg. split; [done|]. intros; by destruct Hg.
Qed.

Lemma build_changes_from_inv (tables : list string) (cm : ChangeLoadMap)
    (acc chs : gmap string (TableChanges Row)) :
  rfoldl (fun acc table =>
            match cm !! table with
            | Some tl => Ok (<[table := pulled_table tl]> acc)
            | None => Err TypeError
            end) acc tables = Ok chs ->
  forall t, chs !! t = if decide (t ∈ tables)
                       then pulled_table <$> cm !! t else acc !! t.
Proof.
  revert acc. induction tables as [|t' tables IH]; intros acc H t;
    cbn [rfoldl] in H.
  - injection H as ->. by rewrite decide_False by apply not_elem_of_nil.
  - destruct (cm !! t') as [tl|] eqn:Htl; [|done]. cbn [rbind] in H.
    rewrite (IH _ H t).
    destruct (decide (t ∈ tables)) as [Hin|Hnin].
    + by rewrite decide_True by (by right).
    + destruct (decide (t = t')) as [->|Hne].
      * rewrite decide_True by left. by rewrite lookup_insert_eq, Htl.
      * rewrite decide_False by (intros [?|?]%elem_of_cons; done).
        by rewrite lookup_insert_ne.
Qed.

Lemma build_changes_inv (tables : list string) (cm : ChangeLoadMap)
    (chs : gmap string (TableChanges Row)) :
  build_changes tables cm = Ok chs ->
  forall t, chs !! t = if decide (t ∈ tables)
                       then pulled_table <$> cm !! t else None.
Proof.
  intros H t. rewrite (build_changes_from_inv _ _ _ _ H t).
  by destruct (decide _).
Qed.

Lemma js_in_true_iff {V} (o : list (string * V)) (k : string) :
  js_in k o = true <-> k ∈ JsObj.keys o \/ k ∈ prototype_names.
Proof.
  unfold js_in, inherited.
  rewrite orb_true_iff, has_true_iff, bool_decide_eq_true. done.
Qed.

(** C7 (what the code does).  What a pull returns for a table is read off
    the final change map: [deleted] is the key list of the deleted map, and
    [updated] is the value list of the updated map without the rows for
    which [row.id in deleted] holds.  That test holds for the keys of the
    deleted map and also for every name inherited from Object.prototype.
    So no returned row carries a deleted id, and a row whose id is such a
    name is never returned, deleted or not. *)
Theorem pull_drops_inherited_ids (tables : list string) (baseDoc : DocRef)
    (pulledAt : option Z) (w w' : World) (res : SyncPullResult) :
  pullChanges tables baseDoc pulledAt w = (Ok res, w') ->
  exists cm,
    pull_loop
      (Z.to_nat ((revisionFromBaseSnap (store w !! baseDoc)).1
                 - default MIN_REVISION pulledAt))
      (store w) baseDoc tables
      (revisionFromBaseSnap (store w !! baseDoc)).2
      (revisionFromBaseSnap (store w !! baseDoc)).1
      (default MIN_REVISION pulledAt) (init_changeMap tables) = Ok cm
    /\ forall t tc,
         pulled res !! t = Some tc ->
         exists tl,
           cm !! t = Some tl
           /\ created tc = []
           /\ deleted tc = JsObj.keys (loadDeleted tl)
           /\ updated tc
              = List.filter
                  (fun row => bool_decide ((id row ∉ deleted tc)
                                           /\ (id row ∉ prototype_names)))
                  (JsObj.values (loadUpdated tl))
           /\ (forall row, row ∈ updated tc -> id row ∉ deleted tc)
           /\ (forall row, row ∈ updated tc -> id row ∉ prototype_names)
           /\ (forall k, k ∈ JsObj.keys (loadUpdated tl) ->
                         k ∈ JsObj.keys (loadDeleted tl) ->
                         k ∈ deleted tc
                         /\ forall row, row ∈ updated tc -> id row <> k).
Proof.
  unfold pullChanges. intros H.
  assert (match pulledAt with Some r => r | None => MIN_REVISION end
          = default MIN_REVISION pulledAt) as Hstart by (by destruct pulledAt).
  rewrite Hstart in H.
  destruct (pull_loop _ _ _ _ _ _ _ _) as [cm|e] eqn:Hloop; [|done].
  cbn [rbind] in H.
  destruct (build_changes tables cm) as [chs|e] eqn:Hbuild; [|done].
  cbn [rbind] in H. injection H as <- <-.
  exists cm. split; [done|]. intros t tc Htc. cbn [pulled] in Htc.
  rewrite (build_changes_inv _ _ _ Hbuild t) in Htc.
  destruct (decide (t ∈ tables)); [|done].
  destruct (cm !! t) as [tl|]; [|done]. injection Htc as <-.
  exists tl. split; [done|]. split; [done|]. split; [done|].
  assert (updated (pulled_table tl)
          = List.filter
              (fun row => bool_decide ((id row ∉ deleted (pulled_table tl))
                                       /\ (id row ∉ prototype_names)))
              (JsObj.values (loadUpdated tl))) as Hupd.
  { cbn [pulled_table updated deleted]. apply List.filter_ext. intros row.
    destruct (js_in (id row) (loadDeleted tl)) eqn:Hin; simpl.
    - apply js_in_true_iff in Hin. by rewrite bool_decide_eq_false_2 by tauto.
    - rewrite bool_decide_eq_true_2; [done|].
      split; intros Hk;
        (assert (js_in (id row) (loadDeleted tl) = true) as Hin'
           by (apply js_in_true_iff; tauto)); congruence. }
  assert (forall row, row ∈ updated (pulled_table tl) ->
                      (id row ∉ deleted (pulled_table tl))
                      /\ (id row ∉ prototype_names)) as Hoccl.
  { intros row. rewrite Hupd, list_elem_of_In, List.filter_In.
    intros [_ Hdec]. by apply bool_decide_eq_true_1 in Hdec. }
  split; [done|]. split; [intros row Hrow; by apply Hoccl|].
  split; [intros row Hrow; by apply Hoccl|].
  intros k _ Hk. split; [done|]. intros row Hrow Heq. subst k.
  destruct (Hoccl row Hrow) as [Hnd _]. by apply Hnd.
Qed.

Lemma pull_drops_inherited_ids_witness :
  let w := (pushChanges sample_env sample_base push_first
                        (empty_world [sample_row "constructor" "x"])).2 in
  exists res cm tl,
    pullChanges ["entries"%string] sample_base None w = (Ok res, w)
    /\ pull_loop 1 (store w) sample_base ["entries"%string] None 2 1
                 (init_changeMap ["entries"%string]) = Ok cm
    /\ cm !! "entries"%string = Some tl
    /\ JsObj.keys (loadUpdated tl) = ["constructor"%string]
    /\ JsObj.keys (loadDeleted tl) = []
    /\ pulled res !! "entries"%string
       = Some {| created := []; updated := []; deleted := [] |}.
Proof.
  intros w.
  destruct (pullChanges ["entries"%string] sample_base None w)
    as [r w'] eqn:Hpull.
  assert (exists res, r = Ok res /\ w' = w
                      /\ pulled res !! "entries"%string
                         = Some {| created := []; updated := [];
                                   deleted := [] |})
    as (res & -> & -> & Hres).
  { vm_compute in Hpull. injection Hpull as <- <-.
    eexists. split; [reflexivity|]. split; [reflexivity|].
    vm_compute. reflexivity. }
  destruct (pull_drops_inherited_ids _ _ _ _ _ _ Hpull)
    as (cm & Hloop & Hcm).
  destruct (Hcm _ _ Hres) as (tl & Htl & _).
  exists res, cm, tl. split; [reflexivity|]. split; [exact Hloop|].
  split; [exact Htl|].
  vm_compute in Hloop. injection Hloop as <-.
  vm_compute in Htl. injection Htl as <-.
  split; [reflexivity|]. split; [reflexivity|]. exact Hres.
Defined.

(** ** What a call does to the caller's objects *)

Lemma heap_kept_ret {A} (a : A) : heap_kept (ret a).
Proof. by intros w. Qed.

Lemma heap_kept_throw {A} (e : Error) : heap_kept (@throw A e).
Proof. by intros w. Qed.

Lemma heap_kept_lift {A} (r : Result A) : heap_kept (lift r).
Proof. by intros w. Qed.

Lemma heap_kept_bind {A B} (m : M A) (k : A -> M B) :
  heap_kept m -> (forall a, heap_kept (k a)) -> heap_kept (bind m k).
Proof.
  intros Hm Hk w. unfold bind. specialize (Hm w).
  destruct (m w) as [[a|e] w1]; simpl in *; [|done].
  by rewrite Hk.
Qed.

Lemma heap_kept_commit (b : WriteBatch) : heap_kept (commit_batch b).
Proof. intros w. unfold commit_batch. by destruct (committed b). Qed.

Create HintDb heap_kept.
#[export] Hint Resolve heap_kept_ret heap_kept_throw heap_kept_lift
  heap_kept_commit : heap_kept.

Ltac heap_kept :=
  repeat first
    [ apply heap_kept_bind; [|intros ?]
    | progress eauto with heap_kept
    | match goal with
      | |- heap_kept (if ?c then _ else _) => destruct c
      | |- heap_kept (match ?x with Some _ => _ | None => _ end) => destruct x
      end ].

Lemma heap_kept_flushBatch this : heap_kept (BatchWriter.flushBatch this).
Proof. unfold BatchWriter.flushBatch. heap_kept. Qed.

Lemma heap_kept_flushBatch_detached this :
  heap_kept (BatchWriter.flushBatch_detached this).
Proof.
  intros w. unfold BatchWriter.flushBatch_detached.
  pose proof (heap_kept_commit (BatchWriter.batch this) w) as H.
  by destruct (commit_batch _ w) as [[?|?] ?].
Qed.

#[export] Hint Resolve heap_kept_flushBatch heap_kept_flushBatch_detached
  : heap_kept.

Lemma heap_kept_write table rec this :
  heap_kept (BatchWriter.write table rec this).
Proof. unfold BatchWriter.write, BatchWriter.bumpCount. heap_kept. Qed.

Lemma heap_kept_deleted_blocks fuel restRefs iBlock this :
  heap_kept (BatchWriter.deleted_blocks fuel restRefs iBlock this).
Proof.
  revert iBlock this. induction fuel as [|fuel IH]; intros iBlock this;
    cbn [BatchWriter.deleted_blocks]; heap_kept.
Qed.

#[export] Hint Resolve heap_kept_write heap_kept_deleted_blocks : heap_kept.

Lemma heap_kept_deleted refs this : heap_kept (BatchWriter.deleted refs this).
Proof. unfold BatchWriter.deleted. heap_kept. Qed.

#[export] Hint Resolve heap_kept_deleted : heap_kept.

Lemma heap_kept_integrate env baseDoc batchDoc rev tokens pulledAt dels :
  heap_kept (integrate env baseDoc batchDoc rev tokens pulledAt dels).
Proof.
  intros w. unfold integrate.
  destruct (integrateFailure env); [done|]. by destruct (negb _).
Qed.

Lemma heap_kept_rollback_blocks fuel refs iBlock :
  heap_kept (rollback_blocks fuel refs iBlock).
Proof.
  revert iBlock. induction fuel as [|fuel IH]; intros iBlock;
    cbn [rollback_blocks]; heap_kept.
Qed.

#[export] Hint Resolve heap_kept_integrate heap_kept_rollback_blocks
  : heap_kept.

Lemma heap_kept_rollback batchDoc chs err :
  heap_kept (rollback batchDoc chs err).
Proof. unfold rollback. apply heap_kept_bind; [done|]. intros st. heap_kept. Qed.

(* removeWatermelonInternals on a caller's object, then a write of the result *)
Lemma strip_then_write_heap table l bw w :
  heap (bind (strip_in_place l)
             (fun rec => BatchWriter.write table rec bw) w).2
  = alter removeWatermelonInternals l (heap w).
Proof. unfold bind, strip_in_place. by rewrite heap_kept_write. Qed.

Lemma mfoldl_strip_heap {A} (f : A -> loc -> M A) (a a' : A)
    (ls : list loc) (w w' : World) :
  (forall a l w, heap (f a l w).2 = alter removeWatermelonInternals l (heap w)) ->
  mfoldl f a ls w = (Ok a', w') ->
  heap w' = strip_all (heap w) ls.
Proof.
  intros Hf. revert a w. induction ls as [|l ls IH]; intros a w H;
    cbn [mfoldl] in H.
  - by injection H as _ <-.
  - unfold bind in H. specialize (Hf a l w).
    destruct (f a l w) as [[a1|e] w1]; [|done].
    rewrite (IH _ _ H). simpl in Hf. by rewrite Hf.
Qed.

Lemma strip_all_app h ls1 ls2 :
  strip_all h (ls1 ++ ls2) = strip_all (strip_all h ls1) ls2.
Proof. apply foldl_app. Qed.

Lemma stage_table_heap delRefs acc entry w acc' w' :
  stage_table delRefs acc entry w = (Ok acc', w') ->
  heap w' = strip_all (heap w) (created entry.2 ++ updated entry.2).
Proof.
  unfold stage_table. intros H. unfold bind at 1 in H.
  destruct (mfoldl _ acc.1 (created entry.2) w) as [[bw1|e] w1] eqn:H1; [|done].
  unfold bind at 1 in H.
  destruct (mfoldl _ bw1 (updated entry.2) w1) as [[bw2|e] w2] eqn:H2; [|done].
  apply mfoldl_strip_heap in H1; [|intros; apply strip_then_write_heap].
  apply mfoldl_strip_heap in H2; [|intros; apply strip_then_write_heap].
  rewrite strip_all_app, <- H1, <- H2.
  destruct (delRefs !! entry.1) as [refs|].
  - unfold bind in H.
    pose proof (heap_kept_deleted (map ref refs) bw2 w2) as Hd.
    destruct (BatchWriter.deleted _ bw2 w2) as [[bw3|e] w3]; [|done].
    simpl in Hd. by injection H as _ <-.
  - destruct (inherited entry.1); [done|]. by injection H as _ <-.
Qed.

Lemma stage_tables_heap delRefs acc chs w acc' w' :
  mfoldl (stage_table delRefs) acc chs w = (Ok acc', w') ->
  heap w' = strip_all (heap w) (pushed_rows chs).
Proof.
  revert acc w. induction chs as [|entry chs IH]; intros acc w H;
    cbn [mfoldl] in H.
  - by injection H as _ <-.
  - unfold bind in H.
    destruct (stage_table delRefs acc entry w) as [[acc1|e] w1] eqn:H1; [|done].
    apply stage_table_heap in H1. rewrite (IH _ _ H).
    cbn [pushed_rows flat_map]. by rewrite strip_all_app, H1.
Qed.

Lemma stage_heap batchDoc rev chs delRefs w dels w' :
  stage batchDoc rev chs delRefs w = (Ok dels, w') ->
  heap w' = strip_all (heap w) (pushed_rows chs).
Proof.
  unfold stage. intros H. unfold bind at 1 in H.
  destruct (mfoldl _ _ chs w) as [[staged|e] w1] eqn:H1; [|done].
  apply stage_tables_heap in H1. unfold bind, BatchWriter.flush in H.
  pose proof (heap_kept_flushBatch staged.1 w1) as Hf.
  destruct (BatchWriter.flushBatch staged.1 w1) as [[?|?] w2]; [|done].
  simpl in Hf. injection H as _ <-. by rewrite Hf.
Qed.

Lemma removeWatermelonInternals_idemp (r : Row) :
  removeWatermelonInternals (removeWatermelonInternals r)
  = removeWatermelonInternals r.
Proof. done. Qed.

Lemma strip_all_lookup (h : list Row) (ls : list loc) (l : loc) :
  strip_all h ls !! l
  = if decide (l ∈ ls) then removeWatermelonInternals <$> h !! l else h !! l.
Proof.
  revert h. induction ls as [|l' ls IH]; intros h; cbn [strip_all foldl].
  - by rewrite decide_False by apply not_elem_of_nil.
  - fold (strip_all (alter removeWatermelonInternals l' h) ls). rewrite IH.
    destruct (decide (l = l')) as [->|Hne].
    + rewrite list_lookup_alter_eq, (decide_True (P := l' ∈ l' :: ls)) by left.
      destruct (decide (l' ∈ ls)); [|done].
      destruct (h !! l') as [r|]; [|done]. reflexivity.
    + rewrite list_lookup_alter_ne by done.
      destruct (decide (l ∈ ls)).
      * by rewrite decide_True by (by right).
      * by rewrite decide_False by (intros [?|?]%elem_of_cons; done).
Qed.



(** ** Rollback *)

Lemma js_slice_from_0_cons {A} (x : A) (l : list A) (e : Z) :
  0 < e ->
  exists l', js_slice (x :: l) 0 e = x :: l'.
Proof.
  intros He. unfold js_slice.
  destruct (Z.ltb_spec 0 0) as [?|_]; [lia|].
  destruct (Z.ltb_spec e 0) as [?|_]; [lia|].
  rewrite (Z.min_l 0) by lia. cbn [drop Z.to_nat].
  destruct (Z.to_nat (Z.min e (Z.of_nat (length (x :: l))) - 0)) eqn:Hn.
  - cbn [length] in Hn. lia.
  - eexists. reflexivity.
Qed.

Lemma rollback_refuses (batchDoc : DocRef) (chs : PushChangeSet)
    (err : Error) (w : World) :
  chs <> [] ->
  rollback batchDoc chs err w = (Err InvalidArgument, w).
Proof.
  intros Hne. unfold rollback, bind, get_store.
  destruct chs as [|entry chs]; [done|]. cbn [map length rollback_blocks].
  destruct (Z.ltb_spec (MAX_TRANSACTION_WRITES * 0)
              (Z.of_nat (S (length (map
                 (fun entry0 : string * TableChanges loc =>
                    map (fun d => doc (collection batchDoc entry0.1) d.1)
                        (collection_docs (store w)
                                         (collection batchDoc entry0.1)))
                 chs))) + MAX_TRANSACTION_WRITES)) as [_|Hge].
  2: { unfold MAX_TRANSACTION_WRITES in Hge. lia. }
  match goal with
  | |- context [js_slice (?x :: ?l) (0 * _) ?e] =>
      destruct (js_slice_from_0_cons x l e) as [l' Hl'];
        [unfold MAX_TRANSACTION_WRITES; lia|];
        change (0 * MAX_TRANSACTION_WRITES) with 0; rewrite Hl'
  end.
  reflexivity.
Qed.

(** C1 (what the code does).  On the side-batch path, once staging has gone
    through and the integrate transaction is rejected, the rollback hands
    whole arrays of references to [batch.delete]: the call is refused, not
    one staged document is deleted (the world is exactly the staged world)
    and the error that surfaces is not the integrate error. *)
Theorem rollback_leaves_staged_documents (env : Env) (baseDoc : DocRef)
    (params : SyncPushArgs) (delRefs : AllDeleteRefs) (w w1 : World)
    (dels : TableDeletes) (msg : string) :
  nextRevisionToWrite (store w) baseDoc = lastPulledAt params ->
  stage (doc (collection baseDoc BATCH_COLLECTION) (autoId env))
        (lastPulledAt params) (changes params) delRefs w = (Ok dels, w1) ->
  integrateFailure env = Some msg ->
  changes params <> [] ->
  pushBatchedChanges env baseDoc params delRefs w = (Err InvalidArgument, w1)
  /\ Err InvalidArgument <> @Err unit (RemoteError msg).
Proof.
  intros Hrev Hstage Hfail Hne. split; [|done].
  unfold pushBatchedChanges, bind, get_store.
  rewrite revisionFromBaseSnap_next, Hrev, Z.eqb_refl. cbn [negb].
  rewrite Hstage. unfold integrate. rewrite Hfail.
  by apply rollback_refuses.
Qed.

Lemma rollback_leaves_staged_documents_witness :
  let w := empty_world [sample_row "aaa" "hello"] in
  let batchDoc := sample_base ++ ["melonBatches"; "token1"]%string in
  let w1 := (stage batchDoc 1 (changes push_first) ∅ w).2 in
  pushBatchedChanges failing_env sample_base push_first ∅ w
  = (Err InvalidArgument, w1)
  /\ is_Some (store w1 !! (batchDoc ++ ["entries"; "aaa"]%string)).
Proof.
  intros w batchDoc w1. split.
  - apply (rollback_leaves_staged_documents failing_env sample_base push_first
             ∅ w w1 [] "unavailable").
    + vm_compute. reflexivity.
    + vm_compute. reflexivity.
    + reflexivity.
    + discriminate.
  - vm_compute. eexists. reflexivity.
Defined.

(** ** The batch writer *)

Lemma js_slice_nonneg {A} (l : list A) (s e : Z) :
  0 <= s <= e ->
  js_slice l s e = take (Z.to_nat (e - s)) (drop (Z.to_nat s) l).
Proof.
  intros Hse. unfold js_slice.
  destruct (Z.ltb_spec s 0) as [?|_]; [lia|].
  destruct (Z.ltb_spec e 0) as [?|_]; [lia|].
  destruct (Z.le_gt_cases (Z.of_nat (length l)) s) as [Hs|Hs].
  - rewrite !drop_ge by lia. by rewrite !take_nil.
  - rewrite (Z.min_l s) by lia.
    destruct (Z.le_gt_cases e (Z.of_nat (length l))) as [He|He].
    + by rewrite (Z.min_l e) by lia.
    + rewrite (Z.min_r e) by lia.
      rewrite !take_ge; [done| |]; rewrite length_drop; lia.
Qed.

Lemma queue_deletes_open (b : WriteBatch) (refs : list DocRef) :
  committed b = false ->
  BatchWriter.queue_deletes b refs
  = Ok {| writes := writes b ++ map WDelete refs; committed := false |}.
Proof.
  unfold BatchWriter.queue_deletes. revert b.
  induction refs as [|r refs IH]; intros [ws c] Hc; simpl in *; subst c.
  - by rewrite app_nil_r.
  - unfold batch_queue at 1. simpl. rewrite IH by done. simpl.
    by rewrite <- app_assoc.
Qed.

Lemma queue_deletes_committed (b : WriteBatch) (r : DocRef)
    (refs : list DocRef) :
  committed b = true ->
  BatchWriter.queue_deletes b (r :: refs) = Err BatchCommitted.
Proof.
  intros Hc. unfold BatchWriter.queue_deletes. simpl.
  unfold batch_queue. by rewrite Hc.
Qed.

Lemma deleted_blocks_unfold fuel restRefs iBlock this :
  BatchWriter.deleted_blocks (S fuel) restRefs iBlock this
  = if MAX_TRANSACTION_WRITES * iBlock
       <? Z.of_nat (length restRefs) + MAX_TRANSACTION_WRITES
    then
      let block :=
        js_slice restRefs (iBlock * MAX_TRANSACTION_WRITES)
                 ((iBlock + 1) * MAX_TRANSACTION_WRITES) in
      bind (lift (BatchWriter.queue_deletes (BatchWriter.batch this) block))
           (fun b =>
      let this1 :=
        BatchWriter.with_batch this b
          (BatchWriter.count this + Z.of_nat (length block)) in
      bind (if BatchWriter.count this1 =? MAX_TRANSACTION_WRITES
            then BatchWriter.flushBatch_detached this1 else ret this1)
           (fun this2 =>
      BatchWriter.deleted_blocks fuel restRefs (iBlock + 1) this2))
    else ret this.
Proof. reflexivity. Qed.

Lemma deleted_blocks_done fuel restRefs iBlock this w :
  Z.of_nat (length restRefs) + MAX_TRANSACTION_WRITES
  <= MAX_TRANSACTION_WRITES * iBlock ->
  BatchWriter.deleted_blocks fuel restRefs iBlock this w = (Ok this, w).
Proof.
  intros H. destruct fuel; cbn [BatchWriter.deleted_blocks];
    by destruct (Z.ltb_spec (MAX_TRANSACTION_WRITES * iBlock)
                   (Z.of_nat (length restRefs) + MAX_TRANSACTION_WRITES));
      [lia|].
Qed.

Lemma commit_batch_open (b : WriteBatch) (w : World) :
  committed b = false ->
  commit_batch b w
  = (Ok {| writes := writes b; committed := true |}, after_commit w (writes b)).
Proof. intros Hc. unfold commit_batch. by rewrite Hc. Qed.

Lemma commit_batch_committed (b : WriteBatch) (w : World) :
  committed b = true -> commit_batch b w = (Err BatchCommitted, w).
Proof. intros Hc. unfold commit_batch. by rewrite Hc. Qed.

(* the refs do not fit: the head fills the batch, the batch is flushed and
   the loop over the rest starts on a fresh batch *)
Lemma deleted_head (this : BatchWriter.t) (refs : list DocRef) (w : World) :
  committed (BatchWriter.batch this) = false ->
  0 <= BatchWriter.count this < MAX_TRANSACTION_WRITES ->
  MAX_TRANSACTION_WRITES - BatchWriter.count this <= Z.of_nat (length refs) ->
  let headCount := Z.to_nat (MAX_TRANSACTION_WRITES - BatchWriter.count this) in
  BatchWriter.deleted refs this w
  = BatchWriter.deleted_blocks
      (S (S (length (drop headCount refs)))) (drop headCount refs) 0
      (BatchWriter.with_batch this new_batch 0)
      (after_commit w (writes (BatchWriter.batch this)
                       ++ map WDelete (take headCount refs))).
Proof.
  intros Hopen Hcount Hlen headCount.
  unfold BatchWriter.deleted.
  rewrite Z.min_r by lia.
  rewrite !js_slice_nonneg by lia.
  rewrite Z.sub_0_r. cbn [Z.to_nat drop]. fold headCount.
  rewrite queue_deletes_open by done.
  unfold bind at 1, lift. cbn [BatchWriter.with_batch BatchWriter.count].
  replace (BatchWriter.count this
           + (MAX_TRANSACTION_WRITES - BatchWriter.count this))
    with MAX_TRANSACTION_WRITES by lia.
  rewrite Z.eqb_refl.
  rewrite (take_ge (drop headCount refs)) by (rewrite length_drop; lia).
  unfold bind at 1, BatchWriter.flushBatch, bind.
  rewrite commit_batch_open by done. reflexivity.
Qed.

(* the refs fit with room to spare: they are queued and nothing is flushed *)
Lemma deleted_fits (this : BatchWriter.t) (refs : list DocRef) (w : World) :
  committed (BatchWriter.batch this) = false ->
  BatchWriter.count this + Z.of_nat (length refs) < MAX_TRANSACTION_WRITES ->
  BatchWriter.deleted refs this w
  = (Ok (BatchWriter.with_batch this
           {| writes := writes (BatchWriter.batch this) ++ map WDelete refs;
              committed := false |}
           (BatchWriter.count this + Z.of_nat (length refs))), w).
Proof.
  intros Hopen Hlen. unfold BatchWriter.deleted.
  rewrite Z.min_l by lia.
  rewrite js_slice_nonneg by lia.
  rewrite Z.sub_0_r, Nat2Z.id. cbn [Z.to_nat drop]. rewrite firstn_all.
  rewrite queue_deletes_open by done.
  unfold bind, lift. cbn [BatchWriter.with_batch BatchWriter.count].
  destruct (Z.eqb_spec (BatchWriter.count this + Z.of_nat (length refs))
                       MAX_TRANSACTION_WRITES); [lia|done].
Qed.

Lemma block_slice {A} (l : list A) (iBlock : Z) :
  0 <= iBlock ->
  js_slice l (iBlock * MAX_TRANSACTION_WRITES)
           ((iBlock + 1) * MAX_TRANSACTION_WRITES)
  = take 500 (drop (Z.to_nat (iBlock * 500)) l).
Proof.
  intros Hi. unfold MAX_TRANSACTION_WRITES.
  rewrite js_slice_nonneg by lia. f_equal. lia.
Qed.

(* one turn of the loop that fills a whole batch: the batch is committed by
   the flushBatch that is not awaited, and the writer is left holding it *)
Lemma deleted_blocks_full (fuel : nat) (restRefs : list DocRef) (iBlock : Z)
    (this : BatchWriter.t) (w : World) :
  0 <= iBlock ->
  committed (BatchWriter.batch this) = false ->
  BatchWriter.count this = 0 ->
  (iBlock + 1) * 500 <= Z.of_nat (length restRefs) ->
  let block := take 500 (drop (Z.to_nat (iBlock * 500)) restRefs) in
  BatchWriter.deleted_blocks (S fuel) restRefs iBlock this w
  = BatchWriter.deleted_blocks fuel restRefs (iBlock + 1)
      (BatchWriter.with_batch this
         {| writes := writes (BatchWriter.batch this) ++ map WDelete block;
            committed := true |}
         MAX_TRANSACTION_WRITES)
      (after_commit w (writes (BatchWriter.batch this) ++ map WDelete block)).
Proof.
  intros Hi Hopen Hc Hlen block. rewrite deleted_blocks_unfold.
  destruct (Z.ltb_spec (MAX_TRANSACTION_WRITES * iBlock)
              (Z.of_nat (length restRefs) + MAX_TRANSACTION_WRITES)) as [_|Hge].
  2: { unfold MAX_TRANSACTION_WRITES in Hge. lia. }
  cbv zeta. rewrite block_slice by done. fold block.
  rewrite queue_deletes_open by done.
  assert (length block = 500%nat) as Hblock.
  { subst block. rewrite length_take, length_drop. lia. }
  unfold bind at 1, lift. rewrite Hblock, Hc.
  change (BatchWriter.count (BatchWriter.with_batch this _ (0 + Z.of_nat 500))
          =? MAX_TRANSACTION_WRITES) with true. cbv iota.
  unfold bind, BatchWriter.flushBatch_detached.
  rewrite commit_batch_open by done. reflexivity.
Qed.

(* a turn of the loop on a writer that holds a committed batch *)
Lemma deleted_blocks_on_committed (fuel : nat) (restRefs : list DocRef)
    (iBlock : Z) (this : BatchWriter.t) (w : World) :
  0 <= iBlock ->
  committed (BatchWriter.batch this) = true ->
  BatchWriter.count this = MAX_TRANSACTION_WRITES ->
  iBlock * 500 < Z.of_nat (length restRefs) + 500 ->
  BatchWriter.deleted_blocks (S fuel) restRefs iBlock this w
  = if bool_decide (iBlock * 500 < Z.of_nat (length restRefs))
    then (Err BatchCommitted, w)
    else BatchWriter.deleted_blocks fuel restRefs (iBlock + 1) this w.
Proof.
  intros Hi Hcm Hc Hcond. rewrite deleted_blocks_unfold.
  destruct (Z.ltb_spec (MAX_TRANSACTION_WRITES * iBlock)
              (Z.of_nat (length restRefs) + MAX_TRANSACTION_WRITES)) as [_|Hge].
  2: { unfold MAX_TRANSACTION_WRITES in Hge. lia. }
  cbv zeta. rewrite block_slice by done.
  destruct (drop (Z.to_nat (iBlock * 500)) restRefs) as [|r rs] eqn:Hdrop.
  - assert (length (drop (Z.to_nat (iBlock * 500)) restRefs) = 0%nat) as Hl
      by (by rewrite Hdrop).
    rewrite length_drop in Hl.
    rewrite bool_decide_eq_false_2 by lia.
    cbn [take BatchWriter.queue_deletes rfoldl length].
    unfold bind at 1, lift. rewrite Hc, Z.add_0_r.
    change (BatchWriter.count (BatchWriter.with_batch this _ _)
            =? MAX_TRANSACTION_WRITES) with true. cbv iota.
    unfold bind, BatchWriter.flushBatch_detached.
    rewrite commit_batch_committed by done.
    destruct this as [b c d rv]. simpl in *. by subst c.
  - assert (length (drop (Z.to_nat (iBlock * 500)) restRefs) <> 0%nat) as Hl
      by (by rewrite Hdrop).
    rewrite length_drop in Hl.
    rewrite bool_decide_eq_true_2 by lia.
    change (take 500 (r :: rs)) with (r :: take 499 rs).
    by rewrite queue_deletes_committed.
Qed.

(** C9 (what the code does).  [deleted] is handed at least a full batch more
    than fits in the current batch.  The head fills the current batch, which
    is flushed; the first full block is committed by a [flushBatch] that is
    not awaited, so the writer keeps the committed batch and its counter
    stays at 500.  Either the call ends there, with nothing open to carry on
    with, or the next block is queued on the committed batch and the call
    throws: no remainder is carried forward. *)
Theorem deleted_overflow (this : BatchWriter.t) (refs : list DocRef)
    (w : World) :
  committed (BatchWriter.batch this) = false ->
  0 <= BatchWriter.count this < MAX_TRANSACTION_WRITES ->
  MAX_TRANSACTION_WRITES - BatchWriter.count this + MAX_TRANSACTION_WRITES
  <= Z.of_nat (length refs) ->
  let headCount := Z.to_nat (MAX_TRANSACTION_WRITES - BatchWriter.count this) in
  let r := BatchWriter.deleted refs this w in
  commits r.2
  = commits w
    ++ [writes (BatchWriter.batch this) ++ map WDelete (take headCount refs);
        map WDelete (take 500 (drop headCount refs))]
  /\ match r.1 with
     | Ok this' =>
         Z.of_nat (length refs)
         = MAX_TRANSACTION_WRITES - BatchWriter.count this
           + MAX_TRANSACTION_WRITES
         /\ committed (BatchWriter.batch this') = true
         /\ BatchWriter.count this' = MAX_TRANSACTION_WRITES
     | Err e =>
         e = BatchCommitted
         /\ MAX_TRANSACTION_WRITES - BatchWriter.count this
            + MAX_TRANSACTION_WRITES < Z.of_nat (length refs)
     end.
Proof.
  intros Hopen Hcount Hlen headCount r. subst r.
  rewrite deleted_head by (done || lia). fold headCount.
  set (w1 := after_commit w _).
  assert (500 <= length (drop headCount refs))%nat as Hrestlen.
  { rewrite length_drop. unfold MAX_TRANSACTION_WRITES in *. lia. }
  rewrite deleted_blocks_full by (done || lia).
  change (Z.to_nat (0 * 500)) with 0%nat. cbn [drop].
  rewrite deleted_blocks_on_committed by (done || cbn; lia).
  change (writes (BatchWriter.batch (BatchWriter.with_batch this new_batch 0)))
    with (@nil Write). cbn [app].
  case_bool_decide as Hmore.
  - cbn [fst snd]. split; [|split; [done|]].
    + subst w1. cbn [after_commit commits]. by rewrite <- app_assoc.
    + rewrite length_drop in Hmore. subst headCount.
      unfold MAX_TRANSACTION_WRITES in *. lia.
  - rewrite deleted_blocks_done.
    2: { rewrite length_drop in Hmore |- *. subst headCount.
         unfold MAX_TRANSACTION_WRITES in *. lia. }
    cbn [fst snd]. split; [|split; [|done]].
    + subst w1. cbn [after_commit commits]. by rewrite <- app_assoc.
    + rewrite length_drop in Hmore. subst headCount.
      unfold MAX_TRANSACTION_WRITES in *. lia.
Qed.

Lemma deleted_overflow_witness :
  (BatchWriter.deleted (repeat sample_base 1200)
                       (BatchWriter.new sample_base 1) (empty_world [])).1
  = Err BatchCommitted.
Proof.
  destruct (deleted_overflow (BatchWriter.new sample_base 1)
                             (repeat sample_base 1200) (empty_world []))
    as [_ H].
  - reflexivity.
  - unfold MAX_TRANSACTION_WRITES. simpl. lia.
  - rewrite repeat_length. unfold MAX_TRANSACTION_WRITES. simpl. lia.
  - destruct (BatchWriter.deleted _ _ _).1 as [this'|e].
    + destruct H as [H _]. rewrite repeat_length in H.
      vm_compute in H. discriminate.
    + by destruct H as [-> _].
Defined.

(** ** Row ids *)

(* decoding what was never encoded: a row whose stored id does not decode
   stops the merge *)
Lemma merge_doc_undecodable (table : string) (cm : ChangeLoadMap)
    (tl : TableLoad) (storedData : Row) (e : Error) :
  cm !! table = Some tl ->
  decodeURIComponent (id storedData) = Err e ->
  merge_doc table cm storedData = Err e.
Proof. intros Htl Hdec. unfold merge_doc. rewrite Htl. simpl. by rewrite Hdec. Qed.

(** C5 (what the code does).  A row with id "100%" is pushed: its document
    key is the percent-encoding "100%25" and the stored [id] field is "100%".
    The pull then applies [decodeURIComponent] to the stored, never encoded
    id and throws a URIError instead of returning the row.  With the ids
    "a%20b" and "a b" both rows are stored, under different keys, and the
    pull returns one row only. *)
Theorem percent_id_breaks_pull :
  let w := empty_world [sample_row "100%" "x"] in
  let pushed := pushChanges sample_env sample_base push_first w in
  let w2 := empty_world [sample_row "a%20b" "x"; sample_row "a b" "y"] in
  let pushed2 := pushChanges sample_env sample_base push_two w2 in
  pushed.1 = Ok tt
  /\ (exists r, store pushed.2 !! (sample_base ++ ["entries"; "100%25"]%string)
                = Some (DRow r) /\ id r = "100%"%string)
  /\ (pullChanges ["entries"%string] sample_base None pushed.2).1 = Err URIError
  /\ pushed2.1 = Ok tt
  /\ (exists r1 r2,
        store pushed2.2 !! (sample_base ++ ["entries"; "a%2520b"]%string)
        = Some (DRow r1) /\ id r1 = "a%20b"%string
        /\ store pushed2.2 !! (sample_base ++ ["entries"; "a%20b"]%string)
           = Some (DRow r2) /\ id r2 = "a b"%string)
  /\ pulled_ids (pullChanges ["entries"%string] sample_base None pushed2.2).1
                "entries" = Ok ["a%20b"%string].
Proof.
  intros w pushed w2 pushed2.
  split; [by vm_compute|]. split.
  { eexists. split; [vm_compute; reflexivity|reflexivity]. }
  split; [by vm_compute|]. split; [by vm_compute|]. split.
  { eexists _, _. split; [vm_compute; reflexivity|].
    split; [reflexivity|]. split; [vm_compute; reflexivity|reflexivity]. }
  by vm_compute.
Qed.

(** ** Collections and queries *)

Lemma child_of_Some (coll : list string) (p : DocRef) (k : string) :
  child_of coll p = Some k <-> p = coll ++ [k].
Proof.
  unfold child_of. split.
  - destruct (last p) as [k'|]; [|done].
    case_decide as Hp; [|done]. by intros [= ->].
  - intros ->. rewrite last_snoc. by rewrite decide_True.
Qed.

Lemma elem_of_collection_docs (st : Store) (coll : list string)
    (k : string) (d : Doc) :
  (k, d) ∈ collection_docs st coll <-> st !! (coll ++ [k]) = Some d.
Proof.
  unfold collection_docs. rewrite isort_Permutation, list_elem_of_omap.
  split.
  - intros ([p d'] & Hin & Hf). simpl in Hf.
    destruct (child_of coll p) as [k'|] eqn:Hc; [|done].
    injection Hf as -> ->. apply child_of_Some in Hc as ->.
    by apply elem_of_map_to_list.
  - intros Hlk. exists (coll ++ [k], d). split.
    + by apply elem_of_map_to_list.
    + simpl. by rewrite (proj2 (child_of_Some coll (coll ++ [k]) k) eq_refl).
Qed.

Lemma NoDup_fst_omap {K K' A B : Type} (f : K * A -> option (K' * B))
    (l : list (K * A)) :
  (forall x x' y y', f x = Some y -> f x' = Some y' -> y.1 = y'.1 -> x.1 = x'.1) ->
  NoDup l.*1 -> NoDup (omap f l).*1.
Proof.
  intros Hinj. induction l as [|x l IH]; simpl; [constructor|].
  rewrite NoDup_cons. intros [Hx Hl].
  destruct (f x) as [y|] eqn:Hfx; [|by apply IH].
  simpl. apply NoDup_cons. split; [|by apply IH].
  intros Hy. apply list_elem_of_fmap in Hy as (y' & Hyy' & Hy').
  apply list_elem_of_omap in Hy' as (x' & Hx' & Hfx').
  apply Hx. rewrite (Hinj _ _ _ _ Hfx Hfx' Hyy').
  apply list_elem_of_fmap. by exists x'.
Qed.

Lemma NoDup_collection_docs (st : Store) (coll : list string) :
  NoDup (collection_docs st coll).*1.
Proof.
  unfold collection_docs. rewrite isort_Permutation.
  apply NoDup_fst_omap; [|apply NoDup_fst_map_to_list].
  intros [p d] [p' d'] y y' Hf Hf' Hyy'. simpl in *.
  destruct (child_of coll p) as [k|] eqn:Hc; [|done].
  destruct (child_of coll p') as [k'|] eqn:Hc'; [|done].
  injection Hf as <-. injection Hf' as <-. simpl in Hyy'. subst k'.
  apply child_of_Some in Hc, Hc'. congruence.
Qed.

Lemma in_revisions_Some (s e : Z) (kd : string * Doc) (k : string) (r : Row) :
  in_revisions s e kd = Some (k, r)
  <-> kd = (k, DRow r)
      /\ exists n, melonFireRevision r = Some n /\ s <= n < e.
Proof.
  unfold in_revisions. destruct kd as [k' d]. simpl. split.
  - destruct d as [r'| | |]; try done.
    destruct (melonFireRevision r') as [n|] eqn:Hn; [|done].
    destruct (Z.leb_spec s n); [|done]. destruct (Z.ltb_spec n e); [|done].
    simpl. intros [= -> ->]. split; [done|]. exists n. split; [done|lia].
  - intros [[= -> ->] (n & Hn & Hr)]. rewrite Hn.
    destruct (Z.leb_spec s n); [|lia]. destruct (Z.ltb_spec n e); [|lia].
    done.
Qed.

Lemma elem_of_query_revisions (st : Store) (coll : list string) (s e : Z)
    (k : string) (r : Row) :
  (k, r) ∈ query_revisions st coll s e
  <-> st !! (coll ++ [k]) = Some (DRow r)
      /\ exists n, melonFireRevision r = Some n /\ s <= n < e.
Proof.
  unfold query_revisions. rewrite isort_Permutation, list_elem_of_omap.
  split.
  - intros (kd & Hin & Hf). apply in_revisions_Some in Hf as [-> Hn].
    by apply elem_of_collection_docs in Hin.
  - intros [Hlk Hn]. exists (k, DRow r). split.
    + by apply elem_of_collection_docs.
    + by apply in_revisions_Some.
Qed.

Lemma NoDup_query_revisions (st : Store) (coll : list string) (s e : Z) :
  NoDup (query_revisions st coll s e).*1.
Proof.
  unfold query_revisions. rewrite isort_Permutation.
  apply NoDup_fst_omap; [|apply NoDup_collection_docs].
  intros [k d] [k' d'] [k1 r1] [k1' r1'] Hf Hf' Hyy'.
  apply in_revisions_Some in Hf as [[= -> ->] _].
  apply in_revisions_Some in Hf' as [[= -> ->] _]. done.
Qed.

Section SortedByKey.
Context {A : Type} (key : A -> Z).

Let le_key (a b : A) : Prop := key a <= key b.
Let leb_key (a b : A) : bool := key a <=? key b.

Lemma insert_sorted_by_key (x : A) (l : list A) :
  StronglySorted le_key l -> StronglySorted le_key (insert_sorted leb_key x l).
Proof.
  induction l as [|y l IH]; intros Hs; simpl.
  - repeat constructor.
  - apply StronglySorted_inv in Hs as [Hl Hy]. unfold leb_key at 1.
    destruct (Z.leb_spec (key x) (key y)) as [Hxy|Hxy].
    + constructor; [by constructor|]. constructor; [done|].
      eapply Forall_impl; [exact Hy|]. intros z Hz. unfold le_key in *. lia.
    + constructor; [by apply IH|].
      rewrite insert_sorted_Permutation. constructor; [|done].
      unfold le_key. lia.
Qed.

Lemma isort_by_key (l : list A) :
  StronglySorted le_key (isort leb_key l).
Proof.
  induction l as [|x l IH]; simpl; [constructor|].
  by apply insert_sorted_by_key.
Qed.
End SortedByKey.

Lemma query_revisions_sorted (st : Store) (coll : list string) (s e : Z) :
  StronglySorted (fun a b : string * Row => row_revision a.2 <= row_revision b.2)
                 (query_revisions st coll s e).
Proof. apply (isort_by_key (fun a : string * Row => row_revision a.2)). Qed.

Lemma get_set {V} (o : list (string * V)) (k k' : string) (v : V) :
  JsObj.get k (JsObj.set k' v o)
  = if decide (k = k') then Some v else JsObj.get k o.
Proof.
  induction o as [|[k1 v1] o IH]; simpl.
  - destruct (String.eqb_spec k k'); by case_decide.
  - destruct (String.eqb_spec k' k1) as [->|Hne1]; simpl.
    + destruct (String.eqb_spec k k1); by case_decide.
    + rewrite IH. destruct (String.eqb_spec k k1) as [->|]; [|done].
      by rewrite decide_False by done.
Qed.

(** ** The merge helper *)

Lemma merge_docs_get (t : string) (rows : list Row) (cm cm' : ChangeLoadMap)
    (tl : TableLoad) :
  rfoldl (merge_doc t) cm rows = Ok cm' ->
  cm !! t = Some tl ->
  exists tl',
    cm' !! t = Some tl'
    /\ loadDeleted tl' = loadDeleted tl
    /\ (forall t', t' <> t -> cm' !! t' = cm !! t')
    /\ forall k, JsObj.get k (loadUpdated tl')
                 = last_for_key k (JsObj.get k (loadUpdated tl)) rows.
Proof.
  revert cm tl. induction rows as [|r rows IH]; intros cm tl H Htl;
    cbn [rfoldl] in H.
  - injection H as <-. exists tl. done.
  - unfold merge_doc at 1 in H. rewrite Htl in H.
    change (id (removeMelonFields (removeWatermelonInternals r)))
      with (id r) in H.
    destruct (decodeURIComponent (id r)) as [key|e] eqn:Hdec; [|done].
    cbn [rbind] in H.
    destruct (IH _ _ H (lookup_insert_eq _ _ _))
      as (tl' & Htl' & Hdel & Hother & Hget).
    exists tl'. split; [done|]. split; [done|]. split.
    + intros t' Hne. rewrite Hother by done. by rewrite lookup_insert_ne.
    + intros k. rewrite Hget. cbn [loadUpdated last_for_key foldl].
      rewrite get_set, Hdec. unfold stripped.
      destruct (decide (k = key)) as [->|Hne].
      * by rewrite decide_True.
      * rewrite decide_False; [done|]. by intros [= ->].
Qed.

Lemma last_for_key_absent (k : string) (before : option Row)
    (rows : list Row) :
  Forall (fun r => decodeURIComponent (id r) <> Ok k) rows ->
  last_for_key k before rows = before.
Proof.
  revert before. induction rows as [|r rows IH]; intros before Hall;
    [done|].
  apply Forall_cons in Hall as [Hr Hall]. cbn [last_for_key foldl].
  rewrite decide_False by done. by apply IH.
Qed.

Lemma last_for_key_app (k : string) (before : option Row)
    (rows1 rows2 : list Row) :
  last_for_key k before (rows1 ++ rows2)
  = last_for_key k (last_for_key k before rows1) rows2.
Proof. apply foldl_app. Qed.

(* in a list ordered by revision, the document with the strictly highest
   revision among those of its key is the last of them *)
Lemma last_for_key_highest (L : list (string * Row)) (dk k : string)
    (r : Row) (before : option Row) :
  StronglySorted (fun a b : string * Row => row_revision a.2 <= row_revision b.2) L ->
  NoDup L.*1 ->
  (dk, r) ∈ L ->
  decodeURIComponent (id r) = Ok k ->
  (forall dk' r', (dk', r') ∈ L -> dk' <> dk ->
                  decodeURIComponent (id r') = Ok k ->
                  row_revision r' < row_revision r) ->
  last_for_key k before L.*2 = Some (stripped r).
Proof.
  intros Hsorted Hnodup Hin Hdec Hhigh.
  apply list_elem_of_split in Hin as (L1 & L2 & ->).
  rewrite fmap_app, fmap_cons, last_for_key_app. cbn [snd].
  change (last_for_key k (last_for_key k before L1.*2) (r :: L2.*2))
    with (last_for_key k
            (if decide (decodeURIComponent (id r) = Ok k)
             then Some (stripped r) else last_for_key k before L1.*2)
            L2.*2).
  rewrite decide_True by done. apply last_for_key_absent.
  apply Forall_fmap, Forall_forall. intros [dk' r'] Hin' Hdec'. simpl in *.
  apply StronglySorted_app in Hsorted as (_ & _ & Hsorted).
  apply StronglySorted_inv in Hsorted as [_ Hle].
  rewrite Forall_forall in Hle. specialize (Hle _ Hin'). simpl in Hle.
  assert (dk' <> dk) as Hne.
  { intros ->. rewrite fmap_app, fmap_cons in Hnodup.
    apply NoDup_app in Hnodup as (_ & _ & Hnodup).
    apply NoDup_cons in Hnodup as [Hnotin _]. apply Hnotin.
    apply list_elem_of_fmap. by exists (dk, r'). }
  assert (row_revision r' < row_revision r); [|lia].
  apply (Hhigh dk' r'); [|done|done].
  apply elem_of_app. right. by right.
Qed.

Lemma last_for_key_origin (k : string) (before : option Row)
    (rows : list Row) (v : Row) :
  last_for_key k before rows = Some v ->
  before = Some v
  \/ exists r', r' ∈ rows /\ decodeURIComponent (id r') = Ok k /\ v = stripped r'.
Proof.
  revert before. induction rows as [|r rows IH]; intros before H; [by left|].
  cbn [last_for_key foldl] in H. apply IH in H as [H|(r' & Hin & Hdec & ->)].
  - case_decide as Hdec; [|by left].
    injection H as <-. right. exists r. split; [left|done].
  - right. exists r'. split; [by right|done].
Qed.

Section MergeOneKey.
Context (st : Store) (root : DocRef) (s e : Z) (t : string) (tl : TableLoad).
Context (dk : string) (r : Row) (n : Z) (k : string).
Hypothesis Hdoc : st !! doc (collection root t) dk = Some (DRow r).
Hypothesis Hrev : melonFireRevision r = Some n.
Hypothesis Hrange : s <= n < e.
Hypothesis Hkey : decodeURIComponent (id r) = Ok k.
Hypothesis Hhighest :
  forall dk' r' n',
    dk' <> dk ->
    st !! doc (collection root t) dk' = Some (DRow r') ->
    melonFireRevision r' = Some n' -> s <= n' < e ->
    decodeURIComponent (id r') = Ok k -> n' < n.

Lemma merge_same_table (cm cm1 : ChangeLoadMap) (tl0 : TableLoad) :
  cm !! t = Some tl0 -> merged_from st root s e t tl tl0 ->
  rfoldl (merge_doc t) cm (query_revisions st (collection root t) s e).*2
  = Ok cm1 ->
  exists tl', cm1 !! t = Some tl' /\ merged_from st root s e t tl tl'
              /\ JsObj.get k (loadUpdated tl') = Some (stripped r).
Proof.
  intros Htl0 [Hdel0 Hfrom0] H.
  destruct (merge_docs_get _ _ _ _ _ H Htl0) as (tl' & Htl' & Hdel & _ & Hget).
  exists tl'. split; [done|]. split; [split|].
  - congruence.
  - intros k' v Hv. rewrite Hget in Hv.
    apply last_for_key_origin in Hv as [Hv|(r' & Hin & Hdec & ->)].
    + by apply Hfrom0.
    + right. apply list_elem_of_fmap in Hin as ([dk' r''] & -> & Hin).
      apply elem_of_query_revisions in Hin as (Hlk & n' & Hn' & Hr').
      by exists dk', r'', n'.
  - rewrite Hget.
    apply (last_for_key_highest _ dk); [apply query_revisions_sorted
                                       |apply NoDup_query_revisions| |done|].
    + apply elem_of_query_revisions. split; [done|]. by exists n.
    + intros dk' r' Hin Hne Hdec.
      apply elem_of_query_revisions in Hin as (Hlk & n' & Hn' & Hr').
      unfold row_revision. rewrite Hn', Hrev. simpl.
      by apply (Hhighest dk' r' n').
Qed.

Lemma merge_tables_inv (tables : list string) (cm cm' : ChangeLoadMap)
    (tl0 : TableLoad) :
  mergeCreatesAndUpdates st root s e tables cm = Ok cm' ->
  cm !! t = Some tl0 -> merged_from st root s e t tl tl0 ->
  t ∈ tables \/ JsObj.get k (loadUpdated tl0) = Some (stripped r) ->
  exists tl', cm' !! t = Some tl' /\ merged_from st root s e t tl tl'
              /\ JsObj.get k (loadUpdated tl') = Some (stripped r).
Proof.
  unfold mergeCreatesAndUpdates.
  revert cm tl0. induction tables as [|t1 tables IH];
    intros cm tl0 H Htl0 Hfrom0 Hor; cbn [rfoldl] in H.
  - injection H as <-. destruct Hor as [Hin|Hget].
    + by apply elem_of_nil in Hin.
    + by exists tl0.
  - destruct (rfoldl (merge_doc t1) cm _) as [cm1|err] eqn:H1; [|done].
    cbn [rbind] in H. destruct (decide (t1 = t)) as [->|Hne].
    + destruct (merge_same_table _ _ _ Htl0 Hfrom0 H1)
        as (tl1 & Htl1 & Hfrom1 & Hget1).
      apply (IH _ _ H Htl1 Hfrom1). by right.
    + assert (cm1 !! t = Some tl0) as Htl1.
      { destruct (cm !! t1) as [tl1|] eqn:Ht1.
        - destruct (merge_docs_get _ _ _ _ _ H1 Ht1) as (_ & _ & _ & Ho & _).
          rewrite Ho; done.
        - destruct (map snd (query_revisions st (collection root t1) s e))
            as [|r1 rows]; cbn [rfoldl] in H1.
          + by injection H1 as <-.
          + unfold merge_doc at 1 in H1. by rewrite Ht1 in H1. }
      apply (IH _ _ H Htl1 Hfrom0).
      destruct Hor as [Hin|Hget]; [left|by right].
      apply elem_of_cons in Hin as [->|Hin]; done.
Qed.

End MergeOneKey.

(** C6.  The merge helper, for a requested table: the documents of the table
    with [melonFireRevision] in [[start, end)] are taken in ascending order of
    revision; each is stripped of [_status], [_changed], [melonFireChange] and
    [melonFireRevision] and overwrites the entry of its decoded id.  So an
    entry of the updated map is an earlier entry or a stripped document of the
    range, and for a key written at several revisions of the range the
    document of the highest revision is the one kept. *)
Theorem merge_highest_revision_wins (st : Store) (root : DocRef) (s e : Z)
    (tables : list string) (cm cm' : ChangeLoadMap) (t : string)
    (tl : TableLoad) (dk : string) (r : Row) (n : Z) (k : string) :
  mergeCreatesAndUpdates st root s e tables cm = Ok cm' ->
  t ∈ tables ->
  cm !! t = Some tl ->
  st !! doc (collection root t) dk = Some (DRow r) ->
  melonFireRevision r = Some n ->
  s <= n < e ->
  decodeURIComponent (id r) = Ok k ->
  (forall dk' r' n',
     dk' <> dk ->
     st !! doc (collection root t) dk' = Some (DRow r') ->
     melonFireRevision r' = Some n' -> s <= n' < e ->
     decodeURIComponent (id r') = Ok k -> n' < n) ->
  exists tl',
    cm' !! t = Some tl'
    /\ JsObj.get k (loadUpdated tl') = Some (stripped r)
    /\ (_status (stripped r) = None /\ _changed (stripped r) = None
        /\ melonFireChange (stripped r) = None
        /\ melonFireRevision (stripped r) = None)
    /\ loadDeleted tl' = loadDeleted tl
    /\ forall k' v,
         JsObj.get k' (loadUpdated tl') = Some v ->
         JsObj.get k' (loadUpdated tl) = Some v
         \/ exists dk' r' n',
              st !! doc (collection root t) dk' = Some (DRow r')
              /\ melonFireRevision r' = Some n' /\ s <= n' < e
              /\ decodeURIComponent (id r') = Ok k' /\ v = stripped r'.
Proof.
  intros Hmerge Hin Htl Hdoc Hrev Hrange Hkey Hhighest.
  destruct (merge_tables_inv st root s e t tl dk r n k Hdoc Hrev Hrange Hkey
              Hhighest tables cm cm' tl Hmerge Htl)
    as (tl' & Htl' & [Hdel Hfrom] & Hget).
  - split; [done|]. intros k' v Hv. by left.
  - by left.
  - exists tl'. split; [done|]. split; [done|]. split; [done|].
    split; [done|]. exact Hfrom.
Qed.

Lemma merge_highest_revision_wins_witness :
  exists cm' tl',
    mergeCreatesAndUpdates rewritten_store sample_base 1 3 ["entries"%string]
                           (init_changeMap ["entries"%string]) = Ok cm'
    /\ cm' !! "entries"%string = Some tl'
    /\ JsObj.get "a b" (loadUpdated tl') = Some (stripped row_rev2).
Proof.
  destruct (mergeCreatesAndUpdates rewritten_store sample_base 1 3
              ["entries"%string] (init_changeMap ["entries"%string]))
    as [cm'|err] eqn:Hm; [|vm_compute in Hm; discriminate].
  destruct (merge_highest_revision_wins rewritten_store sample_base 1 3
              ["entries"%string] (init_changeMap ["entries"%string]) cm'
              "entries" {| loadUpdated := []; loadDeleted := [] |}
              "a%2520b" row_rev2 2 "a b" Hm)
    as (tl' & Htl' & Hget & _).
  - left.
  - vm_compute. reflexivity.
  - vm_compute. reflexivity.
  - reflexivity.
  - lia.
  - vm_compute. reflexivity.
  - intros dk' r' n' Hne Hlk Hn' _ _.
    apply elem_of_collection_docs in Hlk. vm_compute in Hlk.
    apply elem_of_cons in Hlk as [Heq|Hlk].
    + injection Heq as -> ->. vm_compute in Hn'. injection Hn' as <-. lia.
    + apply elem_of_cons in Hlk as [Heq|Hlk].
      * injection Heq as -> _. destruct Hne. reflexivity.
      * apply elem_of_nil in Hlk. destruct Hlk.
  - exists cm', tl'. split; [reflexivity|]. split; [exact Htl'|exact Hget].
Defined.

(** ** The id codec *)

Lemma decode_escape (c : ascii) (s : string) :
  decodeURIComponent (escape c +:+ s)
  = rbind (decodeURIComponent s) (fun r => Ok (String c r)).
Proof. destruct c as [[] [] [] [] [] [] [] []]; reflexivity. Qed.

Lemma unreserved_not_percent (c : ascii) :
  unreserved c = true -> Ascii.eqb c "%" = false.
Proof. destruct c as [[] [] [] [] [] [] [] []]; by intros. Qed.

Lemma decode_encode (s : string) :
  decodeURIComponent (encodeURIComponent s) = Ok s.
Proof.
  induction s as [|c s IH]; [done|]. cbn [encodeURIComponent].
  destruct (unreserved c) eqn:Hc.
  - cbn [decodeURIComponent]. rewrite (unreserved_not_percent _ Hc).
    by rewrite IH.
  - by rewrite decode_escape, IH.
Qed.

Lemma encode_inj (s1 s2 : string) :
  encodeURIComponent s1 = encodeURIComponent s2 -> s1 = s2.
Proof.
  intros H. assert (Ok s1 = Ok s2) as [= ->]; [|done].
  by rewrite <- !decode_encode, H.
Qed.

(** ** Writes, path by path *)

Lemma apply_writes_lookup (st : Store) (ws : list Write) (p : DocRef) :
  apply_writes st ws !! p = foldl (write_effect p) (st !! p) ws.
Proof.
  unfold apply_writes. revert st. induction ws as [|w ws IH]; intros st;
    [done|].
  cbn [foldl]. rewrite IH. f_equal. unfold write_effect.
  destruct w as [q d|q rev date tokens|q]; cbn [write_target apply_write];
    case_decide as Hq.
  - subst. by rewrite lookup_insert_eq.
  - by rewrite lookup_insert_ne.
  - subst. by rewrite lookup_insert_eq.
  - by rewrite lookup_insert_ne.
  - subst. by rewrite lookup_delete_eq.
  - by rewrite lookup_delete_ne.
Qed.

Lemma write_effect_skip (p : DocRef) (cur : option Doc) (ws : list Write) :
  Forall (fun w => write_target w <> p) ws ->
  foldl (write_effect p) cur ws = cur.
Proof.
  revert cur. induction ws as [|w ws IH]; intros cur Hall; [done|].
  apply Forall_cons in Hall as [Hw Hall]. cbn [foldl].
  unfold write_effect at 2. rewrite decide_False by done. by apply IH.
Qed.

(** ** Paths *)

Lemma doc_collection (base : DocRef) (t k : string) :
  doc (collection base t) k = base ++ [t; k].
Proof. unfold doc, collection. by rewrite <- app_assoc. Qed.

Lemma batch_table_doc (base : DocRef) (tok t k : string) :
  doc (collection (doc (collection base BATCH_COLLECTION) tok) t) k
  = base ++ [BATCH_COLLECTION; tok; t; k].
Proof. unfold doc, collection. by rewrite <- !app_assoc. Qed.

Lemma of_table_inj (base : DocRef) (t t' : string) (p : DocRef) :
  of_table base t p -> of_table base t' p -> t = t'.
Proof.
  intros [(k & ->)|(b & k & ->)] [(k' & H)|(b' & k' & H)];
    apply app_inv_head in H; by injection H.
Qed.

(** ** Delete reference discovery *)

Lemma existing_refs_app (st : Store) (ps1 ps2 : list DocRef) :
  existing_refs st (ps1 ++ ps2) = existing_refs st ps1 ++ existing_refs st ps2.
Proof. apply omap_app. Qed.

Lemma findDeleteRefs_table_lookup (st : Store) (base : DocRef)
    (acc : AllDeleteRefs) (e : string * TableChanges loc) (t : string) :
  acc !! e.1 = None ->
  findDeleteRefs_table st base acc e !! t
  = if decide (t = e.1)
    then match existing_refs st (delete_candidates st base e.1 (deleted e.2)) with
         | [] => None
         | refs => Some refs
         end
    else acc !! t.
Proof.
  intros Hacc. unfold findDeleteRefs_table, delete_candidates.
  rewrite existing_refs_app.
  set (baseExists := existing_refs st (map _ (deleted e.2))).
  set (batchExists := existing_refs st (flat_map _ (deleted e.2))).
  destruct baseExists as [|r1 rs1]; destruct batchExists as [|r2 rs2];
    cbn [app].
  - case_decide; by subst.
  - rewrite Hacc. case_decide; subst.
    + by rewrite lookup_insert_eq.
    + by rewrite lookup_insert_ne.
  - rewrite app_nil_r. case_decide; subst.
    + by rewrite lookup_insert_eq.
    + by rewrite lookup_insert_ne.
  - rewrite lookup_insert_eq. case_decide; subst.
    + by rewrite lookup_insert_eq.
    + by rewrite !lookup_insert_ne.
Qed.

Lemma discovered_from (st : Store) (base : DocRef) (chs : PushChangeSet)
    (acc : AllDeleteRefs) (t : string) :
  NoDup chs.*1 ->
  (forall t', t' ∈ chs.*1 -> acc !! t' = None) ->
  foldl (findDeleteRefs_table st base) acc chs !! t
  = match list_find (fun e : string * TableChanges loc => e.1 = t) chs with
    | Some (_, e) =>
        match existing_refs st (delete_candidates st base t (deleted e.2)) with
        | [] => None
        | refs => Some refs
        end
    | None => acc !! t
    end.
Proof.
  revert acc. induction chs as [|e chs IH]; intros acc Hnd Hacc; [done|].
  cbn [foldl]. rewrite fmap_cons in Hnd. apply NoDup_cons in Hnd as [He Hnd].
  rewrite IH; [|done|].
  2: { intros t' Ht'. rewrite findDeleteRefs_table_lookup.
       - rewrite decide_False by (intros ->; done).
         apply Hacc. rewrite fmap_cons. by right.
       - apply Hacc. rewrite fmap_cons. left. }
  cbn [list_find]. destruct (decide (e.1 = t)) as [<-|Hne].
  - cbn [fmap option_fmap option_map].
    destruct (list_find _ chs) as [[i e']|] eqn:Hfind.
    + apply list_find_Some in Hfind as (Hi & He' & _).
      destruct He. rewrite <- He'. apply list_elem_of_fmap.
      exists e'. split; [done|]. by eapply list_elem_of_lookup_2.
    + rewrite findDeleteRefs_table_lookup, decide_True; [done..|].
      apply Hacc. rewrite fmap_cons. left.
  - destruct (list_find _ chs) as [[i e']|] eqn:Hfind; cbn; [done|].
    rewrite findDeleteRefs_table_lookup, decide_False; [done|congruence|].
    apply Hacc. rewrite fmap_cons. left.
Qed.

Lemma NoDup_fst_unique {K A} (l : list (K * A)) (k : K) (a1 a2 : A) :
  NoDup l.*1 -> (k, a1) ∈ l -> (k, a2) ∈ l -> a1 = a2.
Proof.
  induction l as [|[k' a'] l IH]; intros Hnd H1 H2.
  - by apply elem_of_nil in H1.
  - rewrite fmap_cons in Hnd. apply NoDup_cons in Hnd as [Hk Hnd].
    assert (forall a, (k, a) ∈ l -> k ∈ l.*1) as Hfst.
    { intros a Ha. apply list_elem_of_fmap. by exists (k, a). }
    apply elem_of_cons in H1 as [H1|H1];
      apply elem_of_cons in H2 as [H2|H2].
    + congruence.
    + injection H1 as <- <-. destruct Hk. by apply (Hfst a2).
    + injection H2 as <- <-. destruct Hk. by apply (Hfst a1).
    + by apply IH.
Qed.

Lemma discovered_lookup_in (st : Store) (base : DocRef) (chs : PushChangeSet)
    (t : string) (ch : TableChanges loc) :
  NoDup chs.*1 -> (t, ch) ∈ chs ->
  discovered st base chs !! t
  = match refs_of st base t ch with [] => None | refs => Some refs end.
Proof.
  intros Hnd Hin. unfold discovered. rewrite discovered_from; [|done|done].
  destruct (list_find _ chs) as [[i e']|] eqn:Hfind.
  - apply list_find_Some in Hfind as (Hi & He' & _).
    assert (e' = (t, ch)) as ->; [|done].
    apply list_elem_of_lookup_2 in Hi.
    destruct e' as [t' ch']. simpl in He'. subst t'.
    f_equal. by eapply NoDup_fst_unique.
  - apply list_find_None in Hfind. rewrite Forall_forall in Hfind.
    by destruct (Hfind _ Hin).
Qed.

Lemma discovered_lookup_notin (st : Store) (base : DocRef)
    (chs : PushChangeSet) (t : string) :
  NoDup chs.*1 -> t ∉ chs.*1 -> discovered st base chs !! t = None.
Proof.
  intros Hnd Hnin. unfold discovered. rewrite discovered_from; [|done|done].
  destruct (list_find _ chs) as [[i e']|] eqn:Hfind; [|done].
  apply list_find_Some in Hfind as (Hi & He' & _). destruct Hnin.
  rewrite <- He'. apply list_elem_of_fmap. exists e'. split; [done|].
  by eapply list_elem_of_lookup_2.
Qed.

Lemma elem_of_existing_refs (st : Store) (ps : list DocRef) (r : DeleteRef) :
  r ∈ existing_refs st ps
  <-> ref r ∈ ps
      /\ exists d, st !! ref r = Some d
                   /\ encodedId r = encodeURIComponent (data_id d).
Proof.
  unfold existing_refs. rewrite list_elem_of_omap. split.
  - intros (p & Hp & Hf). destruct (st !! p) as [d|] eqn:Hd; [|done].
    injection Hf as <-. simpl. split; [done|]. by exists d.
  - intros (Hp & d & Hd & Henc). exists (ref r). split; [done|].
    rewrite Hd. destruct r as [p i]. simpl in *. by subst.
Qed.

Lemma delete_candidates_of_table (st : Store) (base : DocRef) (t : string)
    (ids : list string) (p : DocRef) :
  p ∈ delete_candidates st base t ids -> of_table base t p.
Proof.
  unfold delete_candidates. rewrite elem_of_app. intros [Hp|Hp].
  - apply list_elem_of_fmap in Hp as (i & -> & _). left.
    eexists. apply doc_collection.
  - apply list_elem_of_In, in_flat_map in Hp as (i & _ & Hp).
    apply list_elem_of_In, list_elem_of_fmap in Hp as (b & -> & _). right.
    eexists _, _. apply batch_table_doc.
Qed.

Lemma elem_of_delete_candidates (st : Store) (base : DocRef) (t : string)
    (ids : list string) (p : DocRef) :
  p ∈ delete_candidates st base t ids
  <-> exists i,
        i ∈ ids
        /\ (p = doc (collection base t) (encodeURIComponent i)
            \/ exists b d,
                 st !! doc (collection base BATCH_COLLECTION) b = Some d
                 /\ p = doc (collection
                               (doc (collection base BATCH_COLLECTION) b) t)
                            (encodeURIComponent i)).
Proof.
  unfold delete_candidates. rewrite elem_of_app. split.
  - intros [Hp|Hp].
    + apply list_elem_of_fmap in Hp as (i & -> & Hi). exists i.
      split; [done|by left].
    + apply list_elem_of_In, in_flat_map in Hp as (i & Hi & Hp).
      apply list_elem_of_In in Hi.
      apply list_elem_of_In, list_elem_of_fmap in Hp as ([b d] & -> & Hb).
      apply elem_of_collection_docs in Hb.
      exists i. split; [done|]. right. by exists b, d.
  - intros (i & Hi & [->|(b & d & Hb & ->)]).
    + left. apply list_elem_of_fmap. by exists i.
    + right. apply list_elem_of_In, in_flat_map. exists i.
      split; [by apply list_elem_of_In|].
      apply list_elem_of_In, list_elem_of_fmap. exists (b, d).
      split; [done|]. by apply elem_of_collection_docs.
Qed.

Lemma candidates_of_id (st : Store) (base : DocRef) (t : string)
    (ids : list string) (p : DocRef) :
  p ∈ delete_candidates st base t ids
  <-> exists i, i ∈ ids /\ p ∈ delete_candidates st base t [i].
Proof.
  rewrite elem_of_delete_candidates. split.
  - intros (i & Hi & Hp). exists i. split; [done|].
    apply elem_of_delete_candidates. exists i. split; [left|done].
  - intros (i & Hi & Hp).
    apply elem_of_delete_candidates in Hp as (i' & Hi' & Hp).
    apply list_elem_of_singleton in Hi'. subst i'. by exists i.
Qed.

Lemma found_ids_keyed (st : Store) (base : DocRef) (chs : PushChangeSet)
    (t : string) (ch : TableChanges loc) (k : string) :
  keyed_by_id st base chs -> (t, ch) ∈ chs ->
  k ∈ found_ids st base t (deleted ch)
  <-> k ∈ deleted ch /\ has_document st base t k.
Proof.
  intros Hkeyed Hch. unfold found_ids. rewrite list_elem_of_omap. split.
  - intros (p & Hp & Hf). destruct (st !! p) as [d|] eqn:Hd; [|done].
    injection Hf as <-. apply candidates_of_id in Hp as (i & Hi & Hp).
    rewrite (Hkeyed t ch i p d Hch Hi Hp Hd). split; [done|].
    exists p. split; [done|]. by eexists.
  - intros (Hk & p & Hp & [d Hd]). exists p. split.
    + apply candidates_of_id. by exists k.
    + rewrite Hd. cbn. f_equal. by apply (Hkeyed t ch k p d).
Qed.

Lemma found_ids_refs (st : Store) (base : DocRef) (t : string)
    (ch : TableChanges loc) (k : string) :
  k ∈ found_ids st base t (deleted ch)
  <-> exists r, r ∈ refs_of st base t ch
                /\ decodeURIComponent (encodedId r) = Ok k.
Proof.
  unfold found_ids, refs_of. rewrite list_elem_of_omap. split.
  - intros (p & Hp & Hf). destruct (st !! p) as [d|] eqn:Hd; [|done].
    injection Hf as <-.
    exists {| ref := p; encodedId := encodeURIComponent (data_id d) |}.
    split; [|apply decode_encode].
    apply elem_of_existing_refs. simpl. split; [done|]. by exists d.
  - intros (r & Hr & Hdec).
    apply elem_of_existing_refs in Hr as (Hp & d & Hd & Henc).
    exists (ref r). split; [done|]. rewrite Hd. simpl. f_equal.
    rewrite Henc, decode_encode in Hdec. by injection Hdec.
Qed.

(** ** The writes of the inline path *)

Lemma pushAll_tables_spec (h : list Row) (base : DocRef) (rev : Z)
    (delRefs : AllDeleteRefs) (chs : PushChangeSet)
    (acc : list Write * TableDeletes) :
  rfoldl (pushAll_table h base rev delRefs) acc chs
  = if existsb (throwing delRefs) chs then Err TypeError
    else Ok (acc.1 ++ flat_map (table_writes base h rev delRefs) chs,
             deletes_map delRefs chs acc.2).
Proof.
  revert acc. induction chs as [|e chs IH]; intros [ws td];
    cbn [rfoldl existsb].
  - cbn. by rewrite app_nil_r.
  - unfold pushAll_table at 1, throwing at 1.
    cbn [flat_map deletes_map foldl fst snd].
    unfold table_writes at 1, table_sets, table_dels, pushed.
    rewrite !map_app, !map_map.
    destruct (delRefs !! e.1) as [refs|]; [|destruct (inherited e.1)];
      cbn [rbind orb]; [|done|]; rewrite IH; cbn [fst snd];
      destruct (existsb _ chs); try done;
      by rewrite <- ?app_assoc, ?app_nil_r.
Qed.

Lemma pushAll_writes_spec (env : Env) (h : list Row) (base : DocRef)
    (rev : Z) (chs : PushChangeSet) (delRefs : AllDeleteRefs) :
  pushAll_writes env h base rev chs delRefs
  = if existsb (throwing delRefs) chs then Err TypeError
    else Ok (flat_map (table_writes base h rev delRefs) chs
             ++ inline_tail env base rev (deletes_map delRefs chs [])).
Proof.
  unfold pushAll_writes. rewrite pushAll_tables_spec.
  by destruct (existsb _ chs).
Qed.

(** ** What the writes of one table do to one document *)

Lemma write_effect_app (p : DocRef) (cur : option Doc) (ws1 ws2 : list Write) :
  foldl (write_effect p) cur (ws1 ++ ws2)
  = foldl (write_effect p) (foldl (write_effect p) cur ws1) ws2.
Proof. apply foldl_app. Qed.

Lemma table_writes_of_table (target base : DocRef) (h : list Row) (rev : Z)
    (st : Store) (chs : PushChangeSet) (e : string * TableChanges loc) :
  (forall k, of_table base e.1 (doc (collection target e.1) k)) ->
  NoDup chs.*1 -> e ∈ chs ->
  Forall (fun w => of_table base e.1 (write_target w))
         (table_writes target h rev (discovered st base chs) e).
Proof.
  intros Htarget Hnd He. unfold table_writes. apply Forall_app. split.
  - unfold table_sets. apply Forall_fmap, Forall_forall. intros raw _.
    apply Htarget.
  - unfold table_dels. destruct e as [t ch].
    rewrite (discovered_lookup_in _ _ _ _ _ Hnd He). cbn [fst].
    destruct (refs_of st base t ch) as [|r0 refs0] eqn:Hrefs; [constructor|].
    rewrite <- Hrefs. apply Forall_fmap, Forall_forall. intros r Hr.
    apply elem_of_existing_refs in Hr as (Hr & _).
    by apply delete_candidates_of_table in Hr.
Qed.

Lemma root_of_table (base : DocRef) (t k : string) :
  of_table base t (doc (collection base t) k).
Proof. left. eexists. apply doc_collection. Qed.

Lemma batch_of_table (base : DocRef) (tok t k : string) :
  of_table base t
    (doc (collection (doc (collection base BATCH_COLLECTION) tok) t) k).
Proof. right. eexists _, _. apply batch_table_doc. Qed.

(* the writes of the other tables leave a document of table [t] alone *)
Lemma tables_effect (target base : DocRef) (h : list Row) (rev : Z)
    (st : Store) (chs : PushChangeSet) (t : string) (p : DocRef)
    (cur : option Doc) :
  (forall t' k, of_table base t' (doc (collection target t') k)) ->
  NoDup chs.*1 ->
  of_table base t p ->
  foldl (write_effect p) cur
        (flat_map (table_writes target h rev (discovered st base chs)) chs)
  = match list_find (fun e : string * TableChanges loc => e.1 = t) chs with
    | Some (_, e) =>
        foldl (write_effect p) cur
              (table_writes target h rev (discovered st base chs) e)
    | None => cur
    end.
Proof.
  intros Htarget Hnd Hp.
  assert (forall e, e ∈ chs -> e.1 <> t ->
            Forall (fun w => write_target w <> p)
                   (table_writes target h rev (discovered st base chs) e))
    as Hother.
  { intros e He Hne.
    eapply Forall_impl; [by apply table_writes_of_table|].
    intros w Hw Heq. subst p. apply Hne.
    exact (of_table_inj base e.1 t (write_target w) Hw Hp). }
  clear Htarget. revert cur Hother.
  generalize (discovered st base chs) as delRefs. intros delRefs.
  induction chs as [|e chs IH]; intros cur Hother; [done|].
  rewrite fmap_cons in Hnd. apply NoDup_cons in Hnd as [He Hnd].
  cbn [flat_map list_find]. rewrite write_effect_app.
  destruct (decide (e.1 = t)) as [Heq|Hne].
  - cbn. rewrite IH; [|done|]. 
    2: { intros e' He' Hne'. apply Hother; [by right|done]. }
    destruct (list_find _ chs) as [[i e']|] eqn:Hfind; [|done].
    apply list_find_Some in Hfind as (Hi & He' & _). destruct He.
    rewrite Heq, <- He'. apply list_elem_of_fmap. exists e'. split; [done|].
    by eapply list_elem_of_lookup_2.
  - rewrite (write_effect_skip p cur) by (apply Hother; [left|done]).
    rewrite IH; [|done|].
    2: { intros e' He' Hne'. apply Hother; [by right|done]. }
    by destruct (list_find _ chs) as [[i e']|].
Qed.

Lemma last_row_at_snoc (dk : string) (rows : list Row) (x : Row) :
  last_row_at dk (rows ++ [x])
  = if decide (encodeURIComponent (id x) = dk) then Some x
    else last_row_at dk rows.
Proof. unfold last_row_at. by rewrite foldl_app. Qed.

(* the rows of a table, written in turn *)
Lemma sets_effect (under : DocRef) (t dk : string) (rev : Z)
    (rows : list Row) (cur : option Doc) :
  foldl (write_effect (doc (collection under t) dk)) cur
        (map (fun raw => WSet (doc (collection under t)
                                   (encodeURIComponent (id raw)))
                              (DRow (stored rev raw))) rows)
  = match last_row_at dk rows with
    | Some raw => Some (DRow (stored rev raw))
    | None => cur
    end.
Proof.
  induction rows as [|x rows IH] using rev_ind; [done|].
  rewrite map_app, write_effect_app, last_row_at_snoc, IH. cbn [map foldl].
  unfold write_effect. cbn [write_target].
  destruct (decide (encodeURIComponent (id x) = dk)) as [<-|Hne].
  - by rewrite decide_True.
  - rewrite decide_False; [done|]. unfold doc. intros Heq.
    apply app_inv_head in Heq. by injection Heq.
Qed.

Lemma last_row_at_None (dk : string) (rows : list Row) :
  last_row_at dk rows = None
  <-> Forall (fun raw => encodeURIComponent (id raw) <> dk) rows.
Proof.
  induction rows as [|x rows IH] using rev_ind.
  - split; [constructor|done].
  - rewrite last_row_at_snoc, Forall_app, Forall_singleton.
    case_decide; [|tauto]. split; [done|]. by intros [_ ?].
Qed.

Lemma last_row_at_Some (dk : string) (rows : list Row) (raw : Row) :
  last_row_at dk rows = Some raw
  <-> last_of_id rows raw /\ encodeURIComponent (id raw) = dk.
Proof.
  induction rows as [|x rows IH] using rev_ind.
  - split; [done|]. intros [(rows1 & rows2 & H & _) _].
    by destruct rows1.
  - rewrite last_row_at_snoc. case_decide as Hx.
    + split.
      * intros [= ->]. split; [|done]. exists rows, [].
        split; [done|apply not_elem_of_nil].
      * intros [(rows1 & rows2 & Heq & Hlast) Hdk].
        destruct rows2 as [|y rows2 _] using rev_ind.
        -- apply app_inj_tail in Heq as [_ ->]. done.
        -- rewrite app_comm_cons, app_assoc in Heq.
           apply app_inj_tail in Heq as [_ ->]. destruct Hlast.
           rewrite map_app, elem_of_app. right. cbn.
           apply list_elem_of_singleton, encode_inj. congruence.
    + rewrite IH. split.
      * intros [(rows1 & rows2 & -> & Hlast) Hdk]. split; [|done].
        exists rows1, (rows2 ++ [x]). split; [by rewrite <- app_assoc|].
        rewrite map_app, not_elem_of_app. split; [done|]. cbn.
        rewrite not_elem_of_cons. split; [|apply not_elem_of_nil].
        intros Heq. apply Hx. by rewrite <- Heq.
      * intros [(rows1 & rows2 & Heq & Hlast) Hdk]. split; [|done].
        destruct rows2 as [|y rows2 _] using rev_ind.
        -- apply app_inj_tail in Heq as [_ ->]. done.
        -- rewrite app_comm_cons, app_assoc in Heq.
           apply app_inj_tail in Heq as [-> ->].
           exists rows1, rows2. split; [done|].
           rewrite map_app, not_elem_of_app in Hlast. tauto.
Qed.

Lemma dels_effect (p : DocRef) (cur : option Doc) (refs : list DocRef) :
  foldl (write_effect p) cur (map WDelete refs)
  = if decide (p ∈ refs) then None else cur.
Proof.
  revert cur. induction refs as [|q refs IH]; intros cur; cbn [map foldl].
  - by rewrite decide_False by apply not_elem_of_nil.
  - rewrite IH. unfold write_effect. cbn [write_target].
    destruct (decide (q = p)) as [->|Hne].
    + rewrite (decide_True (P := p ∈ p :: refs)) by left.
      by destruct (decide (p ∈ refs)).
    + destruct (decide (p ∈ refs)).
      * by rewrite decide_True by (by right).
      * by rewrite decide_False by (intros [?|?]%elem_of_cons; done).
Qed.

Lemma table_writes_effect (under : DocRef) (h : list Row) (rev : Z)
    (delRefs : AllDeleteRefs) (e : string * TableChanges loc) (dk : string)
    (cur : option Doc) :
  foldl (write_effect (doc (collection under e.1) dk)) cur
        (table_writes under h rev delRefs e)
  = if decide (doc (collection under e.1) dk
               ∈ map ref (default [] (delRefs !! e.1)))
    then None
    else match last_row_at dk (pushed h e.2) with
         | Some raw => Some (DRow (stored rev raw))
         | None => cur
         end.
Proof.
  unfold table_writes, table_sets, table_dels.
  rewrite write_effect_app, sets_effect.
  destruct (delRefs !! e.1) as [refs|]; cbn [default].
  - by rewrite <- dels_effect, map_map.
  - by rewrite decide_False by apply not_elem_of_nil.
Qed.

(** ** Staging through the batch writer *)

Lemma apply_writes_app (st : Store) (ws1 ws2 : list Write) :
  apply_writes st (ws1 ++ ws2) = apply_writes (apply_writes st ws1) ws2.
Proof. apply foldl_app. Qed.

Lemma write_staging (st0 : Store) (h0 : list Row) (done : list Write)
    (bw : BatchWriter.t) (w : World) (t : string) (rec : Row) :
  staging st0 h0 done bw w ->
  exists bw' w',
    BatchWriter.write t rec bw w = (Ok bw', w')
    /\ staging st0 h0
         (done ++ [WSet (doc (collection (BatchWriter.bdoc bw) t)
                             (encodeURIComponent (id rec)))
                        (DRow (withRevision rec (BatchWriter.brevision bw)))])
         bw' w'
    /\ BatchWriter.bdoc bw' = BatchWriter.bdoc bw
    /\ BatchWriter.brevision bw' = BatchWriter.brevision bw
    /\ heap w' = heap w.
Proof.
  intros (Hopen & Hcount & Hvirt & Hheap).
  unfold BatchWriter.write, bind, lift, batch_queue. rewrite Hopen.
  unfold BatchWriter.bumpCount.
  cbn [BatchWriter.with_batch BatchWriter.count BatchWriter.batch].
  destruct (Z.eqb_spec (BatchWriter.count bw + 1) MAX_TRANSACTION_WRITES)
    as [Hfull|Hroom].
  - unfold BatchWriter.flushBatch, bind.
    cbn [BatchWriter.with_batch BatchWriter.count BatchWriter.batch].
    rewrite commit_batch_open by done. cbn [writes ret].
    eexists _, _. split; [reflexivity|]. split; [|done].
    split; [done|]. split; [unfold MAX_TRANSACTION_WRITES; cbn; lia|].
    split; [|done]. cbn. by rewrite !apply_writes_app, Hvirt.
  - eexists _, _. split; [reflexivity|]. split; [|done].
    split; [done|]. split; [cbn; lia|]. split; [|done].
    cbn. by rewrite !apply_writes_app, Hvirt.
Qed.

Lemma deref_alter_same (h : list Row) (l : loc) :
  deref (alter removeWatermelonInternals l h) l
  = removeWatermelonInternals (deref h l).
Proof.
  unfold deref. rewrite list_lookup_alter_eq. by destruct (h !! l).
Qed.

Lemma deref_alter_other (h : list Row) (l l' : loc) :
  l <> l' ->
  deref (alter removeWatermelonInternals l h) l' = deref h l'.
Proof. intros Hne. unfold deref. by rewrite list_lookup_alter_ne. Qed.

(* one row: removeWatermelonInternals in place, then a write *)
Lemma row_staging (st0 : Store) (h0 : list Row) (done : list Write)
    (bw : BatchWriter.t) (w : World) (t : string) (l : loc) :
  staging st0 h0 done bw w ->
  exists bw' w',
    bind (strip_in_place l) (fun rec => BatchWriter.write t rec bw) w
    = (Ok bw', w')
    /\ staging st0 h0
         (done ++ [WSet (doc (collection (BatchWriter.bdoc bw) t)
                             (encodeURIComponent (id (deref h0 l))))
                        (DRow (stored (BatchWriter.brevision bw) (deref h0 l)))])
         bw' w'
    /\ BatchWriter.bdoc bw' = BatchWriter.bdoc bw
    /\ BatchWriter.brevision bw' = BatchWriter.brevision bw.
Proof.
  intros Hst. unfold bind at 1, strip_in_place.
  set (w1 := {| store := store w;
                heap := alter removeWatermelonInternals l (heap w);
                commits := commits w |}).
  assert (staging st0 h0 done bw w1) as Hst1.
  { destruct Hst as (Hopen & Hcount & Hvirt & Hheap).
    split; [done|]. split; [done|]. split; [done|]. intros l'. cbn [heap w1].
    destruct (decide (l = l')) as [<-|Hne].
    - by rewrite deref_alter_same, removeWatermelonInternals_idemp.
    - by rewrite deref_alter_other. }
  destruct (write_staging _ _ _ _ _ t (deref (heap w1) l) Hst1)
    as (bw' & w' & Hw & Hst' & Hdoc & Hrev & _).
  exists bw', w'. split; [exact Hw|]. split; [|done].
  destruct Hst as (_ & _ & _ & Hheap).
  cbn [heap w1] in Hst'. rewrite deref_alter_same in Hst'.
  assert (id (removeWatermelonInternals (deref (heap w) l))
          = id (deref h0 l)) as Hid.
  { by rewrite Hheap. }
  rewrite Hid in Hst'.
  assert (withRevision (removeWatermelonInternals (deref (heap w) l))
                       (BatchWriter.brevision bw)
          = stored (BatchWriter.brevision bw) (deref h0 l)) as Hstored.
  { unfold stored. by rewrite Hheap. }
  by rewrite Hstored in Hst'.
Qed.

Lemma rows_staging (st0 : Store) (h0 : list Row) (t : string)
    (ls : list loc) (done : list Write) (bw : BatchWriter.t) (w : World) :
  staging st0 h0 done bw w ->
  exists bw' w',
    mfoldl (fun bw l =>
              bind (strip_in_place l) (fun rec => BatchWriter.write t rec bw))
           bw ls w = (Ok bw', w')
    /\ staging st0 h0
         (done ++ map (fun raw =>
                         WSet (doc (collection (BatchWriter.bdoc bw) t)
                                   (encodeURIComponent (id raw)))
                              (DRow (stored (BatchWriter.brevision bw) raw)))
                      (map (deref h0) ls))
         bw' w'
    /\ BatchWriter.bdoc bw' = BatchWriter.bdoc bw
    /\ BatchWriter.brevision bw' = BatchWriter.brevision bw.
Proof.
  revert done bw w. induction ls as [|l ls IH]; intros done bw w Hst.
  - exists bw, w. cbn. by rewrite app_nil_r.
  - cbn [mfoldl]. unfold bind at 1.
    destruct (row_staging _ _ _ _ _ t l Hst)
      as (bw1 & w1 & -> & Hst1 & Hdoc1 & Hrev1).
    destruct (IH _ _ _ Hst1) as (bw' & w' & -> & Hst' & Hdoc' & Hrev').
    exists bw', w'. split; [done|]. rewrite Hdoc1, Hrev1 in Hst'.
    cbn [map]. rewrite <- app_assoc in Hst'. split; [exact Hst'|].
    split; congruence.
Qed.

(* the loop over the rest when the rest is less than a batch *)
Lemma deleted_blocks_partial (restRefs : list DocRef) (bw : BatchWriter.t)
    (w : World) :
  committed (BatchWriter.batch bw) = false ->
  BatchWriter.count bw = 0 ->
  Z.of_nat (length restRefs) < MAX_TRANSACTION_WRITES ->
  BatchWriter.deleted_blocks (S (S (length restRefs))) restRefs 0 bw w
  = (Ok (BatchWriter.with_batch bw
           {| writes := writes (BatchWriter.batch bw) ++ map WDelete restRefs;
              committed := false |}
           (Z.of_nat (length restRefs))), w).
Proof.
  intros Hopen Hc Hlen. rewrite deleted_blocks_unfold.
  destruct (Z.ltb_spec (MAX_TRANSACTION_WRITES * 0)
              (Z.of_nat (length restRefs) + MAX_TRANSACTION_WRITES)) as [_|Hge].
  2: { unfold MAX_TRANSACTION_WRITES in Hge. lia. }
  cbv zeta. rewrite block_slice by done.
  change (Z.to_nat (0 * 500)) with 0%nat. rewrite drop_0.
  rewrite take_ge by (unfold MAX_TRANSACTION_WRITES in Hlen; lia).
  rewrite queue_deletes_open by done. unfold bind at 1, lift.
  rewrite Hc, Z.add_0_l.
  cbn [BatchWriter.with_batch BatchWriter.count].
  destruct (Z.eqb_spec (Z.of_nat (length restRefs)) MAX_TRANSACTION_WRITES)
    as [?|_]; [lia|].
  unfold bind at 1, ret.
  destruct restRefs as [|r0 rs] eqn:Hrs.
  { rewrite deleted_blocks_done; [done|].
    unfold MAX_TRANSACTION_WRITES. cbn. lia. }
  rewrite <- Hrs in *. clear Hrs.
  rewrite deleted_blocks_unfold.
  destruct (Z.ltb_spec (MAX_TRANSACTION_WRITES * (0 + 1))
              (Z.of_nat (length restRefs) + MAX_TRANSACTION_WRITES)) as [_|Hge].
  - cbv zeta. rewrite block_slice by lia.
    rewrite (drop_ge restRefs)
      by (unfold MAX_TRANSACTION_WRITES in Hlen; lia).
    cbn [take BatchWriter.queue_deletes rfoldl length].
    unfold bind at 1, lift.
    cbn [BatchWriter.with_batch BatchWriter.count BatchWriter.batch].
    rewrite Z.add_0_r.
    destruct (Z.eqb_spec (Z.of_nat (length restRefs)) MAX_TRANSACTION_WRITES)
      as [?|_]; [lia|].
    unfold bind, ret. rewrite deleted_blocks_done; [done|].
    unfold MAX_TRANSACTION_WRITES in *. lia.
  - done.
Qed.

Lemma deleted_staging (st0 : Store) (h0 : list Row) (done : list Write)
    (bw : BatchWriter.t) (w : World) (refs : list DocRef) :
  staging st0 h0 done bw w ->
  (exists bw' w',
     BatchWriter.deleted refs bw w = (Ok bw', w')
     /\ (stuck bw'
         \/ (staging st0 h0 (done ++ map WDelete refs) bw' w'
             /\ BatchWriter.bdoc bw' = BatchWriter.bdoc bw
             /\ BatchWriter.brevision bw' = BatchWriter.brevision bw)))
  \/ (exists e w', BatchWriter.deleted refs bw w = (Err e, w')).
Proof.
  intros (Hopen & Hcount & Hvirt & Hheap).
  destruct (Z.lt_ge_cases (BatchWriter.count bw + Z.of_nat (length refs))
                          MAX_TRANSACTION_WRITES) as [Hfits|Hfull].
  { left. rewrite deleted_fits by done. eexists _, _. split; [done|]. right.
    split; [|done]. split; [done|]. split; [cbn; lia|]. split; [|done].
    cbn. by rewrite !apply_writes_app, Hvirt. }
  rewrite deleted_head by (done || lia).
  set (headCount := Z.to_nat (MAX_TRANSACTION_WRITES - BatchWriter.count bw)).
  set (w1 := after_commit w _).
  assert (apply_writes (store w1) (map WDelete (drop headCount refs))
          = apply_writes st0 (done ++ map WDelete refs)) as Hvirt1.
  { subst w1. cbn [after_commit store].
    rewrite <- !apply_writes_app, <- app_assoc, <- map_app, take_drop.
    by rewrite !apply_writes_app, Hvirt. }
  destruct (Z.lt_ge_cases (Z.of_nat (length (drop headCount refs)))
                          MAX_TRANSACTION_WRITES) as [Hsmall|Hbig].
  - left. rewrite deleted_blocks_partial by done.
    eexists _, _. split; [done|]. right. split; [|done].
    split; [done|]. split; [cbn; lia|]. split; [exact Hvirt1|done].
  - unfold MAX_TRANSACTION_WRITES in Hbig.
    rewrite deleted_blocks_full by (done || lia).
    rewrite deleted_blocks_on_committed by (done || cbn; lia).
    case_bool_decide.
    + right. by eexists _, _.
    + left. rewrite deleted_blocks_done by (unfold MAX_TRANSACTION_WRITES; lia).
      eexists _, _. split; [done|]. left. by split.
Qed.

Lemma stuck_write (bw : BatchWriter.t) (t : string) (rec : Row) (w : World) :
  stuck bw -> BatchWriter.write t rec bw w = (Err BatchCommitted, w).
Proof.
  intros [Hc _]. unfold BatchWriter.write, bind, lift, batch_queue.
  by rewrite Hc.
Qed.

Lemma stuck_deleted (bw : BatchWriter.t) (refs : list DocRef) (w : World) :
  stuck bw -> BatchWriter.deleted refs bw w = (Err BatchCommitted, w).
Proof.
  intros [Hc Hn]. unfold BatchWriter.deleted.
  rewrite Hn, Z.sub_diag, Z.min_r by lia.
  rewrite (js_slice_nonneg refs 0 0) by lia.
  change (Z.to_nat (0 - 0)) with 0%nat. rewrite take_0.
  cbn [BatchWriter.queue_deletes rfoldl]. unfold bind at 1, lift.
  cbn [BatchWriter.with_batch BatchWriter.count]. rewrite Z.add_0_r.
  rewrite Z.eqb_refl. unfold bind, BatchWriter.flushBatch, bind.
  cbn [BatchWriter.with_batch BatchWriter.batch].
  by rewrite commit_batch_committed.
Qed.

Lemma stuck_flush (bw : BatchWriter.t) (w : World) :
  stuck bw -> BatchWriter.flush bw w = (Err BatchCommitted, w).
Proof.
  intros [Hc _]. unfold BatchWriter.flush, BatchWriter.flushBatch, bind.
  by rewrite commit_batch_committed.
Qed.

Lemma stuck_rows (t : string) (ls : list loc) (bw bw' : BatchWriter.t)
    (w w' : World) :
  stuck bw ->
  mfoldl (fun bw l =>
            bind (strip_in_place l) (fun rec => BatchWriter.write t rec bw))
         bw ls w = (Ok bw', w') ->
  bw' = bw.
Proof.
  intros Hstuck H. destruct ls as [|l ls]; cbn [mfoldl] in H.
  - by injection H as <- _.
  - unfold bind at 1 2, strip_in_place in H.
    by rewrite stuck_write in H.
Qed.

Lemma stage_table_step (st0 : Store) (h0 : list Row) (batchDoc : DocRef)
    (rev : Z) (delRefs : AllDeleteRefs) (done : list Write)
    (bw bw' : BatchWriter.t) (td td' : TableDeletes)
    (e : string * TableChanges loc) (w w' : World) :
  staged_so_far st0 h0 batchDoc rev done bw w ->
  stage_table delRefs (bw, td) e w = (Ok (bw', td'), w') ->
  staged_so_far st0 h0 batchDoc rev
                (done ++ table_writes batchDoc h0 rev delRefs e) bw' w'
  /\ td' = match delRefs !! e.1 with
           | Some refs => JsObj.set e.1 (map encodedId refs) td
           | None => td
           end.
Proof.
  intros Hso H. unfold stage_table in H. cbn [fst snd] in H.
  unfold bind at 1 in H.
  destruct (mfoldl _ bw (created e.2) w) as [[bw1|err] w1] eqn:H1; [|done].
  unfold bind at 1 in H.
  destruct (mfoldl _ bw1 (updated e.2) w1) as [[bw2|err] w2] eqn:H2; [|done].
  destruct Hso as [Hstuck|(Hst & Hdoc & Hrev)].
  - (* nothing can have been written *)
    apply (stuck_rows _ _ _ _ _ _ Hstuck) in H1 as ->.
    apply (stuck_rows _ _ _ _ _ _ Hstuck) in H2 as ->.
    destruct (delRefs !! e.1) as [refs|].
    + unfold bind in H. by rewrite stuck_deleted in H.
    + destruct (inherited e.1); [done|].
      injection H as <- <- _. split; [by left|done].
  - destruct (rows_staging _ _ e.1 (created e.2) _ _ _ Hst)
      as (bw1' & w1' & H1' & Hst1 & Hdoc1 & Hrev1).
    unfold BatchWriter.created in H1. rewrite H1' in H1.
    injection H1 as <- <-.
    destruct (rows_staging _ _ e.1 (updated e.2) _ _ _ Hst1)
      as (bw2' & w2' & H2' & Hst2 & Hdoc2 & Hrev2).
    unfold BatchWriter.updated in H2. rewrite H2' in H2.
    injection H2 as <- <-.
    rewrite Hdoc1, Hrev1, Hdoc, Hrev, <- app_assoc, <- map_app, <- map_app
      in Hst2.
    unfold table_writes, table_sets, table_dels, pushed.
    destruct (delRefs !! e.1) as [refs|].
    + unfold bind in H.
      destruct (deleted_staging _ _ _ _ _ (map ref refs) Hst2)
        as [(bw3 & w3 & Hd & Hcase)|(err & w3 & Hd)]; rewrite Hd in H;
        [|done].
      injection H as <- <- <-. split; [|done].
      destruct Hcase as [Hstuck|(Hst3 & Hdoc3 & Hrev3)]; [by left|].
      right. rewrite (map_map ref WDelete), <- app_assoc in Hst3.
      split; [exact Hst3|]. split; congruence.
    + destruct (inherited e.1); [done|].
      injection H as <- <- <-. split; [|done]. right.
      rewrite app_nil_r. split; [exact Hst2|]. split; congruence.
Qed.

Lemma stage_tables_steps (st0 : Store) (h0 : list Row) (batchDoc : DocRef)
    (rev : Z) (delRefs : AllDeleteRefs) (chs : PushChangeSet)
    (done : list Write) (bw bw' : BatchWriter.t) (td td' : TableDeletes)
    (w w' : World) :
  staged_so_far st0 h0 batchDoc rev done bw w ->
  mfoldl (stage_table delRefs) (bw, td) chs w = (Ok (bw', td'), w') ->
  staged_so_far st0 h0 batchDoc rev
                (done ++ flat_map (table_writes batchDoc h0 rev delRefs) chs)
                bw' w'
  /\ td' = deletes_map delRefs chs td.
Proof.
  revert done bw td w. induction chs as [|e chs IH];
    intros done bw td w Hso H; cbn [mfoldl] in H.
  - injection H as <- <- <-. cbn. by rewrite app_nil_r.
  - unfold bind in H.
    destruct (stage_table delRefs (bw, td) e w) as [[[bw1 td1]|err] w1] eqn:H1;
      [|done].
    destruct (stage_table_step _ _ _ _ _ _ _ _ _ _ _ _ _ Hso H1) as [Hso1 ->].
    destruct (IH _ _ _ _ Hso1 H) as [Hso' ->].
    cbn [flat_map deletes_map foldl]. by rewrite app_assoc.
Qed.

(* a stage that goes through has written every table's rows and deletes, in
   order, and returns the deletes map *)
Lemma stage_done (batchDoc : DocRef) (rev : Z) (chs : PushChangeSet)
    (delRefs : AllDeleteRefs) (w w1 : World) (dels : TableDeletes) :
  stage batchDoc rev chs delRefs w = (Ok dels, w1) ->
  store w1
  = apply_writes (store w)
                 (flat_map (table_writes batchDoc (heap w) rev delRefs) chs)
  /\ dels = deletes_map delRefs chs [].
Proof.
  unfold stage. intros H. unfold bind at 1 in H.
  destruct (mfoldl _ _ chs w) as [[[bw td]|err] w0] eqn:H0; [|done].
  assert (staged_so_far (store w) (heap w) batchDoc rev []
                        (BatchWriter.new batchDoc rev) w) as Hinit.
  { right. split; [|done]. split; [done|].
    split; [unfold MAX_TRANSACTION_WRITES; cbn; lia|]. by split. }
  destruct (stage_tables_steps _ _ _ _ _ _ _ _ _ _ _ _ _ Hinit H0)
    as [Hso ->].
  cbn [fst snd app] in *. unfold bind in H.
  destruct Hso as [Hstuck|((Hopen & _ & Hvirt & _) & _)].
  - by rewrite stuck_flush in H.
  - unfold BatchWriter.flush, BatchWriter.flushBatch, bind in H.
    rewrite commit_batch_open in H by done.
    injection H as <- <-. by split.
Qed.

(** ** The store after a push that went through *)

Lemma rollback_throws (batchDoc : DocRef) (chs : PushChangeSet) (err : Error)
    (w : World) :
  exists e w', rollback batchDoc chs err w = (Err e, w').
Proof.
  unfold rollback, bind, get_store.
  destruct (rollback_blocks _ _ _ w) as [[u|e] w']; by eexists _, _.
Qed.

Lemma pushChanges_done (env : Env) (base : DocRef) (params : SyncPushArgs)
    (w w' : World) :
  pushChanges env base params w = (Ok tt, w') ->
  let r := lastPulledAt params in
  let chs := changes params in
  let delRefs := discovered (store w) base chs in
  let dels := deletes_map delRefs chs [] in
  nextRevisionToWrite (store w) base = r
  /\ (store w'
      = apply_writes (store w)
          (flat_map (table_writes base (heap w) r delRefs) chs
           ++ inline_tail env base r dels)
      \/ store w'
         = apply_writes (store w)
             (flat_map (table_writes (batch_doc env base) (heap w) r delRefs) chs
              ++ batch_tail env base r
                   (revisionFromBaseSnap (store w !! base)).2 dels)).
Proof.
  intros H r chs delRefs dels.
  unfold pushChanges, bind, findDeleteRefs in H.
  fold (discovered (store w) base (changes params)) in H.
  fold chs delRefs in H.
  destruct (countChanges chs (delChanges delRefs) <? MAX_TRANSACTION_WRITES).
  - unfold pushAllChanges in H. rewrite revisionFromBaseSnap_next in H.
    destruct (Z.eqb_spec (nextRevisionToWrite (store w) base)
                         (lastPulledAt params)) as [Hrev|]; [|done].
    rewrite pushAll_writes_spec in H.
    destruct (existsb _ (changes params)); [done|].
    injection H as <-. split; [done|]. left. cbn [store]. by rewrite Hrev.
  - unfold pushBatchedChanges, bind, get_store in H.
    rewrite revisionFromBaseSnap_next in H.
    destruct (Z.eqb_spec (nextRevisionToWrite (store w) base)
                         (lastPulledAt params)) as [Hrev|]; [|done].
    cbn [negb] in H.
    destruct (stage _ _ _ _ w) as [[dels0|err] w1] eqn:Hstage; [|done].
    apply stage_done in Hstage as [Hstore ->].
    split; [done|]. right.
    unfold integrate in H. destruct (integrateFailure env).
    { destruct (rollback_throws
                  (doc (collection base BATCH_COLLECTION) (autoId env))
                  (changes params) (RemoteError s) w1) as (e & w2 & Hr).
      by rewrite Hr in H. }
    rewrite Hrev, Z.eqb_refl in H. cbn [negb] in H.
    injection H as <-. cbn [store].
    rewrite apply_writes_app. unfold batch_doc. subst r chs.
    rewrite <- Hrev, <- Hstore. reflexivity.
Qed.

(** ** Folds that may fail *)

Lemma rfoldl_invariant {A B} (f : A -> B -> Result A) (P : A -> Prop)
    (a a' : A) (l : list B) :
  (forall a b a', f a b = Ok a' -> P a -> P a') ->
  rfoldl f a l = Ok a' -> P a -> P a'.
Proof.
  intros Hf. revert a. induction l as [|b l IH]; intros a H Ha;
    cbn [rfoldl] in H.
  - by injection H as <-.
  - destruct (f a b) as [a1|e] eqn:Hfa; [|done]. cbn [rbind] in H.
    eapply IH; [exact H|]. by eapply Hf.
Qed.

Lemma rfoldl_app {A B} (f : A -> B -> Result A) (a : A) (l1 l2 : list B) :
  rfoldl f a (l1 ++ l2) = rbind (rfoldl f a l1) (fun a1 => rfoldl f a1 l2).
Proof.
  revert a. induction l1 as [|b l1 IH]; intros a; cbn [rfoldl app rbind];
    [done|].
  destruct (f a b) as [a1|e]; cbn [rbind]; [apply IH|done].
Qed.

(** ** Object dictionaries with distinct keys *)

Lemma set_keys {V} (o : list (string * V)) (k : string) (v : V) :
  forall k', k' ∈ (JsObj.set k v o).*1 <-> k' = k \/ k' ∈ o.*1.
Proof.
  induction o as [|[k1 v1] o IH]; intros k'; cbn [JsObj.set].
  - rewrite fmap_cons, elem_of_cons. cbn. tauto.
  - destruct (String.eqb_spec k k1) as [->|Hne].
    + rewrite !fmap_cons, !elem_of_cons. cbn. tauto.
    + rewrite !fmap_cons, !elem_of_cons, IH. cbn. tauto.
Qed.

Lemma set_NoDup {V} (o : list (string * V)) (k : string) (v : V) :
  NoDup o.*1 -> NoDup (JsObj.set k v o).*1.
Proof.
  induction o as [|[k1 v1] o IH]; intros Hnd; cbn [JsObj.set].
  - cbn. apply NoDup_singleton.
  - rewrite fmap_cons in Hnd. apply NoDup_cons in Hnd as [Hk1 Hnd].
    destruct (String.eqb_spec k k1) as [->|Hne].
    + rewrite fmap_cons. by apply NoDup_cons.
    + rewrite fmap_cons. apply NoDup_cons. split; [|by apply IH].
      cbn. rewrite set_keys. intros [?|?]; [congruence|done].
Qed.

Lemma get_Some_iff {V} (o : list (string * V)) (k : string) (v : V) :
  NoDup o.*1 -> JsObj.get k o = Some v <-> (k, v) ∈ o.
Proof.
  intros Hnd. split; [apply get_Some_elem_of|].
  induction o as [|[k1 v1] o IH]; intros Hin.
  - by apply elem_of_nil in Hin.
  - rewrite fmap_cons in Hnd. apply NoDup_cons in Hnd as [Hk1 Hnd].
    cbn [JsObj.get]. apply elem_of_cons in Hin as [Heq|Hin].
    + injection Heq as -> ->. by rewrite String.eqb_refl.
    + destruct (String.eqb_spec k k1) as [->|Hne]; [|by apply IH].
      destruct Hk1. apply list_elem_of_fmap. by exists (k1, v).
Qed.

Lemma elem_of_values_get {V} (o : list (string * V)) (v : V) :
  NoDup o.*1 -> v ∈ JsObj.values o <-> exists k, JsObj.get k o = Some v.
Proof.
  intros Hnd. rewrite elem_of_values. split.
  - intros Hin. apply list_elem_of_fmap in Hin as ([k v'] & -> & Hin).
    exists k. by apply get_Some_iff.
  - intros (k & Hget). apply get_Some_elem_of in Hget.
    apply list_elem_of_fmap. by exists (k, v).
Qed.

Lemma elem_of_keys_get {V} (o : list (string * V)) (k : string) :
  k ∈ JsObj.keys o <-> is_Some (JsObj.get k o).
Proof.
  rewrite <- has_true_iff. unfold JsObj.has.
  destruct (JsObj.get k o); split; try done;
    first [by eexists | by intros [? ?]].
Qed.

(** ** Merging a run of documents *)

Lemma last_for_key_from_None (k : string) (before : option Row)
    (rows : list Row) :
  last_for_key k before rows
  = match last_for_key k None rows with
    | Some v => Some v
    | None => before
    end.
Proof.
  induction rows as [|x rows IH] using rev_ind; [done|].
  rewrite !last_for_key_app. cbn [last_for_key foldl].
  case_decide; [done|]. apply IH.
Qed.

Lemma last_for_key_twice (k : string) (before : option Row)
    (rows : list Row) :
  last_for_key k (last_for_key k before rows) rows
  = last_for_key k before rows.
Proof.
  rewrite (last_for_key_from_None k (last_for_key k before rows)).
  rewrite (last_for_key_from_None k before rows).
  by destruct (last_for_key k None rows).
Qed.

Lemma merge_docs_ok (t : string) (rows : list Row) (cm : ChangeLoadMap) :
  is_Some (cm !! t) ->
  Forall (fun x => is_ok (decodeURIComponent (id x)) = true) rows ->
  exists cm', rfoldl (merge_doc t) cm rows = Ok cm'.
Proof.
  revert cm. induction rows as [|x rows IH]; intros cm [tl Htl] Hall;
    cbn [rfoldl]; [by eexists|].
  apply Forall_cons in Hall as [Hx Hall]. unfold merge_doc at 1.
  rewrite Htl.
  change (id (removeMelonFields (removeWatermelonInternals x))) with (id x).
  destruct (decodeURIComponent (id x)) as [key|e]; [|done]. cbn [rbind].
  apply IH; [|done]. rewrite lookup_insert_eq. by eexists.
Qed.

Lemma merge_docs_NoDup (t : string) (rows : list Row)
    (cm cm' : ChangeLoadMap) :
  rfoldl (merge_doc t) cm rows = Ok cm' ->
  (forall t' tl, cm !! t' = Some tl -> NoDup (loadUpdated tl).*1) ->
  forall t' tl, cm' !! t' = Some tl -> NoDup (loadUpdated tl).*1.
Proof.
  apply (rfoldl_invariant (merge_doc t)
           (fun cm => forall t' tl, cm !! t' = Some tl ->
                                    NoDup (loadUpdated tl).*1)).
  clear. intros cm x cm' H Hcm t' tl' Htl'. unfold merge_doc in H.
  destruct (cm !! t) as [tl|] eqn:Htl; [|done].
  destruct (decodeURIComponent _) as [key|e]; [|done]. cbn [rbind] in H.
  injection H as <-. destruct (decide (t' = t)) as [->|Hne].
  - rewrite lookup_insert_eq in Htl'. injection Htl' as <-. cbn.
    apply set_NoDup. by eapply Hcm.
  - rewrite lookup_insert_ne in Htl' by done. by eapply Hcm.
Qed.

Lemma merge_tables_get (st : Store) (root : DocRef) (s e : Z)
    (tables : list string) (cm : ChangeLoadMap) :
  (forall t, t ∈ tables -> is_Some (cm !! t)) ->
  (forall t dk x,
     t ∈ tables -> (dk, x) ∈ query_revisions st (collection root t) s e ->
     is_ok (decodeURIComponent (id x)) = true) ->
  exists cm',
    mergeCreatesAndUpdates st root s e tables cm = Ok cm'
    /\ (forall t, cm !! t = None -> cm' !! t = None)
    /\ forall t tl,
         cm !! t = Some tl ->
         exists tl',
           cm' !! t = Some tl'
           /\ loadDeleted tl' = loadDeleted tl
           /\ forall k,
                JsObj.get k (loadUpdated tl')
                = if decide (t ∈ tables)
                  then last_for_key k (JsObj.get k (loadUpdated tl))
                         (map snd (query_revisions st (collection root t) s e))
                  else JsObj.get k (loadUpdated tl).
Proof.
  unfold mergeCreatesAndUpdates. revert cm.
  induction tables as [|t1 tables IH]; intros cm Hhas Hdec; cbn [rfoldl].
  - exists cm. split; [done|]. split; [done|]. intros t tl Htl. exists tl.
    split; [done|]. split; [done|]. intros k.
    by rewrite decide_False by apply not_elem_of_nil.
  - destruct (Hhas t1) as [tl1 Htl1]; [left|].
    destruct (merge_docs_ok t1
                (map snd (query_revisions st (collection root t1) s e)) cm)
      as [cm1 H1].
    { by eexists. }
    { apply Forall_fmap, Forall_forall. intros [dk x] Hin.
      apply (Hdec t1 dk x); [left|done]. }
    rewrite H1. cbn [rbind].
    destruct (merge_docs_get _ _ _ _ _ H1 Htl1)
      as (tl1' & Htl1' & Hdel1 & Hother1 & Hget1).
    destruct (IH cm1) as (cm' & H' & Hnone' & Hsome').
    { intros t Ht. destruct (decide (t = t1)) as [->|Hne]; [by eexists|].
      rewrite Hother1 by done. apply Hhas. by right. }
    { intros t dk x Ht. apply Hdec. by right. }
    exists cm'. split; [done|]. split.
    + intros t Ht. apply Hnone'. rewrite Hother1; [done|]. congruence.
    + intros t tl Htl. destruct (decide (t = t1)) as [->|Hne].
      * assert (tl = tl1) as -> by congruence.
        destruct (Hsome' _ _ Htl1') as (tl' & Htl' & Hdel' & Hget').
        exists tl'. split; [done|]. split; [congruence|]. intros k.
        rewrite Hget', Hget1. rewrite (decide_True (P := t1 ∈ t1 :: tables))
          by left.
        destruct (decide (t1 ∈ tables)); [apply last_for_key_twice|done].
      * rewrite <- Hother1 in Htl by done.
        destruct (Hsome' _ _ Htl) as (tl' & Htl' & Hdel' & Hget').
        exists tl'. split; [done|]. split; [done|]. intros k. rewrite Hget'.
        destruct (decide (t ∈ tables)).
        -- by rewrite decide_True by (by right).
        -- by rewrite decide_False by (intros [?|?]%elem_of_cons; done).
Qed.

Lemma merge_tables_NoDup (st : Store) (root : DocRef) (s e : Z)
    (tables : list string) (cm cm' : ChangeLoadMap) :
  mergeCreatesAndUpdates st root s e tables cm = Ok cm' ->
  (forall t' tl, cm !! t' = Some tl -> NoDup (loadUpdated tl).*1) ->
  forall t' tl, cm' !! t' = Some tl -> NoDup (loadUpdated tl).*1.
Proof.
  unfold mergeCreatesAndUpdates.
  apply (rfoldl_invariant _
           (fun cm => forall t' tl, cm !! t' = Some tl ->
                                    NoDup (loadUpdated tl).*1)).
  intros cm1 t cm2 H. exact (merge_docs_NoDup _ _ _ _ H).
Qed.

(** ** Marking deletions *)

Lemma marks_added_has_tables (tables : list string) (cm cm' : ChangeLoadMap)
    (added : string -> string -> Prop) :
  marks_added cm cm' added -> has_tables tables cm -> has_tables tables cm'.
Proof.
  intros [_ Hsome] Hhas t Ht. destruct (Hhas t Ht) as [tl Htl].
  destruct (Hsome _ _ Htl) as (tl' & -> & _). by eexists.
Qed.

Lemma rfoldl_marks {B} (f : ChangeLoadMap -> B -> Result ChangeLoadMap)
    (added : B -> string -> string -> Prop) (tables : list string)
    (l : list B) (cm : ChangeLoadMap) :
  (forall b cm, b ∈ l -> has_tables tables cm ->
                exists cm', f cm b = Ok cm' /\ marks_added cm cm' (added b)) ->
  has_tables tables cm ->
  exists cm',
    rfoldl f cm l = Ok cm'
    /\ marks_added cm cm' (fun t k => exists b, b ∈ l /\ added b t k).
Proof.
  revert cm. induction l as [|b l IH]; intros cm Hf Hhas; cbn [rfoldl].
  - exists cm. split; [done|]. split; [done|]. intros t tl Htl. exists tl.
    split; [done|]. split; [done|]. intros k. split; [by left|].
    intros [?|(b & Hb & _)]; [done|]. by apply elem_of_nil in Hb.
  - destruct (Hf b cm) as (cm1 & H1 & Hrel1); [left|done|].
    rewrite H1. cbn [rbind].
    destruct (IH cm1) as (cm' & H' & Hrel').
    { intros b' cm2 Hb'. apply Hf. by right. }
    { by eapply marks_added_has_tables. }
    exists cm'. split; [done|].
    destruct Hrel1 as [Hnone1 Hsome1]. destruct Hrel' as [Hnone' Hsome'].
    split; [by auto|]. intros t tl Htl.
    destruct (Hsome1 _ _ Htl) as (tl1 & Htl1 & Hupd1 & Hk1).
    destruct (Hsome' _ _ Htl1) as (tl' & Htl' & Hupd' & Hk').
    exists tl'. split; [done|]. split; [congruence|]. intros k.
    rewrite Hk', Hk1. split.
    + intros [[?|?]|(b' & Hb' & ?)]; [by left| |].
      * right. exists b. split; [left|done].
      * right. exists b'. split; [by right|done].
    + intros [?|(b' & Hb' & ?)]; [by left; left|].
      apply elem_of_cons in Hb' as [->|Hb']; [by left; right|].
      right. by exists b'.
Qed.

Lemma mark_deleted_marks (tables : list string) (t : string)
    (cm : ChangeLoadMap) (i key : string) :
  t ∈ tables -> has_tables tables cm ->
  decodeURIComponent i = Ok key ->
  exists cm',
    mark_deleted t cm i = Ok cm'
    /\ marks_added cm cm' (fun t' k => t' = t /\ k = key).
Proof.
  intros Ht Hhas Hdec. destruct (Hhas t Ht) as [tl Htl].
  unfold mark_deleted. rewrite Htl, Hdec. cbn [rbind].
  eexists. split; [done|]. split.
  - intros t' Ht'. rewrite lookup_insert_ne; [done|]. congruence.
  - intros t' tl' Htl'. destruct (decide (t' = t)) as [->|Hne].
    + rewrite lookup_insert_eq. eexists. split; [done|].
      assert (tl' = tl) as -> by congruence. split; [done|]. intros k. cbn.
      rewrite get_set. case_decide as Hk.
      * split; [right; by split|by eexists].
      * split; [by left|]. intros [?|[_ ?]]; done.
    + rewrite lookup_insert_ne by done. exists tl'. split; [done|].
      split; [done|]. intros k. split; [by left|]. by intros [?|[? _]].
Qed.

Lemma marks_added_ext (cm cm' : ChangeLoadMap)
    (added added' : string -> string -> Prop) :
  (forall t k, added t k <-> added' t k) ->
  marks_added cm cm' added -> marks_added cm cm' added'.
Proof.
  intros Hext [Hnone Hsome]. split; [done|]. intros t tl Htl.
  destruct (Hsome _ _ Htl) as (tl' & Htl' & Hupd & Hk).
  exists tl'. split; [done|]. split; [done|]. intros k.
  by rewrite Hk, Hext.
Qed.

Lemma add_deletions_marks (tables : list string) (dels : TableDeletes)
    (cm : ChangeLoadMap) :
  (forall t ids, (t, ids) ∈ dels -> t ∈ tables) ->
  (forall t ids i, (t, ids) ∈ dels -> i ∈ ids ->
                   is_ok (decodeURIComponent i) = true) ->
  has_tables tables cm ->
  exists cm',
    add_deletions cm dels = Ok cm'
    /\ marks_added cm cm' (deletes_name dels).
Proof.
  intros Htables Hdec Hhas. unfold add_deletions.
  destruct (rfoldl_marks
              (fun cm (entry : string * list string) =>
                 rfoldl (mark_deleted entry.1) cm entry.2)
              (fun entry t k => t = entry.1
                                /\ exists i, i ∈ entry.2
                                             /\ decodeURIComponent i = Ok k)
              tables dels cm) as (cm' & H' & Hrel'); [|done|].
  - intros [t ids] cm1 Hentry Hhas1. cbn [fst snd].
    destruct (rfoldl_marks (mark_deleted t)
                (fun i t' k => t' = t /\ decodeURIComponent i = Ok k)
                tables ids cm1) as (cm2 & H2 & Hrel2); [|done|].
    + intros i cm2 Hi Hhas2.
      specialize (Hdec t ids i Hentry Hi).
      destruct (decodeURIComponent i) as [key|] eqn:Hkey; [|done].
      destruct (mark_deleted_marks tables t cm2 i key) as (cm3 & H3 & Hrel3);
        [by eapply Htables|done|done|].
      exists cm3. split; [done|]. eapply marks_added_ext; [|exact Hrel3].
      intros t' k. split; intros [-> Hk]; (split; [done|]); congruence.
    + exists cm2. split; [done|]. eapply marks_added_ext; [|exact Hrel2].
      intros t' k. split.
      * intros (i & Hi & -> & Hk). split; [done|]. by exists i.
      * intros (-> & i & Hi & Hk). by exists i.
  - exists cm'. split; [done|]. eapply marks_added_ext; [|exact Hrel'].
    intros t k. split.
    + intros ([t' ids] & Hentry & -> & i & Hi & Hk). by exists ids, i.
    + intros (ids & i & Hentry & Hi & Hk). exists (t, ids).
      split; [done|]. split; [done|]. by exists i.
Qed.

(** ** The documents a push leaves behind *)

Lemma lookup_untouched (st : Store) (ws : list Write) (p : DocRef) :
  Forall (fun w => write_target w <> p) ws ->
  apply_writes st ws !! p = st !! p.
Proof. intros H. by rewrite apply_writes_lookup, write_effect_skip. Qed.

Lemma of_table_not_base (base : DocRef) (t : string) :
  ~ of_table base t base.
Proof.
  intros [(k & H)|(b & k & H)];
    apply (f_equal length) in H; rewrite length_app in H; cbn in H; lia.
Qed.

Lemma of_table_not_child (base : DocRef) (t c k : string) :
  of_table base t (doc (collection base c) k) -> t = c.
Proof.
  rewrite doc_collection. intros [(k' & H)|(b & k' & H)];
    apply app_inv_head in H; by injection H.
Qed.

Section AfterPush.
Context (st : Store) (base : DocRef) (chs : PushChangeSet) (h : list Row).
Context (r : Z) (under : DocRef) (tail : list Write).
Hypothesis Hnodup : NoDup chs.*1.
Hypothesis Hunder : forall t k, of_table base t (doc (collection under t) k).

Let delRefs := discovered st base chs.
Let W := flat_map (table_writes under h r delRefs) chs.
Let st' := apply_writes st (W ++ tail).

(* a transaction tail never leaves a row document where there was none *)
Hypothesis Htail_rows :
  forall p cur x,
    foldl (write_effect p) cur tail = Some (DRow x) -> cur = Some (DRow x).
(* and it leaves the documents of the pushed tables alone *)
Hypothesis Htail_tables :
  forall t dk, t ∈ chs.*1 ->
               Forall (fun w => write_target w <> doc (collection under t) dk)
                      tail.
(* nothing of revision [r] is under [under] yet *)
Hypothesis Hfresh :
  forall t dk row,
    st !! doc (collection under t) dk = Some (DRow row) ->
    melonFireRevision row <> Some r.

Lemma W_targets :
  Forall (fun w => exists t, t ∈ chs.*1 /\ of_table base t (write_target w)) W.
Proof.
  subst W. apply Forall_forall. intros w Hw.
  apply list_elem_of_In, in_flat_map in Hw as (e & He & Hw).
  apply list_elem_of_In in He, Hw. exists e.1. split.
  - apply list_elem_of_fmap. by exists e.
  - pose proof (table_writes_of_table under base h r st chs e
                  (Hunder e.1) Hnodup He) as Hall.
    rewrite Forall_forall in Hall. by apply Hall.
Qed.

Lemma W_effect (t dk : string) :
  foldl (write_effect (doc (collection under t) dk))
        (st !! doc (collection under t) dk) W
  = match list_find (fun e : string * TableChanges loc => e.1 = t) chs with
    | Some (_, e) =>
        if decide (doc (collection under t) dk ∈ map ref (refs_of st base t e.2))
        then None
        else match last_row_at dk (pushed h e.2) with
             | Some raw => Some (DRow (stored r raw))
             | None => st !! doc (collection under t) dk
             end
    | None => st !! doc (collection under t) dk
    end.
Proof.
  subst W delRefs.
  rewrite (tables_effect under base h r st chs t); [|done|done|apply Hunder].
  destruct (list_find _ chs) as [[i [t' ch]]|] eqn:Hfind; [|done].
  apply list_find_Some in Hfind as (Hi & Ht' & _). cbn in Ht'. subst t'.
  apply list_elem_of_lookup_2 in Hi.
  pose proof (table_writes_effect under h r (discovered st base chs) (t, ch)
                dk (st !! doc (collection under t) dk)) as Heff.
  cbn [fst snd] in Heff. rewrite Heff.
  rewrite (discovered_lookup_in _ _ _ _ _ Hnodup Hi). cbn [snd].
  by destruct (refs_of st base t ch).
Qed.

(* the row documents of revision [r] after the push: the last row of each
   pushed id, unless the push deleted the very document *)
Lemma query_after (t dk : string) (x : Row) :
  (dk, x) ∈ query_revisions st' (collection under t) r (r + 1)
  <-> exists ch raw,
        (t, ch) ∈ chs
        /\ last_of_id (pushed h ch) raw
        /\ dk = encodeURIComponent (id raw)
        /\ x = stored r raw
        /\ doc (collection under t) dk ∉ map ref (refs_of st base t ch).
Proof.
  rewrite elem_of_query_revisions. fold (doc (collection under t) dk).
  split.
  - intros (Hlk & n & Hn & Hrange). assert (n = r) as -> by lia.
    subst st'. rewrite apply_writes_lookup, write_effect_app in Hlk.
    apply Htail_rows in Hlk. rewrite W_effect in Hlk.
    destruct (list_find _ chs) as [[i [t' ch]]|] eqn:Hfind.
    2: { by destruct (Hfresh _ _ _ Hlk). }
    apply list_find_Some in Hfind as (Hi & Ht' & _). cbn in Ht'. subst t'.
    apply list_elem_of_lookup_2 in Hi. cbn [snd] in Hlk.
    case_decide as Hdel; [done|].
    destruct (last_row_at dk (pushed h ch)) as [raw|] eqn:Hlast.
    2: { by destruct (Hfresh _ _ _ Hlk). }
    injection Hlk as <-. apply last_row_at_Some in Hlast as [Hlast <-].
    by exists ch, raw.
  - intros (ch & raw & Hin & Hlast & -> & -> & Hdel).
    split; [|exists r; split; [done|lia]].
    subst st'. rewrite apply_writes_lookup, write_effect_app.
    rewrite write_effect_skip.
    2: { apply Htail_tables. apply list_elem_of_fmap. by exists (t, ch). }
    rewrite W_effect.
    destruct (list_find _ chs) as [[i [t' ch']]|] eqn:Hfind.
    2: { apply list_find_None in Hfind. rewrite Forall_forall in Hfind.
         by destruct (Hfind _ Hin). }
    apply list_find_Some in Hfind as (Hi & Ht' & _). cbn in Ht'. subst t'.
    apply list_elem_of_lookup_2 in Hi.
    assert (ch' = ch) as -> by (by eapply NoDup_fst_unique).
    cbn [snd]. rewrite decide_False by done.
    by rewrite (proj2 (last_row_at_Some _ _ raw) (conj Hlast eq_refl)).
Qed.

(* no row document of revision [r] for a table the push did not name *)
Lemma query_after_other (t dk : string) (x : Row) :
  t ∉ chs.*1 ->
  (dk, x) ∉ query_revisions st' (collection under t) r (r + 1).
Proof.
  intros Ht Hin. apply query_after in Hin as (ch & raw & Hin & _).
  apply Ht. apply list_elem_of_fmap. by exists (t, ch).
Qed.

End AfterPush.

(** ** From the change map to the returned lists *)

Lemma last_for_key_exists (k : string) (before : option Row)
    (rows : list Row) (x : Row) :
  x ∈ rows -> decodeURIComponent (id x) = Ok k ->
  exists x', x' ∈ rows /\ decodeURIComponent (id x') = Ok k
             /\ last_for_key k before rows = Some (stripped x').
Proof.
  induction rows as [|y rows IH] using rev_ind; intros Hin Hdec.
  - by apply elem_of_nil in Hin.
  - rewrite last_for_key_app. cbn [last_for_key foldl].
    destruct (decide (decodeURIComponent (id y) = Ok k)) as [Hy|Hy].
    + exists y. split; [|done]. apply elem_of_app. right. left.
    + apply elem_of_app in Hin as [Hin|Hin].
      * destruct (IH Hin Hdec) as (x' & Hx' & Hdec' & Hlast).
        exists x'. split; [|done]. apply elem_of_app. by left.
      * apply list_elem_of_singleton in Hin as ->. done.
Qed.

Lemma last_for_key_unique (k : string) (rows : list Row) (x : Row) :
  x ∈ rows -> decodeURIComponent (id x) = Ok k ->
  (forall x', x' ∈ rows -> decodeURIComponent (id x') = Ok k -> x' = x) ->
  last_for_key k None rows = Some (stripped x).
Proof.
  intros Hin Hdec Huniq.
  destruct (last_for_key_exists k None rows x Hin Hdec)
    as (x' & Hx' & Hdec' & ->).
  by rewrite (Huniq x' Hx' Hdec').
Qed.

Lemma last_of_id_unique (rows : list Row) (x y : Row) :
  last_of_id rows x -> last_of_id rows y -> id x = id y -> x = y.
Proof.
  intros (a1 & a2 & Ha & Hx) (b1 & b2 & Hb & Hy) Hid.
  assert (forall dk, last_row_at dk rows = Some x
                     <-> last_of_id rows x /\ encodeURIComponent (id x) = dk)
    as Hx' by (intros; apply last_row_at_Some).
  assert (last_row_at (encodeURIComponent (id x)) rows = Some x) as H1.
  { apply last_row_at_Some. split; [by exists a1, a2|done]. }
  assert (last_row_at (encodeURIComponent (id x)) rows = Some y) as H2.
  { apply last_row_at_Some. split; [by exists b1, b2|by rewrite Hid]. }
  congruence.
Qed.

Lemma pulled_table_lists (tl : TableLoad) (rows : list Row)
    (D : string -> Prop) :
  NoDup (loadUpdated tl).*1 ->
  (forall k, JsObj.get k (loadUpdated tl) = last_for_key k None rows) ->
  (forall k, is_Some (JsObj.get k (loadDeleted tl)) <-> D k) ->
  created (pulled_table tl) = []
  /\ (forall i, i ∈ deleted (pulled_table tl) <-> D i)
  /\ forall row, row ∈ updated (pulled_table tl)
                 <-> (exists k, last_for_key k None rows = Some row)
                     /\ ~ D (id row)
                     /\ id row ∉ prototype_names.
Proof.
  intros Hnd Hupd Hdel. split; [done|]. split.
  - intros i. cbn [pulled_table deleted]. by rewrite elem_of_keys_get, Hdel.
  - intros row. cbn [pulled_table updated].
    rewrite list_elem_of_In, List.filter_In, <- list_elem_of_In.
    rewrite elem_of_values_get by done.
    rewrite negb_true_iff, <- not_true_iff_false, js_in_true_iff.
    rewrite elem_of_keys_get, Hdel.
    split.
    + intros [(k & Hk) HD]. split; [exists k; congruence|]. tauto.
    + intros [(k & Hk) [HD Hp]]. split; [exists k; congruence|]. tauto.
Qed.

Lemma set_fresh {V} (o : list (string * V)) (k : string) (v : V) :
  k ∉ o.*1 -> JsObj.set k v o = o ++ [(k, v)].
Proof.
  induction o as [|[k1 v1] o IH]; intros Hk; [done|].
  rewrite fmap_cons, not_elem_of_cons in Hk. destruct Hk as [Hne Hk].
  cbn [JsObj.set]. destruct (String.eqb_spec k k1) as [?|_]; [done|].
  cbn. by rewrite IH.
Qed.

Lemma deletes_map_cons (delRefs : AllDeleteRefs)
    (e : string * TableChanges loc) (chs : PushChangeSet) (td : TableDeletes) :
  deletes_map delRefs (e :: chs) td
  = deletes_map delRefs chs
      match delRefs !! e.1 with
      | Some refs => JsObj.set e.1 (map encodedId refs) td
      | None => td
      end.
Proof. reflexivity. Qed.

(* the deletes map holds, for every table with discovered references, the
   encoded ids of those references *)
Lemma deletes_map_spec (delRefs : AllDeleteRefs) (chs : PushChangeSet)
    (t : string) (ids : list string) :
  NoDup chs.*1 ->
  (t, ids) ∈ deletes_map delRefs chs []
  <-> t ∈ chs.*1
      /\ exists refs, delRefs !! t = Some refs /\ ids = map encodedId refs.
Proof.
  assert (forall td,
    NoDup chs.*1 -> (forall t', t' ∈ chs.*1 -> t' ∉ td.*1) ->
    (t, ids) ∈ deletes_map delRefs chs td
    <-> (t, ids) ∈ td
        \/ (t ∈ chs.*1
            /\ exists refs, delRefs !! t = Some refs
                            /\ ids = map encodedId refs)) as Hgen.
  { induction chs as [|e chs IH]; intros td Hnd Hfresh.
    - cbn. split; [by left|].
      intros [?|[Hin _]]; [done|]. by apply elem_of_nil in Hin.
    - rewrite fmap_cons in Hnd. apply NoDup_cons in Hnd as [He Hnd].
      rewrite deletes_map_cons.
      destruct (delRefs !! e.1) as [refs|] eqn:Hrefs.
      + rewrite set_fresh by (apply Hfresh; rewrite fmap_cons; left).
        rewrite IH; [|done|].
        2: { intros t' Ht'. rewrite fmap_app, not_elem_of_app. split.
             - apply Hfresh. rewrite fmap_cons. by right.
             - cbn. rewrite list_elem_of_singleton. by intros ->. }
        rewrite elem_of_app, list_elem_of_singleton, fmap_cons, elem_of_cons.
        split.
        * intros [[?|Heq]|(Hin & refs' & Hr & ->)]; [by left| |].
          -- injection Heq as -> ->. right. split; [by left|]. by exists refs.
          -- right. split; [by right|]. by exists refs'.
        * intros [?|([->|Hin] & refs' & Hr & ->)]; [by left; left| |].
          -- left. right. congruence.
          -- right. split; [done|]. by exists refs'.
      + rewrite IH; [|done|].
        2: { intros t' Ht'. apply Hfresh. rewrite fmap_cons. by right. }
        rewrite fmap_cons, elem_of_cons. split.
        * intros [?|(Hin & refs' & Hr & ->)]; [by left|].
          right. split; [by right|]. by exists refs'.
        * intros [?|([->|Hin] & refs' & Hr & ->)]; [by left|congruence|].
          right. split; [done|]. by exists refs'. }
  intros Hnd. rewrite Hgen; [|done|].
  - split; [|by right]. intros [Hin|?]; [|done]. by apply elem_of_nil in Hin.
  - intros t' _. apply not_elem_of_nil.
Qed.

(** ** One revision of the pull loop *)

Lemma pull_loop_run (st : Store) (base : DocRef) (tables : list string)
    (tokens : option (gmap Z string)) (r : Z) (cm : ChangeLoadMap) :
  has_token tokens r = false ->
  pull_loop 1 st base tables tokens (r + 1) r cm
  = pull_run st base tables r (r + 1) cm.
Proof.
  intros Htok. cbn [pull_loop].
  destruct (Z.ltb_spec r (r + 1)) as [_|?]; [|lia].
  replace (Z.to_nat (r + 1 - r)) with 1%nat by lia. cbn [advance_end].
  rewrite Htok. destruct (Z.ltb_spec r (r + 1)) as [_|?]; [|lia].
  cbn [negb andb]. rewrite Z.ltb_irrefl, andb_false_r. cbn [rbind].
  destruct (Z.eqb_spec (r + 1) r) as [?|_]; [lia|].
  destruct (pull_run st base tables r (r + 1) cm) as [cm1|e]; [|done].
  cbn [rbind]. by rewrite Z.ltb_irrefl.
Qed.

Lemma pull_loop_batch (st : Store) (base : DocRef) (tables : list string)
    (tokens : option (gmap Z string)) (r : Z) (cm : ChangeLoadMap) :
  has_token tokens r = true ->
  pull_loop 1 st base tables tokens (r + 1) r cm
  = pull_batch st base tables tokens r cm.
Proof.
  intros Htok. cbn [pull_loop].
  destruct (Z.ltb_spec r (r + 1)) as [_|?]; [|lia].
  replace (Z.to_nat (r + 1 - r)) with 1%nat by lia. cbn [advance_end].
  rewrite Htok. cbn [negb andb rbind]. rewrite Z.eqb_refl.
  destruct (pull_batch st base tables tokens r cm) as [cm1|e]; [|done].
  cbn [rbind]. by rewrite Z.ltb_irrefl.
Qed.

Lemma pull_assemble (tables : list string) (base : DocRef)
    (pulledAt : option Z) (w' : World) (r : Z)
    (tokens' : option (gmap Z string)) (cm : ChangeLoadMap) :
  revisionFromBaseSnap (store w' !! base) = (r + 1, tokens') ->
  default MIN_REVISION pulledAt = r ->
  pull_loop 1 (store w') base tables tokens' (r + 1) r (init_changeMap tables)
  = Ok cm ->
  has_tables tables cm ->
  exists res,
    pullChanges tables base pulledAt w' = (Ok res, w')
    /\ timestamp res = r + 1
    /\ forall t, t ∈ tables ->
                 exists tl, cm !! t = Some tl
                            /\ pulled res !! t = Some (pulled_table tl).
Proof.
  intros Hrev Hstart Hloop Hhas. unfold pullChanges.
  assert (match pulledAt with Some r0 => r0 | None => MIN_REVISION end = r)
    as -> by (by destruct pulledAt).
  rewrite Hrev. cbn [fst snd].
  replace (Z.to_nat (r + 1 - r)) with 1%nat by lia. rewrite Hloop.
  cbn [rbind].
  destruct (build_changes_spec tables cm Hhas) as (chs & -> & Hlk).
  cbn [rbind]. eexists. split; [done|]. split; [done|].
  intros t Ht. destruct (Hhas t Ht) as [tl Htl]. exists tl.
  split; [done|]. cbn [pulled]. by rewrite Hlk, decide_True, Htl.
Qed.

(** ** A push, then a pull of its revision *)

Lemma path_length_ne (base : DocRef) (l1 l2 : list string) :
  length l1 <> length l2 -> base ++ l1 <> base ++ l2.
Proof. intros Hlen Heq. apply app_inv_head in Heq. congruence. Qed.

Lemma has_tables_init (tables : list string) :
  has_tables tables (init_changeMap tables).
Proof.
  intros t Ht. rewrite init_changeMap_lookup, decide_True by done. by eexists.
Qed.

Lemma init_load (tables : list string) (t : string) (tl : TableLoad) :
  init_changeMap tables !! t = Some tl ->
  tl = {| loadUpdated := []; loadDeleted := [] |}.
Proof.
  rewrite init_changeMap_lookup. case_decide; [|done]. by intros [= <-].
Qed.

Lemma merge_base_revision (old : option Doc) (r : Z) (date : string)
    (tokens : option (gmap Z string)) :
  (revisionFromBaseSnap (Some (merge_base old r date tokens))).1 = r + 1.
Proof.
  unfold revisionFromBaseSnap, merge_base, MIN_REVISION. cbn.
  destruct (Z.eqb_spec r 0); lia.
Qed.

Lemma base_not_child (base : DocRef) (c k : string) :
  base <> doc (collection base c) k.
Proof.
  rewrite doc_collection. intros H. apply (f_equal length) in H.
  rewrite length_app in H. cbn in H. lia.
Qed.

Lemma child_not_grandchild (base : DocRef) (c k c' k' : string) :
  doc (collection base c) k <> doc (collection (doc (collection base c) k) c') k'.
Proof. apply base_not_child. Qed.

Lemma inline_tail_effect (env : Env) (base : DocRef) (r : Z)
    (dels : TableDeletes) (p : DocRef) (cur : option Doc) :
  foldl (write_effect p) cur (inline_tail env base r dels)
  = if decide (p = base) then Some (merge_base cur r (now env) None)
    else if decide (dels <> []
                    /\ p = doc (collection base DELETE_COLLECTION) (autoId env))
         then Some (DDel {| revision := r; deletes := dels |})
         else cur.
Proof.
  pose proof (base_not_child base DELETE_COLLECTION (autoId env)) as Hbase.
  unfold inline_tail. destruct dels as [|d0 dels0]; cbn [app foldl];
    unfold write_effect; cbn [write_target]; repeat case_decide;
    try done; try tauto; try congruence.
  all: destruct_and?; subst; try done; try tauto.
  exfalso. apply H2. by split.
Qed.

Lemma batch_tail_effect (env : Env) (base : DocRef) (r : Z)
    (tokens : option (gmap Z string)) (dels : TableDeletes) (p : DocRef)
    (cur : option Doc) :
  foldl (write_effect p) cur (batch_tail env base r tokens dels)
  = if decide (p = base)
    then Some (merge_base cur r (now env)
                          (Some (<[r := autoId env]> (default ∅ tokens))))
    else if decide (p = batch_doc env base)
         then Some (DBatch {| batchLatestRevision := r;
                              batchLatestDate := now env;
                              batchDeletes := dels |})
         else cur.
Proof.
  pose proof (base_not_child base BATCH_COLLECTION (autoId env)) as Hbase.
  unfold batch_tail, batch_doc in *. cbn [foldl].
  unfold write_effect; cbn [write_target]; repeat case_decide;
    try done; try congruence.
Qed.

Lemma changes_of_in (chs : PushChangeSet) (t : string)
    (ch : TableChanges loc) :
  NoDup chs.*1 -> (t, ch) ∈ chs -> changes_of chs t = ch.
Proof.
  intros Hnd Hin. unfold changes_of.
  destruct (list_find _ chs) as [[i [t' ch']]|] eqn:Hfind.
  - apply list_find_Some in Hfind as (Hi & Ht' & _). cbn in Ht'. subst t'.
    apply list_elem_of_lookup_2 in Hi. cbn [snd].
    exact (NoDup_fst_unique chs t ch' ch Hnd Hi Hin).
  - apply list_find_None in Hfind. rewrite Forall_forall in Hfind.
    by destruct (Hfind _ Hin).
Qed.

Lemma changes_of_notin (chs : PushChangeSet) (t : string) :
  t ∉ chs.*1 ->
  changes_of chs t = {| created := []; updated := []; deleted := [] |}.
Proof.
  intros Hnotin. unfold changes_of.
  destruct (list_find _ chs) as [[i [t' ch']]|] eqn:Hfind; [|done].
  apply list_find_Some in Hfind as (Hi & Ht' & _). cbn in Ht'. subst t'.
  apply list_elem_of_lookup_2 in Hi. destruct Hnotin.
  apply list_elem_of_fmap. by exists (t, ch').
Qed.

Lemma stripped_stored (rev : Z) (raw : Row) :
  stripped (stored rev raw) = stripped raw.
Proof. reflexivity. Qed.

Section RoundTrip.
Context (env : Env) (base : DocRef) (tables : list string).
Context (st : Store) (h : list Row) (chs : PushChangeSet) (r : Z).
Hypothesis Hnodup : NoDup chs.*1.
Hypothesis Htables :
  forall t, t ∈ chs.*1 ->
            t ∈ tables /\ t <> BATCH_COLLECTION /\ t <> DELETE_COLLECTION.
Hypothesis Hplain :
  forall l, l ∈ pushed_rows chs ->
            decodeURIComponent (id (deref h l)) = Ok (id (deref h l)).
Hypothesis Hnames :
  forall l, l ∈ pushed_rows chs -> id (deref h l) ∉ prototype_names.
Hypothesis Hfresh : fresh_revision st base r (autoId env).

Let delRefs := discovered st base chs.
Let dels := deletes_map delRefs chs [].

Lemma pushed_named (t : string) (ch : TableChanges loc) (raw : Row) :
  (t, ch) ∈ chs -> raw ∈ pushed h ch -> id raw ∉ prototype_names.
Proof.
  intros Hin Hraw. unfold pushed in Hraw.
  apply list_elem_of_fmap in Hraw as (l & -> & Hl). apply Hnames.
  unfold pushed_rows. apply list_elem_of_In, in_flat_map.
  exists (t, ch). split; by apply list_elem_of_In.
Qed.

Lemma pushed_plain (t : string) (ch : TableChanges loc) (raw : Row) :
  (t, ch) ∈ chs -> raw ∈ pushed h ch ->
  decodeURIComponent (id raw) = Ok (id raw).
Proof.
  intros Hin Hraw. unfold pushed in Hraw.
  apply list_elem_of_fmap in Hraw as (l & -> & Hl). apply Hplain.
  unfold pushed_rows. apply list_elem_of_In, in_flat_map.
  exists (t, ch). split; by apply list_elem_of_In.
Qed.

Lemma last_of_id_elem (rows : list Row) (raw : Row) :
  last_of_id rows raw -> raw ∈ rows.
Proof.
  intros (rows1 & rows2 & -> & _). apply elem_of_app. right. left.
Qed.

Lemma dels_decodable (t : string) (ids : list string) (i : string) :
  (t, ids) ∈ dels -> i ∈ ids -> is_ok (decodeURIComponent i) = true.
Proof.
  intros Hin Hi. apply deletes_map_spec in Hin as (_ & refs & Hrefs & ->);
    [|done].
  apply list_elem_of_fmap in Hi as (ref0 & -> & Href0).
  assert (exists ch, (t, ch) ∈ chs
                     /\ ref0 ∈ refs_of st base t ch) as (ch & Hch & Href).
  { destruct (decide (t ∈ chs.*1)) as [Ht|Ht].
    - apply list_elem_of_fmap in Ht as ([t' ch] & -> & Hch). exists ch.
      split; [done|]. subst delRefs.
      rewrite (discovered_lookup_in _ _ _ _ _ Hnodup Hch) in Hrefs.
      cbn [fst] in *. destruct (refs_of st base t' ch); [done|].
      by injection Hrefs as <-.
    - subst delRefs. by rewrite discovered_lookup_notin in Hrefs. }
  apply elem_of_existing_refs in Href as (_ & d & _ & ->).
  by rewrite decode_encode.
Qed.

Lemma dels_tables (t : string) (ids : list string) :
  (t, ids) ∈ dels -> t ∈ tables.
Proof.
  intros Hin. apply deletes_map_spec in Hin as (Ht & _); [|done].
  by apply Htables.
Qed.

(* the deleted marks are the ids found for the deleted ids of the table *)
Lemma dels_found (t k : string) :
  deletes_name dels t k
  <-> k ∈ found_ids st base t (deleted (changes_of chs t)).
Proof.
  unfold changes_of.
  destruct (list_find _ chs) as [[i [t' ch]]|] eqn:Hfind.
  - apply list_find_Some in Hfind as (Hi & Ht' & _). cbn in Ht'. subst t'.
    apply list_elem_of_lookup_2 in Hi. cbn [snd].
    rewrite found_ids_refs. split.
    + intros (ids & i0 & Hin & Hi0 & Hdec).
      apply deletes_map_spec in Hin as (_ & refs & Hrefs & ->); [|done].
      subst delRefs. rewrite (discovered_lookup_in _ _ _ _ _ Hnodup Hi) in Hrefs.
      apply list_elem_of_fmap in Hi0 as (ref0 & -> & Href0).
      exists ref0. split; [|done].
      destruct (refs_of st base t ch); [done|]. by injection Hrefs as <-.
    + intros (ref0 & Href0 & Hdec).
      exists (map encodedId (refs_of st base t ch)), (encodedId ref0).
      split; [|split; [|done]].
      * apply deletes_map_spec; [done|]. split.
        -- apply list_elem_of_fmap. by exists (t, ch).
        -- exists (refs_of st base t ch). split; [|done]. subst delRefs.
           rewrite (discovered_lookup_in _ _ _ _ _ Hnodup Hi).
           destruct (refs_of st base t ch); [|done].
           by apply elem_of_nil in Href0.
      * apply list_elem_of_fmap. by exists ref0.
  - apply list_find_None in Hfind. rewrite Forall_forall in Hfind.
    cbn [deleted]. unfold found_ids, delete_candidates. cbn. split.
    + intros (ids & i0 & Hin & _).
      apply deletes_map_spec in Hin as (Ht & _); [|done].
      apply list_elem_of_fmap in Ht as ([t' ch] & -> & Hch).
      by destruct (Hfind _ Hch).
    + intros Hin. by apply elem_of_nil in Hin.
Qed.

(* - the inline path - *)

Let W_inline := flat_map (table_writes base h r delRefs) chs.
Let st_inline := apply_writes st (W_inline ++ inline_tail env base r dels).

Lemma inline_tail_rows (p : DocRef) (cur : option Doc) (x : Row) :
  foldl (write_effect p) cur (inline_tail env base r dels) = Some (DRow x) ->
  cur = Some (DRow x).
Proof. rewrite inline_tail_effect. by repeat case_decide. Qed.

Lemma inline_tail_tables (t dk : string) :
  t ∈ chs.*1 ->
  Forall (fun w => write_target w <> doc (collection base t) dk)
         (inline_tail env base r dels).
Proof.
  intros Ht. destruct (Htables t Ht) as (_ & _ & Hdel).
  unfold inline_tail. apply Forall_app. split.
  - destruct dels; repeat constructor. cbn [write_target]. intros Heq.
    apply Hdel.
    apply (of_table_not_child base t DELETE_COLLECTION (autoId env)).
    rewrite Heq. apply root_of_table.
  - repeat constructor. cbn [write_target]. apply base_not_child.
Qed.

Lemma inline_fresh (t dk : string) (row : Row) :
  st !! doc (collection base t) dk = Some (DRow row) ->
  melonFireRevision row <> Some r.
Proof. destruct Hfresh as (_ & H & _). apply H. Qed.

Lemma inline_query (t dk : string) (x : Row) :
  (dk, x) ∈ query_revisions st_inline (collection base t) r (r + 1)
  <-> exists ch raw,
        (t, ch) ∈ chs
        /\ last_of_id (pushed h ch) raw
        /\ dk = encodeURIComponent (id raw)
        /\ x = stored r raw
        /\ doc (collection base t) dk ∉ map ref (refs_of st base t ch).
Proof.
  apply (query_after st base chs h r base (inline_tail env base r dels)
           Hnodup (root_of_table base) inline_tail_rows inline_tail_tables
           inline_fresh).
Qed.

Lemma W_skip (under : DocRef) (p : DocRef) (cur : option Doc) :
  (forall t k, of_table base t (doc (collection under t) k)) ->
  (forall t, t ∈ chs.*1 -> ~ of_table base t p) ->
  foldl (write_effect p) cur
        (flat_map (table_writes under h r delRefs) chs) = cur.
Proof.
  intros Hunder Hp. apply write_effect_skip.
  eapply Forall_impl; [by apply (W_targets st base chs h r under)|].
  intros w (t & Ht & Hw) Heq. subst p. by apply (Hp t).
Qed.

Lemma inline_base :
  revisionFromBaseSnap (st_inline !! base)
  = (r + 1, (revisionFromBaseSnap (st !! base)).2).
Proof.
  subst st_inline W_inline.
  rewrite apply_writes_lookup, write_effect_app, inline_tail_effect.
  rewrite decide_True by done.
  rewrite W_skip; [|apply root_of_table|intros; apply of_table_not_base].
  rewrite (surjective_pairing (revisionFromBaseSnap _)).
  rewrite merge_base_revision. f_equal.
  unfold revisionFromBaseSnap, merge_base, as_base. cbn.
  by destruct (st !! base) as [[]|].
Qed.

Lemma inline_records (d : DeleteRecord) :
  d ∈ query_deletes st_inline base r (r + 1)
  <-> dels <> [] /\ d = {| revision := r; deletes := dels |}.
Proof.
  unfold query_deletes. rewrite list_elem_of_omap.
  assert (forall k,
    st_inline !! doc (collection base DELETE_COLLECTION) k
    = if decide (dels <> [] /\ k = autoId env)
      then Some (DDel {| revision := r; deletes := dels |})
      else st !! doc (collection base DELETE_COLLECTION) k) as Hlk.
  { intros k. subst st_inline W_inline.
    rewrite apply_writes_lookup, write_effect_app, inline_tail_effect.
    rewrite decide_False by (intros Heq; by eapply base_not_child).
    rewrite W_skip; [|apply root_of_table|].
    2: { intros t Ht Hof. apply of_table_not_child in Hof.
         by destruct (Htables t Ht) as (_ & _ & ?). }
    destruct (decide (dels <> [] /\ k = autoId env)) as [[Hd ->]|Hn].
    - rewrite decide_True; done.
    - rewrite decide_False; [done|]. intros [Hd Heq]. apply Hn.
      split; [done|]. rewrite !doc_collection in Heq.
      apply app_inv_head in Heq. by injection Heq. }
  split.
  - intros ([k dd] & Hin & Hf).
    apply elem_of_collection_docs in Hin. fold (doc (collection base DELETE_COLLECTION) k) in Hin.
    rewrite Hlk in Hin. cbn [snd] in Hf.
    destruct dd as [| | |d']; try done.
    destruct (Z.leb_spec r (revision d')); [|done].
    destruct (Z.ltb_spec (revision d') (r + 1)); [|done].
    injection Hf as ->. case_decide as Hk.
    + destruct Hk as [Hk _]. by injection Hin as <-.
    + destruct Hfresh as (_ & _ & Hdel & _).
      destruct (Hdel _ _ Hin). lia.
  - intros [Hne ->].
    exists (autoId env, DDel {| revision := r; deletes := dels |}). split.
    + apply elem_of_collection_docs.
      fold (doc (collection base DELETE_COLLECTION) (autoId env)).
      rewrite Hlk. by rewrite decide_True.
    + cbn. destruct (Z.leb_spec r r); [|lia].
      by destruct (Z.ltb_spec r (r + 1)); [|lia].
Qed.
(* - merging the documents of the revision, whichever root holds them - *)

Lemma merged_loads (st' : Store) (under : DocRef) :
  (forall t dk x,
     (dk, x) ∈ query_revisions st' (collection under t) r (r + 1) ->
     exists ch raw, (t, ch) ∈ chs /\ last_of_id (pushed h ch) raw
                    /\ x = stored r raw) ->
  exists cm1,
    mergeCreatesAndUpdates st' under r (r + 1) tables (init_changeMap tables)
    = Ok cm1
    /\ has_tables tables cm1
    /\ forall cm', marks_added cm1 cm' (deletes_name dels) ->
                   loads_of st' under r tables dels cm'.
Proof.
  intros Hq.
  destruct (merge_tables_get st' under r (r + 1) tables (init_changeMap tables))
    as (cm1 & Hm & _ & Hsome).
  { apply has_tables_init. }
  { intros t dk x _ Hin. destruct (Hq _ _ _ Hin) as (ch & raw & Hch & Hl & ->).
    change (id (stored r raw)) with (id raw).
    by rewrite (pushed_plain t ch raw Hch (last_of_id_elem _ _ Hl)). }
  exists cm1. split; [done|]. split.
  { intros t Ht. destruct (has_tables_init tables t Ht) as [tl Htl].
    destruct (Hsome _ _ Htl) as (tl' & -> & _). by eexists. }
  intros cm' [_ Hmarks] t Ht.
  destruct (has_tables_init tables t Ht) as [tl0 Htl0].
  pose proof (init_load _ _ _ Htl0) as ->.
  destruct (Hsome _ _ Htl0) as (tl1 & Htl1 & Hdel1 & Hget1).
  destruct (Hmarks _ _ Htl1) as (tl' & Htl' & Hupd & Hk).
  exists tl'. split; [done|]. split; [|split].
  - rewrite Hupd.
    eapply (merge_tables_NoDup _ _ _ _ _ _ _ Hm); [|exact Htl1].
    intros t' tl Htl. apply init_load in Htl as ->. constructor.
  - intros k. rewrite Hupd, Hget1, decide_True by done. reflexivity.
  - intros k. rewrite Hk, Hdel1. cbn [loadDeleted]. split; [|by right].
    intros [[v Hv]|?]; [done|done].
Qed.

Lemma inline_loads :
  exists cm,
    pull_run st_inline base tables r (r + 1) (init_changeMap tables) = Ok cm
    /\ has_tables tables cm
    /\ loads_of st_inline base r tables dels cm.
Proof.
  destruct (merged_loads st_inline base) as (cm1 & Hm & Hhas & Hloads).
  { intros t dk x Hin. apply inline_query in Hin
      as (ch & raw & Hch & Hl & _ & -> & _). by exists ch, raw. }
  unfold pull_run. rewrite Hm. cbn [rbind].
  destruct (rfoldl_marks (fun cm record => add_deletions cm (deletes record))
              (fun record => deletes_name (deletes record)) tables
              (query_deletes st_inline base r (r + 1)) cm1)
    as (cm & Hcm & Hmarks); [|done|].
  { intros b cm0 Hb Hcm0. apply inline_records in Hb as [_ ->].
    cbn [deletes].
    exact (add_deletions_marks tables dels cm0 dels_tables dels_decodable
             Hcm0). }
  exists cm. split; [done|]. split.
  { by eapply marks_added_has_tables. }
  apply Hloads. eapply marks_added_ext; [|exact Hmarks].
  intros t k. split.
  - intros (b & Hb & Hname). by apply inline_records in Hb as [_ ->].
  - intros (ids & i & Hin & Hi & Hdec).
    exists {| revision := r; deletes := dels |}. split.
    + apply inline_records. split; [|done]. intros Hnil.
      rewrite Hnil in Hin. by apply elem_of_nil in Hin.
    + by exists ids, i.
Qed.

(* - the side-batch path - *)

Let tokens := (revisionFromBaseSnap (st !! base)).2.
Let W_batch := flat_map (table_writes (batch_doc env base) h r delRefs) chs.
Let st_batch := apply_writes st (W_batch ++ batch_tail env base r tokens dels).

Lemma batch_tail_rows (p : DocRef) (cur : option Doc) (x : Row) :
  foldl (write_effect p) cur (batch_tail env base r tokens dels)
  = Some (DRow x) ->
  cur = Some (DRow x).
Proof. rewrite batch_tail_effect. by repeat case_decide. Qed.

Lemma batch_tail_tables (t dk : string) :
  t ∈ chs.*1 ->
  Forall (fun w => write_target w
                   <> doc (collection (batch_doc env base) t) dk)
         (batch_tail env base r tokens dels).
Proof.
  intros _. unfold batch_tail. repeat constructor; cbn [write_target].
  - apply base_not_child.
  - intros Heq. pose proof (batch_of_table base (autoId env) t dk) as Hof.
    fold (batch_doc env base) in Hof. rewrite <- Heq in Hof.
    by apply of_table_not_base in Hof.
Qed.

Lemma batch_fresh (t dk : string) (row : Row) :
  st !! doc (collection (batch_doc env base) t) dk = Some (DRow row) ->
  melonFireRevision row <> Some r.
Proof.
  destruct Hfresh as (_ & _ & _ & H). unfold batch_doc. by rewrite H.
Qed.

Lemma batch_query (t dk : string) (x : Row) :
  (dk, x) ∈ query_revisions st_batch (collection (batch_doc env base) t)
                            r (r + 1)
  <-> exists ch raw,
        (t, ch) ∈ chs
        /\ last_of_id (pushed h ch) raw
        /\ dk = encodeURIComponent (id raw)
        /\ x = stored r raw
        /\ doc (collection (batch_doc env base) t) dk
           ∉ map ref (refs_of st base t ch).
Proof.
  apply (query_after st base chs h r (batch_doc env base)
           (batch_tail env base r tokens dels)
           Hnodup (batch_of_table base (autoId env)) batch_tail_rows
           batch_tail_tables batch_fresh).
Qed.

Lemma batch_base :
  exists m,
    revisionFromBaseSnap (st_batch !! base) = (r + 1, Some m)
    /\ m !! r = Some (autoId env).
Proof.
  subst st_batch W_batch.
  rewrite apply_writes_lookup, write_effect_app, batch_tail_effect.
  rewrite decide_True by done.
  rewrite W_skip;
    [|apply (batch_of_table base (autoId env))
     |intros; apply of_table_not_base].
  rewrite (surjective_pairing (revisionFromBaseSnap _)).
  rewrite merge_base_revision.
  unfold revisionFromBaseSnap at 1, merge_base, as_base.
  cbn [snd melonBatchTokens].
  destruct (match st !! base with
            | Some (DBase b) => melonBatchTokens b
            | _ => None
            end) as [old|].
  - eexists. split; [done|]. apply lookup_union_Some_l, lookup_insert_eq.
  - eexists. split; [done|]. apply lookup_insert_eq.
Qed.

Lemma batch_root :
  st_batch !! batch_doc env base
  = Some (DBatch {| batchLatestRevision := r; batchLatestDate := now env;
                    batchDeletes := dels |}).
Proof.
  subst st_batch W_batch.
  rewrite apply_writes_lookup, write_effect_app, batch_tail_effect.
  rewrite decide_False
    by (unfold batch_doc; intros Heq; symmetry in Heq;
        by eapply base_not_child).
  by rewrite decide_True.
Qed.

Lemma batch_loads (m : gmap Z string) :
  m !! r = Some (autoId env) ->
  exists cm,
    pull_batch st_batch base tables (Some m) r (init_changeMap tables) = Ok cm
    /\ has_tables tables cm
    /\ loads_of st_batch (batch_doc env base) r tables dels cm.
Proof.
  intros Hm.
  destruct (merged_loads st_batch (batch_doc env base))
    as (cm1 & Hmerge & Hhas & Hloads).
  { intros t dk x Hin. apply batch_query in Hin
      as (ch & raw & Hch & Hl & _ & -> & _). by exists ch, raw. }
  unfold pull_batch. rewrite Hm. fold (batch_doc env base).
  rewrite Hmerge. cbn [rbind]. rewrite batch_root. cbn [batchDeletes].
  destruct (add_deletions_marks tables dels cm1 dels_tables dels_decodable
              Hhas) as (cm & Hcm & Hmarks).
  exists cm. split; [done|]. split; [|by apply Hloads].
  by eapply marks_added_has_tables.
Qed.

(* - from the change map to the lists of one table - *)

Lemma loads_result (st' : Store) (under : DocRef) (cm : ChangeLoadMap)
    (t : string) :
  loads_of st' under r tables dels cm ->
  t ∈ tables ->
  (forall dk x,
     (dk, x) ∈ query_revisions st' (collection under t) r (r + 1)
     <-> exists ch raw,
           (t, ch) ∈ chs
           /\ last_of_id (pushed h ch) raw
           /\ dk = encodeURIComponent (id raw)
           /\ x = stored r raw
           /\ doc (collection under t) dk ∉ map ref (refs_of st base t ch)) ->
  (forall ch raw,
     (t, ch) ∈ chs -> raw ∈ pushed h ch ->
     doc (collection under t) (encodeURIComponent (id raw))
       ∈ map ref (refs_of st base t ch) ->
     id raw ∈ found_ids st base t (deleted ch)) ->
  exists tl,
    cm !! t = Some tl
    /\ created (pulled_table tl) = []
    /\ (forall i, i ∈ deleted (pulled_table tl)
                  <-> i ∈ found_ids st base t (deleted (changes_of chs t)))
    /\ forall row,
         row ∈ updated (pulled_table tl)
         <-> exists raw,
               last_of_id (pushed h (changes_of chs t)) raw
               /\ row = stripped raw
               /\ id raw ∉ found_ids st base t (deleted (changes_of chs t)).
Proof.
  intros Hloads Ht Hq Hlink.
  destruct (Hloads t Ht) as (tl & Htl & Hnd & Hupd & Hdel).
  exists tl. split; [done|].
  destruct (pulled_table_lists tl _ (fun k => k ∈ found_ids st base t
                                             (deleted (changes_of chs t)))
              Hnd Hupd) as (Hc & Hd & Hu).
  { intros k. by rewrite Hdel, dels_found. }
  split; [done|]. split; [done|]. intros row. rewrite Hu. split.
  - intros [(k & Hk) [Hnot _]].
    apply last_for_key_origin in Hk as [?|(x & Hx & Hdec & ->)]; [done|].
    apply list_elem_of_fmap in Hx as ([dk x'] & -> & Hin). cbn [snd] in *.
    apply Hq in Hin as (ch & raw & Hch & Hl & _ & -> & _).
    rewrite (changes_of_in chs t ch Hnodup Hch) in *.
    exists raw. split; [done|]. split; [apply stripped_stored|exact Hnot].
  - intros (raw & Hl & -> & Hnot).
    destruct (decide (t ∈ chs.*1)) as [Hin|Hnotin].
    2: { rewrite (changes_of_notin chs t Hnotin) in Hl.
         apply last_of_id_elem in Hl. by apply elem_of_nil in Hl. }
    apply list_elem_of_fmap in Hin as ([t' ch] & Heq & Hch).
    cbn [fst] in Heq. subst t'.
    rewrite (changes_of_in chs t ch Hnodup Hch) in *.
    split; [|split; [exact Hnot|]].
    2: { exact (pushed_named t ch raw Hch (last_of_id_elem _ _ Hl)). }
    exists (id raw).
    rewrite <- (stripped_stored r raw). apply last_for_key_unique.
    + apply list_elem_of_fmap.
      exists (encodeURIComponent (id raw), stored r raw). split; [done|].
      apply Hq. exists ch, raw. repeat split; try done.
      intros Href. apply Hnot. apply (Hlink ch raw Hch); [|done].
      by apply last_of_id_elem.
    + exact (pushed_plain t ch raw Hch (last_of_id_elem _ _ Hl)).
    + intros x' Hx' Hdec'.
      apply list_elem_of_fmap in Hx' as ([dk x''] & -> & Hin).
      cbn [snd] in *.
      apply Hq in Hin as (ch' & raw' & Hch' & Hl' & _ & -> & _).
      pose proof (NoDup_fst_unique chs t ch' ch Hnodup Hch' Hch) as ->.
      f_equal. apply (last_of_id_unique (pushed h ch)); [done|done|].
      change (id (stored r raw')) with (id raw') in Hdec'.
      rewrite (pushed_plain t ch raw' Hch (last_of_id_elem _ _ Hl')) in Hdec'.
      by injection Hdec'.
Qed.

(* a pushed row whose document was deleted by the same push has its id
   among the found ones *)
Lemma inline_link (t : string) (ch : TableChanges loc) (raw : Row) :
  keyed_by_id st base chs ->
  (t, ch) ∈ chs -> raw ∈ pushed h ch ->
  doc (collection base t) (encodeURIComponent (id raw))
    ∈ map ref (refs_of st base t ch) ->
  id raw ∈ found_ids st base t (deleted ch).
Proof.
  intros Hkeyed Hch _ Href.
  apply list_elem_of_fmap in Href as (ref0 & Href & Hin).
  apply found_ids_refs. exists ref0. split; [done|].
  apply elem_of_existing_refs in Hin as (Hcand & d & Hd & Henc).
  rewrite Henc, decode_encode. f_equal.
  unfold delete_candidates in Hcand. rewrite <- Href in Hcand, Hd.
  apply elem_of_app in Hcand as [Hroot|Hside].
  - apply list_elem_of_fmap in Hroot as (i & Heq & Hi).
    rewrite !doc_collection in Heq. apply app_inv_head in Heq.
    injection Heq as Heq. apply encode_inj in Heq. rewrite Heq.
    apply (Hkeyed t ch i (doc (collection base t) (encodeURIComponent i)) d
             Hch Hi); [|by rewrite <- Heq].
    apply elem_of_delete_candidates. exists i. split; [left|by left].
  - apply list_elem_of_In, in_flat_map in Hside as (i & _ & Hside).
    apply list_elem_of_In, list_elem_of_fmap in Hside as (b & Heq & _).
    rewrite doc_collection, batch_table_doc in Heq.
    apply app_inv_head in Heq. discriminate Heq.
Qed.

Lemma batch_link (t : string) (ch : TableChanges loc) (raw : Row) :
  (t, ch) ∈ chs -> raw ∈ pushed h ch ->
  doc (collection (batch_doc env base) t) (encodeURIComponent (id raw))
    ∈ map ref (refs_of st base t ch) ->
  id raw ∈ found_ids st base t (deleted ch).
Proof.
  intros _ _ Href.
  apply list_elem_of_fmap in Href as (ref0 & Href & Hin).
  apply elem_of_existing_refs in Hin as (_ & d & Hd & _).
  destruct Hfresh as (_ & _ & _ & Hnone).
  rewrite <- Href in Hd. unfold batch_doc in Hd. by rewrite Hnone in Hd.
Qed.

(* - the pull that follows - *)

Lemma pull_after_push (w' : World) (pulledAt : option Z) :
  keyed_by_id st base chs ->
  store w' = st_inline \/ store w' = st_batch ->
  default MIN_REVISION pulledAt = r ->
  exists res,
    pullChanges tables base pulledAt w' = (Ok res, w')
    /\ timestamp res = r + 1
    /\ forall t,
         t ∈ tables ->
         exists tc,
           pulled res !! t = Some tc
           /\ created tc = []
           /\ (forall i, i ∈ deleted tc
                         <-> i ∈ found_ids st base t
                                   (deleted (changes_of chs t)))
           /\ forall row,
                row ∈ updated tc
                <-> exists raw,
                      last_of_id (pushed h (changes_of chs t)) raw
                      /\ row = stripped raw
                      /\ id raw ∉ found_ids st base t
                                    (deleted (changes_of chs t)).
Proof.
  intros Hkeyed [Hst|Hst] Hat.
  - destruct inline_loads as (cm & Hrun & Hhas & Hloads).
    destruct (pull_assemble tables base pulledAt w' r
                (revisionFromBaseSnap (st !! base)).2 cm)
      as (res & Hres & Hts & Hlk); [| done | | done |].
    { rewrite Hst. apply inline_base. }
    { rewrite pull_loop_run by apply Hfresh. by rewrite Hst. }
    exists res. split; [done|]. split; [done|]. intros t Ht.
    destruct (Hlk t Ht) as (tl & Htl & Hpulled).
    destruct (loads_result st_inline base cm t Hloads Ht (inline_query t)
                (fun ch raw => inline_link t ch raw Hkeyed))
      as (tl' & Htl' & Hrest).
    rewrite Htl in Htl'. injection Htl' as <-.
    exists (pulled_table tl). by split.
  - destruct batch_base as (m & Hbase & Hm).
    destruct (batch_loads m Hm) as (cm & Hrun & Hhas & Hloads).
    destruct (pull_assemble tables base pulledAt w' r (Some m) cm)
      as (res & Hres & Hts & Hlk); [| done | | done |].
    { by rewrite Hst. }
    { rewrite pull_loop_batch; [by rewrite Hst|].
      unfold has_token. by rewrite Hm. }
    exists res. split; [done|]. split; [done|]. intros t Ht.
    destruct (Hlk t Ht) as (tl & Htl & Hpulled).
    destruct (loads_result st_batch (batch_doc env base) cm t Hloads Ht
                (batch_query t) (batch_link t))
      as (tl' & Htl' & Hrest).
    rewrite Htl in Htl'. injection Htl' as <-.
    exists (pulled_table tl). by split.
Qed.

End RoundTrip.

(** ** The round trip *)

Lemma found_ids_changes (st : Store) (base : DocRef) (chs : PushChangeSet)
    (t k : string) :
  NoDup chs.*1 -> keyed_by_id st base chs ->
  k ∈ found_ids st base t (deleted (changes_of chs t))
  <-> k ∈ deleted (changes_of chs t) /\ has_document st base t k.
Proof.
  intros Hnd Hkeyed. destruct (decide (t ∈ chs.*1)) as [Hin|Hnotin].
  - apply list_elem_of_fmap in Hin as ([t' ch] & Heq & Hch).
    cbn [fst] in Heq. subst t'. rewrite (changes_of_in chs t ch Hnd Hch).
    by apply (found_ids_keyed st base chs).
  - rewrite (changes_of_notin chs t Hnotin). cbn. split.
    + intros H. by apply elem_of_nil in H.
    + intros [H _]. by apply elem_of_nil in H.
Qed.

(** C4. A successful push of changeset C at lastPulledAt = r, followed by a
    pull that starts at revision r (lastPulledAt = r, or null when r is the
    first revision), returns for every requested table: no created rows; as
    deleted exactly the ids of C.deleted for which a document existed in the
    store before the push, under the root or under a side batch; as updated
    exactly the last row pushed for each id of C.created and C.updated,
    without its reserved properties, unless its id is among the deleted ones
    returned; and r + 1 as timestamp.  This holds when the store holds
    nothing of revision r before the push, the tables of C are distinct,
    requested and not reserved names, the pushed ids decode to themselves and
    are not names inherited from Object.prototype, and the documents found
    for the deleted ids carry those ids. *)
Theorem push_then_pull (env : Env) (base : DocRef) (tables : list string)
    (params : SyncPushArgs) (pulledAt : option Z) (w w' : World) :
  NoDup (changes params).*1 ->
  (forall t, t ∈ (changes params).*1 ->
             t ∈ tables /\ t <> BATCH_COLLECTION /\ t <> DELETE_COLLECTION) ->
  (forall l, l ∈ pushed_rows (changes params) ->
             decodeURIComponent (id (deref (heap w) l))
             = Ok (id (deref (heap w) l))) ->
  (forall l, l ∈ pushed_rows (changes params) ->
             id (deref (heap w) l) ∉ prototype_names) ->
  fresh_revision (store w) base (lastPulledAt params) (autoId env) ->
  keyed_by_id (store w) base (changes params) ->
  pushChanges env base params w = (Ok tt, w') ->
  default MIN_REVISION pulledAt = lastPulledAt params ->
  exists res,
    pullChanges tables base pulledAt w' = (Ok res, w')
    /\ timestamp res = lastPulledAt params + 1
    /\ forall t,
         t ∈ tables ->
         exists tc,
           pulled res !! t = Some tc
           /\ created tc = []
           /\ (forall i, i ∈ deleted tc
                         <-> i ∈ deleted (changes_of (changes params) t)
                             /\ has_document (store w) base t i)
           /\ forall row,
                row ∈ updated tc
                <-> exists raw,
                      last_of_id (pushed (heap w)
                                         (changes_of (changes params) t)) raw
                      /\ row = stripped raw
                      /\ id raw ∉ deleted tc.
Proof.
  intros Hnodup Htables Hplain Hnames Hfresh Hkeyed Hpush Hat.
  apply pushChanges_done in Hpush as [_ Hstore].
  destruct (pull_after_push env base tables (store w) (heap w)
              (changes params) (lastPulledAt params) Hnodup Htables Hplain
              Hnames Hfresh w' pulledAt Hkeyed Hstore Hat)
    as (res & Hres & Hts & Hall).
  exists res. split; [exact Hres|]. split; [exact Hts|]. intros t Ht.
  destruct (Hall t Ht) as (tc & Htc & Hc & Hd & Hu).
  exists tc. split; [exact Htc|]. split; [exact Hc|]. split.
  - intros i. rewrite Hd. by apply found_ids_changes.
  - intros row. rewrite Hu. split.
    + intros (raw & Hl & Hrow & Hnot). exists raw.
      split; [exact Hl|]. split; [exact Hrow|]. by rewrite Hd.
    + intros (raw & Hl & Hrow & Hnot). exists raw.
      split; [exact Hl|]. split; [exact Hrow|]. by rewrite <- Hd.
Qed.

Lemma round_trip_fails :
  (* an id of C.deleted that was never stored does not come back *)
  (let w := empty_world [sample_row "bbb" "x"] in
   let pushed := pushChanges sample_env sample_base push_unknown_delete w in
   pushed.1 = Ok tt
   /\ pulled_deleted (pullChanges ["entries"%string] sample_base None pushed.2).1
                     "entries"
      = Ok [])
  (* and a pull from the start returns what earlier pushes stored as well *)
  /\ (let w := history_world [sample_row "bbb" "x"] in
      let pushed := pushChanges sample_env sample_base push_second_row w in
      pushed.1 = Ok tt
      /\ pulled_ids (pullChanges ["entries"%string] sample_base None pushed.2).1
                    "entries"
         = Ok ["aaa"%string; "bbb"%string]).
Proof. vm_compute. repeat split. Qed.

Lemma push_then_pull_witness :
  let w := history_world [sample_row "bbb" "x"] in
  let w' := (pushChanges sample_env sample_base push_second w).2 in
  exists res,
    pullChanges ["entries"%string] sample_base (Some 2) w' = (Ok res, w')
    /\ timestamp res = 3
    /\ exists tc,
         pulled res !! "entries"%string = Some tc
         /\ created tc = []
         /\ "aaa"%string ∈ deleted tc.
Proof.
  intros w w'.
  destruct (push_then_pull sample_env sample_base ["entries"%string]
              push_second (Some 2) w w')
    as (res & Hres & Hts & Htables).
  - apply NoDup_singleton.
  - intros t Ht. apply list_elem_of_singleton in Ht. subst t.
    split; [left|]. split; discriminate.
  - intros l Hl. apply list_elem_of_singleton in Hl. subst l. reflexivity.
  - intros l Hl. apply list_elem_of_singleton in Hl. subst l.
    apply (bool_decide_unpack _). vm_compute. exact I.
  - split; [reflexivity|]. split; [|split].
    + intros t dk row Hlk. unfold w, history_world in Hlk. cbn [store] in Hlk.
      apply lookup_insert_Some in Hlk as [[_ Heq]|[_ Hlk]]; [discriminate|].
      apply lookup_singleton_Some in Hlk as [_ Heq].
      injection Heq as <-. discriminate.
    + intros dk d Hlk. unfold w, history_world in Hlk. cbn [store] in Hlk.
      apply lookup_insert_Some in Hlk as [[_ Heq]|[_ Hlk]]; [discriminate|].
      apply lookup_singleton_Some in Hlk as [_ Heq]. discriminate.
    + intros t dk. unfold w, history_world. cbn [store].
      apply lookup_insert_None. split.
      * apply lookup_singleton_None. rewrite batch_table_doc.
        intros Heq. apply app_inv_head in Heq. discriminate.
      * intros Heq.
        pose proof (batch_of_table sample_base (autoId sample_env) t dk)
          as Hof.
        rewrite <- Heq in Hof. by apply of_table_not_base in Hof.
  - intros t ch i p d Hin Hi Hp Hlk.
    apply list_elem_of_singleton in Hin. injection Hin as -> ->.
    apply list_elem_of_singleton in Hi. subst i.
    vm_compute in Hp. apply list_elem_of_singleton in Hp. subst p.
    vm_compute in Hlk. injection Hlk as <-. reflexivity.
  - vm_compute. reflexivity.
  - reflexivity.
  - exists res. split; [exact Hres|]. split; [exact Hts|].
    destruct (Htables "entries"%string) as (tc & Htc & Hc & Hd & _); [left|].
    exists tc. split; [exact Htc|]. split; [exact Hc|].
    apply Hd. split.
    + vm_compute. left.
    + exists (sample_base ++ ["entries"; "aaa"]%string). split.
      * vm_compute. left.
      * vm_compute. eexists. reflexivity.
Defined.

(** * More about the push *)

(** ** The root document after a push *)

Lemma tables_skip (st : Store) (base : DocRef) (chs : PushChangeSet)
    (h : list Row) (r : Z) (under p : DocRef) (cur : option Doc) :
  NoDup chs.*1 ->
  (forall t k, of_table base t (doc (collection under t) k)) ->
  (forall t, t ∈ chs.*1 -> ~ of_table base t p) ->
  foldl (write_effect p) cur
        (flat_map (table_writes under h r (discovered st base chs)) chs)
  = cur.
Proof.
  intros Hnd Hunder Hp. apply write_effect_skip.
  eapply Forall_impl; [exact (W_targets st base chs h r under Hnd Hunder)|].
  intros w (t & Ht & Hw) Heq. subst p. by apply (Hp t).
Qed.

(* what a successful push leaves in the store, by the path it took *)
Lemma pushChanges_path (env : Env) (base : DocRef) (params : SyncPushArgs)
    (w w' : World) :
  pushChanges env base params w = (Ok tt, w') ->
  let r := lastPulledAt params in
  let chs := changes params in
  let delRefs := discovered (store w) base chs in
  let dels := deletes_map delRefs chs [] in
  nextRevisionToWrite (store w) base = r
  /\ store w'
     = apply_writes (store w)
         (if countChanges chs (delChanges delRefs) <? MAX_TRANSACTION_WRITES
          then flat_map (table_writes base (heap w) r delRefs) chs
               ++ inline_tail env base r dels
          else flat_map (table_writes (batch_doc env base) (heap w) r delRefs)
                        chs
               ++ batch_tail env base r
                    (revisionFromBaseSnap (store w !! base)).2 dels).
Proof.
  intros H r chs delRefs dels.
  unfold pushChanges, bind, findDeleteRefs in H.
  fold (discovered (store w) base (changes params)) in H.
  fold chs delRefs in H.
  destruct (countChanges chs (delChanges delRefs) <? MAX_TRANSACTION_WRITES).
  - unfold pushAllChanges in H. rewrite revisionFromBaseSnap_next in H.
    destruct (Z.eqb_spec (nextRevisionToWrite (store w) base)
                         (lastPulledAt params)) as [Hrev|]; [|done].
    rewrite pushAll_writes_spec in H.
    destruct (existsb _ (changes params)); [done|].
    injection H as <-. split; [done|]. cbn [store]. by rewrite Hrev.
  - unfold pushBatchedChanges, bind, get_store in H.
    rewrite revisionFromBaseSnap_next in H.
    destruct (Z.eqb_spec (nextRevisionToWrite (store w) base)
                         (lastPulledAt params)) as [Hrev|]; [|done].
    cbn [negb] in H.
    destruct (stage _ _ _ _ w) as [[dels0|err] w1] eqn:Hstage; [|done].
    apply stage_done in Hstage as [Hstore ->].
    split; [done|].
    unfold integrate in H. destruct (integrateFailure env).
    { destruct (rollback_throws
                  (doc (collection base BATCH_COLLECTION) (autoId env))
                  (changes params) (RemoteError s) w1) as (e & w2 & Hr).
      by rewrite Hr in H. }
    rewrite Hrev, Z.eqb_refl in H. cbn [negb] in H.
    injection H as <-. cbn [store].
    rewrite apply_writes_app. unfold batch_doc. subst r chs.
    rewrite <- Hrev, <- Hstore. reflexivity.
Qed.

(* the root after a successful push: the old one merged with the new
   revision, and with the batch token on the side-batch path *)
Lemma pushed_root (env : Env) (base : DocRef) (params : SyncPushArgs)
    (w w' : World) :
  NoDup (changes params).*1 ->
  pushChanges env base params w = (Ok tt, w') ->
  let r := lastPulledAt params in
  store w' !! base
  = Some (merge_base (store w !! base) r (now env)
            (if countChanges (changes params)
                  (delChanges (discovered (store w) base (changes params)))
                <? MAX_TRANSACTION_WRITES
             then None
             else Some (<[r := autoId env]>
                          (default ∅ (revisionFromBaseSnap
                                        (store w !! base)).2)))).
Proof.
  intros Hnd H r. apply pushChanges_path in H as [_ ->].
  rewrite apply_writes_lookup.
  destruct (_ <? _); rewrite write_effect_app.
  - rewrite inline_tail_effect, decide_True by done.
    rewrite tables_skip; [done|done|apply root_of_table|].
    intros; apply of_table_not_base.
  - rewrite batch_tail_effect, decide_True by done.
    rewrite tables_skip;
      [done|done|apply (batch_of_table base (autoId env))|].
    intros; apply of_table_not_base.
Qed.

Lemma token_at_merge (old : option Doc) (r : Z) (date : string)
    (tokens : option (gmap Z string)) (k : Z) :
  token_at (Some (merge_base old r date tokens)) k
  = match tokens with
    | Some new => match new !! k with
                  | Some tok => Some tok
                  | None => token_at old k
                  end
    | None => token_at old k
    end.
Proof.
  unfold token_at, token_of, revisionFromBaseSnap, merge_base, as_base.
  cbn [snd melonBatchTokens].
  destruct old as [[| b | |]|]; cbn [melonBatchTokens];
    destruct tokens as [new|]; try done;
    try (by destruct (new !! k)).
  destruct (melonBatchTokens b) as [m|]; [|by destruct (new !! k)].
  rewrite lookup_union. destruct (new !! k), (m !! k); done.
Qed.

(** X1. A successful push at [lastPulledAt = r] moves the revision read off
    the root from r to r + 1.  The batch tokens of the other revisions stay
    as they were; the token of revision r is the new side batch exactly when
    the push took the side-batch path. *)
Theorem push_advances_revision (env : Env) (base : DocRef)
    (params : SyncPushArgs) (w w' : World) :
  NoDup (changes params).*1 ->
  pushChanges env base params w = (Ok tt, w') ->
  let r := lastPulledAt params in
  nextRevisionToWrite (store w) base = r
  /\ nextRevisionToWrite (store w') base = r + 1
  /\ (forall k, k <> r ->
                token_at (store w' !! base) k = token_at (store w !! base) k)
  /\ token_at (store w' !! base) r
     = if countChanges (changes params)
            (delChanges (discovered (store w) base (changes params)))
          <? MAX_TRANSACTION_WRITES
       then token_at (store w !! base) r
       else Some (autoId env).
Proof.
  intros Hnd H r. pose proof (pushed_root env base params w w' Hnd H) as Hroot.
  apply pushChanges_path in H as [Hrev _]. fold r in Hroot, Hrev.
  split; [done|]. split; [|split].
  - rewrite <- revisionFromBaseSnap_next, Hroot. apply merge_base_revision.
  - intros k Hk. rewrite Hroot, token_at_merge. destruct (_ <? _); [done|].
    rewrite lookup_insert_ne by done. unfold token_at, token_of.
    destruct (revisionFromBaseSnap (store w !! base)).2 as [m|]; cbn.
    + by destruct (m !! k).
    + by rewrite lookup_empty.
  - rewrite Hroot, token_at_merge. destruct (_ <? _); [done|].
    by rewrite lookup_insert_eq.
Qed.

(** X2. After a successful push at [lastPulledAt = r], any further push at
    the same [lastPulledAt] is rejected as out of sync and changes nothing:
    a changeset cannot be applied twice. *)
Theorem push_replay_rejected (env env' : Env) (base : DocRef)
    (params params' : SyncPushArgs) (w w' : World) :
  NoDup (changes params).*1 ->
  pushChanges env base params w = (Ok tt, w') ->
  lastPulledAt params' = lastPulledAt params ->
  pushChanges env' base params' w'
  = (Err (OutOfSync (lastPulledAt params - 1) (lastPulledAt params + 1)), w').
Proof.
  intros Hnd H Hat.
  pose proof (pushed_root env base params w w' Hnd H) as Hroot.
  assert (nextRevisionToWrite (store w') base = lastPulledAt params + 1)
    as Hnext.
  { rewrite <- revisionFromBaseSnap_next, Hroot. apply merge_base_revision. }
  assert (nextRevisionToWrite (store w') base <> lastPulledAt params')
    as Hne by lia.
  clear Hroot. unfold pushChanges, bind, findDeleteRefs.
  rewrite <- Hnext, <- Hat.
  destruct (countChanges (changes params') _ <? _);
    [by apply pushAllChanges_stale|by apply pushBatchedChanges_stale].
Qed.

(** X3. A successful push leaves every document alone except the root, the
    documents of the pushed tables (under the root or under a side batch),
    and the one delete record or side-batch document it creates under the
    generated id. *)
Theorem push_frame (env : Env) (base : DocRef) (params : SyncPushArgs)
    (w w' : World) (p : DocRef) :
  NoDup (changes params).*1 ->
  pushChanges env base params w = (Ok tt, w') ->
  p <> base ->
  p <> doc (collection base DELETE_COLLECTION) (autoId env) ->
  p <> doc (collection base BATCH_COLLECTION) (autoId env) ->
  (forall t, t ∈ (changes params).*1 -> ~ of_table base t p) ->
  store w' !! p = store w !! p.
Proof.
  intros Hnd H Hbase Hdel Hbatch Htables.
  apply pushChanges_path in H as [_ ->].
  rewrite apply_writes_lookup.
  destruct (_ <? _); rewrite write_effect_app.
  - rewrite inline_tail_effect, decide_False by done.
    rewrite decide_False by (by intros [_ ?]).
    apply tables_skip; [done|apply root_of_table|done].
  - rewrite batch_tail_effect, decide_False by done.
    rewrite decide_False by done.
    apply tables_skip; [done|apply (batch_of_table base (autoId env))|done].
Qed.

(** ** A push without changes *)

Lemma existing_refs_nil (st : Store) : existing_refs st [] = [].
Proof. reflexivity. Qed.

Lemma discovered_no_deletes (st : Store) (base : DocRef) (chs : PushChangeSet)
    (acc : AllDeleteRefs) :
  Forall (fun e : string * TableChanges loc => deleted e.2 = []) chs ->
  foldl (findDeleteRefs_table st base) acc chs = acc.
Proof.
  revert acc. induction chs as [|e chs IH]; intros acc Hall; [done|].
  apply Forall_cons in Hall as [He Hall]. cbn [foldl]. rewrite IH by done.
  unfold findDeleteRefs_table. rewrite He. reflexivity.
Qed.

Lemma no_rows_no_writes (base : DocRef) (h : list Row) (rev : Z)
    (chs : PushChangeSet) (acc : list Write * TableDeletes) :
  Forall (fun e : string * TableChanges loc =>
            created e.2 = [] /\ updated e.2 = []) chs ->
  rfoldl (pushAll_table h base rev ∅) acc chs
  = if existsb (fun e : string * TableChanges loc => inherited e.1) chs
    then Err TypeError
    else Ok acc.
Proof.
  revert acc. induction chs as [|e chs IH]; intros [ws td] Hall; [done|].
  apply Forall_cons in Hall as [[Hc Hu] Hall]. cbn [rfoldl existsb].
  unfold pushAll_table at 1. rewrite Hc, Hu, lookup_empty.
  destruct (inherited e.1); [done|]. cbn [rbind orb fst snd map].
  rewrite !app_nil_r. by apply IH.
Qed.

Lemma no_rows_count {R} (chs : list (string * TableChanges R)) :
  Forall (fun e : string * TableChanges R =>
            created e.2 = [] /\ updated e.2 = []) chs ->
  countChanges chs 0 = 0.
Proof.
  intros Hall. rewrite countChanges_rowCount. unfold effective.
  rewrite bool_decide_false by lia.
  induction Hall as [|e chs [Hc Hu] _ IH]; [done|].
  cbn [rowCount]. rewrite Hc, Hu. cbn [length]. lia.
Qed.

(** X4. A push of a changeset without rows and without deleted ids, at the
    right revision, writes the root only: the revision and the date.  An
    empty push still uses up a revision.  The one exception is a changeset
    with a table named after a property every object inherits (toString,
    constructor, ...): the test [table in delRefs] of line 421 holds for it,
    what it finds has no [map], the body of the transaction throws a
    TypeError and nothing is written. *)
Theorem empty_push (env : Env) (base : DocRef) (params : SyncPushArgs)
    (w : World) :
  Forall (fun e : string * TableChanges loc =>
            created e.2 = [] /\ updated e.2 = [] /\ deleted e.2 = [])
         (changes params) ->
  nextRevisionToWrite (store w) base = lastPulledAt params ->
  pushChanges env base params w
  = if existsb (fun e : string * TableChanges loc => inherited e.1)
               (changes params)
    then (Err TypeError, w)
    else (Ok tt,
          {| store := <[base := merge_base (store w !! base)
                                           (lastPulledAt params)
                                           (now env) None]> (store w);
             heap := heap w;
             commits := commits w |}).
Proof.
  intros Hall Hrev.
  assert (Forall (fun e : string * TableChanges loc => deleted e.2 = [])
                 (changes params)) as Hdel.
  { eapply Forall_impl; [exact Hall|]. by intros e (_ & _ & ?). }
  assert (Forall (fun e : string * TableChanges loc =>
                    created e.2 = [] /\ updated e.2 = [])
                 (changes params)) as Hrows.
  { eapply Forall_impl; [exact Hall|]. by intros e (? & ? & _). }
  unfold pushChanges, bind, findDeleteRefs.
  rewrite discovered_no_deletes by done.
  change (delChanges ∅) with 0. rewrite no_rows_count by done.
  change (0 <? MAX_TRANSACTION_WRITES) with true. cbn match.
  unfold pushAllChanges. rewrite revisionFromBaseSnap_next, Hrev, Z.eqb_refl.
  cbn [negb].
  unfold pushAll_writes. rewrite no_rows_no_writes by done.
  by destruct (existsb _ (changes params)).
Qed.

(** ** The row documents a push writes *)

Lemma effect_rows (P : DocRef -> Row -> Prop) (ws : list Write) (p : DocRef)
    (cur : option Doc) (row : Row) :
  (forall p' x, WSet p' (DRow x) ∈ ws -> P p' x) ->
  foldl (write_effect p) cur ws = Some (DRow row) ->
  cur = Some (DRow row) \/ P p row.
Proof.
  revert cur. induction ws as [|w ws IH]; intros cur HP H; [by left|].
  cbn [foldl] in H. apply IH in H as [H|H]; [|by right|].
  2: { intros p' x Hin. apply HP. by right. }
  unfold write_effect in H. case_decide as Hw; [|by left].
  destruct w as [p' d| |]; [|done|done].
  cbn in Hw. subst p'. injection H as ->. right. apply HP. left.
Qed.

Lemma table_sets_rows (under : DocRef) (h : list Row) (r : Z)
    (delRefs : AllDeleteRefs) (chs : PushChangeSet) (p : DocRef) (x : Row) :
  WSet p (DRow x) ∈ flat_map (table_writes under h r delRefs) chs ->
  exists t ch l,
    (t, ch) ∈ chs /\ l ∈ created ch ++ updated ch
    /\ x = stored r (deref h l)
    /\ p = doc (collection under t) (encodeURIComponent (id (deref h l))).
Proof.
  intros Hin. apply list_elem_of_In, in_flat_map in Hin as ([t ch] & He & Hin).
  apply list_elem_of_In in He, Hin. unfold table_writes in Hin.
  apply elem_of_app in Hin as [Hin|Hin].
  - unfold table_sets, pushed in Hin. rewrite map_map in Hin.
    apply list_elem_of_fmap in Hin as (l & Heq & Hl). injection Heq as -> ->.
    by exists t, ch, l.
  - unfold table_dels in Hin. destruct (delRefs !! _); [|by apply elem_of_nil in Hin].
    by apply list_elem_of_fmap in Hin as (? & ? & _).
Qed.

(** X5. Every row document a successful push writes is one of the pushed
    rows, stored under the percent-encoded id in its table (under the root
    or under the new side batch), stamped with the revision of the push and
    without [_status] and [_changed]; the other row documents are as they
    were. *)
Theorem pushed_documents_clean (env : Env) (base : DocRef)
    (params : SyncPushArgs) (w w' : World) (p : DocRef) (row : Row) :
  pushChanges env base params w = (Ok tt, w') ->
  store w' !! p = Some (DRow row) ->
  store w !! p = Some (DRow row)
  \/ exists t ch l,
       (t, ch) ∈ changes params
       /\ l ∈ created ch ++ updated ch
       /\ row = withRevision (removeWatermelonInternals (deref (heap w) l))
                             (lastPulledAt params)
       /\ melonFireRevision row = Some (lastPulledAt params)
       /\ _status row = None /\ _changed row = None
       /\ id row = id (deref (heap w) l)
       /\ (p = doc (collection base t) (encodeURIComponent (id row))
           \/ p = doc (collection
                         (doc (collection base BATCH_COLLECTION) (autoId env))
                         t)
                      (encodeURIComponent (id row))).
Proof.
  intros H Hlk. apply pushChanges_path in H as [_ Hst].
  rewrite Hst, apply_writes_lookup in Hlk. clear Hst.
  destruct (_ <? _).
  - apply (effect_rows
             (fun p x => exists t ch l,
                (t, ch) ∈ changes params /\ l ∈ created ch ++ updated ch
                /\ x = stored (lastPulledAt params) (deref (heap w) l)
                /\ p = doc (collection base t)
                           (encodeURIComponent (id (deref (heap w) l)))))
      in Hlk as [Hlk|(t & ch & l & Hch & Hl & -> & ->)]; [by left| |].
    + right. exists t, ch, l. repeat split; try done. by left.
    + intros p' x Hin. apply elem_of_app in Hin as [Hin|Hin].
      * by apply table_sets_rows in Hin.
      * unfold inline_tail in Hin. apply elem_of_app in Hin as [Hin|Hin].
        -- destruct (deletes_map _ _ _); [by apply elem_of_nil in Hin|].
           by apply list_elem_of_singleton in Hin.
        -- by apply list_elem_of_singleton in Hin.
  - apply (effect_rows
             (fun p x => exists t ch l,
                (t, ch) ∈ changes params /\ l ∈ created ch ++ updated ch
                /\ x = stored (lastPulledAt params) (deref (heap w) l)
                /\ p = doc (collection (batch_doc env base) t)
                           (encodeURIComponent (id (deref (heap w) l)))))
      in Hlk as [Hlk|(t & ch & l & Hch & Hl & -> & ->)]; [by left| |].
    + right. exists t, ch, l. repeat split; try done. by right.
    + intros p' x Hin. apply elem_of_app in Hin as [Hin|Hin].
      * by apply table_sets_rows in Hin.
      * unfold batch_tail in Hin.
        apply elem_of_cons in Hin as [Hin|Hin]; [done|].
        by apply list_elem_of_singleton in Hin.
Qed.

(** ** Delete reference discovery *)

(** X6. [findDeleteRefs] reads only.  For a table of the changeset it returns
    exactly the documents that exist for a deleted id of that table, looked
    up under the root and under every side batch by the percent-encoded id;
    each comes with the percent-encoded id its data carries, which decodes
    back to that id.  A table without such a document, or outside the
    changeset, has no entry. *)
Theorem findDeleteRefs_finds_existing (base : DocRef) (params : SyncPushArgs)
    (w : World) :
  NoDup (changes params).*1 ->
  exists delRefs,
    findDeleteRefs base params w = (Ok delRefs, w)
    /\ (forall t, t ∉ (changes params).*1 -> delRefs !! t = None)
    /\ (forall t, delRefs !! t <> Some [])
    /\ forall t ch r,
         (t, ch) ∈ changes params ->
         r ∈ default [] (delRefs !! t)
         <-> (exists i,
                i ∈ deleted ch
                /\ (ref r = doc (collection base t) (encodeURIComponent i)
                    \/ exists b d,
                         store w !! doc (collection base BATCH_COLLECTION) b
                         = Some d
                         /\ ref r
                            = doc (collection
                                     (doc (collection base BATCH_COLLECTION) b)
                                     t)
                                  (encodeURIComponent i)))
             /\ exists d,
                  store w !! ref r = Some d
                  /\ encodedId r = encodeURIComponent (data_id d)
                  /\ decodeURIComponent (encodedId r) = Ok (data_id d).
Proof.
  intros Hnd. exists (discovered (store w) base (changes params)).
  split; [reflexivity|]. split; [|split].
  - intros t Ht. by apply discovered_lookup_notin.
  - intros t Heq. destruct (decide (t ∈ (changes params).*1)) as [Ht|Ht].
    + apply list_elem_of_fmap in Ht as ([t' ch] & -> & Hch).
      rewrite (discovered_lookup_in _ _ _ _ _ Hnd Hch) in Heq. cbn [fst] in Heq.
      by destruct (refs_of _ _ _ _).
    + by rewrite discovered_lookup_notin in Heq.
  - intros t ch r Hch.
    rewrite (discovered_lookup_in _ _ _ _ _ Hnd Hch).
    assert (default [] match refs_of (store w) base t ch with
                       | [] => None
                       | refs => Some refs
                       end = refs_of (store w) base t ch) as ->
      by (by destruct (refs_of _ _ _ _)).
    unfold refs_of. rewrite elem_of_existing_refs, elem_of_delete_candidates.
    split.
    + intros [Hc (d & Hd & Henc)]. split; [done|]. exists d.
      split; [done|]. split; [done|]. by rewrite Henc, decode_encode.
    + intros [Hc (d & Hd & Henc & _)]. split; [done|]. by exists d.
Qed.

(** ** The size of the inline transaction *)

Lemma delChanges_insert (m : AllDeleteRefs) (t : string)
    (refs : list DeleteRef) :
  m !! t = None ->
  delChanges (<[t := refs]> m) = delChanges m + Z.of_nat (length refs).
Proof.
  intros Hm. unfold delChanges.
  rewrite (map_fold_insert_L (fun _ refs acc => acc + Z.of_nat (length refs)));
    [done| |done].
  intros. lia.
Qed.

Lemma findDeleteRefs_table_fresh (st : Store) (base : DocRef)
    (acc : AllDeleteRefs) (e : string * TableChanges loc) :
  acc !! e.1 = None ->
  findDeleteRefs_table st base acc e
  = match refs_of st base e.1 e.2 with
    | [] => acc
    | refs => <[e.1 := refs]> acc
    end.
Proof.
  intros Hacc. apply map_eq. intros t.
  rewrite findDeleteRefs_table_lookup by done. unfold refs_of.
  destruct (existing_refs _ _) as [|r0 refs] eqn:Hrefs.
  - case_decide; [by subst|done].
  - case_decide as Ht.
    + subst t. by rewrite lookup_insert_eq.
    + by rewrite lookup_insert_ne.
Qed.

Lemma delChanges_discovered_from (st : Store) (base : DocRef)
    (chs : PushChangeSet) (acc : AllDeleteRefs) :
  NoDup chs.*1 ->
  (forall t, t ∈ chs.*1 -> acc !! t = None) ->
  delChanges (foldl (findDeleteRefs_table st base) acc chs)
  = delChanges acc + refCount st base chs.
Proof.
  revert acc. induction chs as [|e chs IH]; intros acc Hnd Hacc.
  - cbn. lia.
  - rewrite fmap_cons in Hnd. apply NoDup_cons in Hnd as [He Hnd].
    cbn [foldl refCount foldr].
    rewrite findDeleteRefs_table_fresh by (apply Hacc; left).
    rewrite IH; [|done|].
    + destruct (refs_of st base e.1 e.2) as [|r0 refs] eqn:Hrefs;
        [cbn [length]; fold (refCount st base chs); lia|].
      rewrite delChanges_insert by (apply Hacc; left).
      fold (refCount st base chs). lia.
    + intros t Ht.
      destruct (refs_of st base e.1 e.2); [apply Hacc; by right|].
      rewrite lookup_insert_ne; [apply Hacc; by right|].
      intros <-. done.
Qed.

Lemma delChanges_discovered (st : Store) (base : DocRef)
    (chs : PushChangeSet) :
  NoDup chs.*1 ->
  delChanges (discovered st base chs) = refCount st base chs.
Proof.
  intros Hnd. unfold discovered.
  rewrite delChanges_discovered_from by done. reflexivity.
Qed.

Lemma table_writes_length (under base : DocRef) (h : list Row) (r : Z)
    (st : Store) (chs sub : PushChangeSet) :
  NoDup chs.*1 -> sub ⊆ chs ->
  Z.of_nat (length (flat_map (table_writes under h r (discovered st base chs))
                             sub))
  = rowCount sub + refCount st base sub.
Proof.
  intros Hnd. induction sub as [|[t ch] sub IH]; intros Hsub; [done|].
  cbn [flat_map rowCount refCount foldr]. fold (refCount st base sub).
  rewrite length_app, Nat2Z.inj_add, IH.
  2: { intros x Hx. apply Hsub. by right. }
  unfold table_writes, table_sets, table_dels, pushed. cbn [fst snd].
  rewrite (discovered_lookup_in st base chs t ch Hnd) by (apply Hsub; left).
  rewrite length_app, !length_map, length_app.
  destruct (refs_of st base t ch) as [|r0 refs];
    rewrite ?length_map; cbn [length]; lia.
Qed.

Lemma refCount_nonneg (st : Store) (base : DocRef) (chs : PushChangeSet) :
  0 <= refCount st base chs.
Proof.
  induction chs as [|e chs IH]; cbn [refCount foldr]; [done|].
  fold (refCount st base chs). lia.
Qed.

Lemma refCount_zero (st : Store) (base : DocRef) (chs : PushChangeSet) :
  refCount st base chs = 0
  <-> forall t ch, (t, ch) ∈ chs -> refs_of st base t ch = [].
Proof.
  induction chs as [|[t0 ch0] chs IH]; cbn [refCount foldr].
  - split; [|done]. intros _ t ch Hin. by apply elem_of_nil in Hin.
  - fold (refCount st base chs). cbn [fst snd].
    pose proof (refCount_nonneg st base chs). split.
    + intros Hz t ch Hin. apply elem_of_cons in Hin as [[= -> ->]|Hin].
      * destruct (refs_of st base t0 ch0); [done|]. cbn [length] in Hz. lia.
      * apply IH; [lia|done].
    + intros Hall. rewrite (Hall t0 ch0) by left. cbn [length].
      rewrite (proj2 IH); [done|]. intros t ch Hin. apply Hall. by right.
Qed.

Lemma deletes_map_nil (st : Store) (base : DocRef) (chs : PushChangeSet) :
  NoDup chs.*1 ->
  deletes_map (discovered st base chs) chs [] = []
  <-> refCount st base chs = 0.
Proof.
  intros Hnd. rewrite refCount_zero. split.
  - intros Hnil t ch Hin.
    destruct (refs_of st base t ch) as [|r0 refs] eqn:Hrefs; [done|].
    assert ((t, map encodedId (r0 :: refs))
              ∈ deletes_map (discovered st base chs) chs []) as Hmem.
    { apply deletes_map_spec; [done|]. split.
      - apply list_elem_of_fmap. by exists (t, ch).
      - exists (r0 :: refs). split; [|done].
        by rewrite (discovered_lookup_in _ _ _ _ _ Hnd Hin), Hrefs. }
    rewrite Hnil in Hmem. by apply elem_of_nil in Hmem.
  - intros Hall.
    destruct (deletes_map _ chs []) as [|[t ids] dels] eqn:Hd; [done|].
    assert ((t, ids) ∈ deletes_map (discovered st base chs) chs []) as Hmem
      by (rewrite Hd; left).
    apply deletes_map_spec in Hmem as (Ht & refs & Hrefs & _); [|done].
    apply list_elem_of_fmap in Ht as ([t' ch] & -> & Hch). cbn [fst] in Hrefs.
    rewrite (discovered_lookup_in _ _ _ _ _ Hnd Hch), (Hall _ _ Hch) in Hrefs.
    done.
Qed.

(** X7. The inline transaction performs exactly [countChanges + 1] writes:
    one per created or updated row, one per discovered delete reference, one
    delete record if there is any such reference, and the root.  So it holds
    at most 500 writes whenever the planner chose the inline path.  The body
    completes, with these writes, unless a table without discovered
    references is named after a property every object inherits; then it
    throws a TypeError. *)
Theorem inline_transaction_size (env : Env) (h : list Row) (base : DocRef)
    (rev : Z) (chs : PushChangeSet) (st : Store) :
  NoDup chs.*1 ->
  let delRefs := discovered st base chs in
  if existsb (throwing delRefs) chs
  then pushAll_writes env h base rev chs delRefs = Err TypeError
  else exists ws,
         pushAll_writes env h base rev chs delRefs = Ok ws
         /\ Z.of_nat (length ws) = countChanges chs (delChanges delRefs) + 1
         /\ ((countChanges chs (delChanges delRefs) <? MAX_TRANSACTION_WRITES)
              = true
             -> Z.of_nat (length ws) <= MAX_TRANSACTION_WRITES).
Proof.
  intros Hnd delRefs. rewrite pushAll_writes_spec.
  destruct (existsb (throwing delRefs) chs); [done|].
  eexists. split; [reflexivity|].
  match goal with |- ?n = _ /\ _ =>
    assert (n = countChanges chs (delChanges delRefs) + 1) as Hn
  end.
  { subst delRefs. unfold inline_tail.
    rewrite !length_app, !Nat2Z.inj_add.
    rewrite (table_writes_length base base h rev st chs chs Hnd) by done.
    rewrite countChanges_rowCount, delChanges_discovered by done.
    unfold effective. pose proof (refCount_nonneg st base chs) as Hnn.
    pose proof (deletes_map_nil st base chs Hnd) as Hnil.
    destruct (deletes_map (discovered st base chs) chs []) as [|d dels].
    - rewrite (proj1 Hnil) by done. rewrite bool_decide_false by lia.
      cbn [length]. lia.
    - assert (refCount st base chs <> 0) as Hne
        by (intros Hz; by apply Hnil in Hz).
      rewrite bool_decide_true by lia. cbn [length]. lia. }
  split; [done|]. intros Hlt. apply Z.ltb_lt in Hlt. lia.
Qed.

(** ** What staging commits, whatever the outcome *)

Lemma keeps_ret {A} (I : World -> Prop) (P : A -> Prop) (a : A) :
  P a -> keeps I P (ret a).
Proof. intros HP w HI. split; [done|]. by intros a' [= <-]. Qed.

Lemma keeps_throw {A} (I : World -> Prop) (P : A -> Prop) (e : Error) :
  keeps I P (throw e).
Proof. intros w HI. by split. Qed.

Lemma keeps_lift {A} (I : World -> Prop) (P : A -> Prop) (r : Result A) :
  (forall a, r = Ok a -> P a) -> keeps I P (lift r).
Proof. intros HP w HI. by split. Qed.

Lemma keeps_bind {A B} (I : World -> Prop) (P : A -> Prop) (R : B -> Prop)
    (m : M A) (k : A -> M B) :
  keeps I P m -> (forall a, P a -> keeps I R (k a)) -> keeps I R (bind m k).
Proof.
  intros Hm Hk w HI. unfold bind. destruct (Hm w HI) as [HI1 HP].
  destruct (m w) as [[a|e] w1]; cbn [fst snd] in *; [|by split].
  by apply Hk; [apply HP|].
Qed.

Lemma keeps_weaken {A} (I : World -> Prop) (P P' : A -> Prop) (m : M A) :
  (forall a, P a -> P' a) -> keeps I P m -> keeps I P' m.
Proof.
  intros HPP Hm w HI. destruct (Hm w HI) as [HI1 HP]. split; [done|].
  intros a Ha. by apply HPP, HP.
Qed.

Lemma keeps_mfoldl {A B} (I : World -> Prop) (P : A -> Prop)
    (f : A -> B -> M A) (l : list B) (a : A) :
  (forall a b, b ∈ l -> P a -> keeps I P (f a b)) ->
  P a -> keeps I P (mfoldl f a l).
Proof.
  revert a. induction l as [|b l IH]; intros a Hf Ha; cbn [mfoldl].
  - by apply keeps_ret.
  - eapply keeps_bind; [apply Hf; [left|done]|].
    intros a' Ha'. apply IH; [|done]. intros a0 b0 Hb0. apply Hf. by right.
Qed.

Section Trace.
Context (Q : Write -> Prop) (st0 : Store) (c0 : list (list Write)).
Context (d : DocRef).

Let I := committed_so_far Q st0 c0.
Let P := writer_in_bounds Q d.

Lemma keeps_commit (b : WriteBatch) :
  Z.of_nat (length (writes b)) <= MAX_TRANSACTION_WRITES ->
  Forall Q (writes b) ->
  keeps I (fun b' => writes b' = writes b /\ committed b' = true)
        (commit_batch b).
Proof.
  intros Hlen HQ w (new & Hc & Hs & Hall). unfold commit_batch.
  destruct (committed b); cbn [fst snd].
  - split; [by exists new|done].
  - split; [|by intros b' [= <-]].
    exists (new ++ [writes b]). cbn [commits store].
    rewrite Hc, Hs, app_assoc, concat_app, apply_writes_app.
    cbn [concat]. rewrite app_nil_r. split; [done|]. split; [done|].
    apply Forall_app. split; [done|]. by repeat constructor.
Qed.

Lemma keeps_flushBatch (bw : BatchWriter.t) :
  Z.of_nat (length (writes (BatchWriter.batch bw))) <= MAX_TRANSACTION_WRITES ->
  Forall Q (writes (BatchWriter.batch bw)) ->
  BatchWriter.bdoc bw = d ->
  keeps I (fun bw' => P bw' /\ BatchWriter.count bw' = 0)
        (BatchWriter.flushBatch bw).
Proof.
  intros Hle HQ Hd. unfold BatchWriter.flushBatch.
  eapply keeps_bind; [by apply keeps_commit|].
  intros b' _. apply keeps_ret. unfold P, writer_in_bounds. cbn.
  unfold MAX_TRANSACTION_WRITES. repeat split; try done; lia.
Qed.

Lemma keeps_flushBatch_detached (bw : BatchWriter.t) :
  Z.of_nat (length (writes (BatchWriter.batch bw))) = BatchWriter.count bw ->
  BatchWriter.count bw <= MAX_TRANSACTION_WRITES ->
  Forall Q (writes (BatchWriter.batch bw)) ->
  BatchWriter.bdoc bw = d ->
  keeps I (fun bw' => P bw' /\ committed (BatchWriter.batch bw') = true)
        (BatchWriter.flushBatch_detached bw).
Proof.
  intros Hlen Hle HQ Hd w HI.
  unfold BatchWriter.flushBatch_detached.
  destruct (keeps_commit (BatchWriter.batch bw)) with (w := w)
    as [HI1 Hb]; [lia|done|done|].
  unfold commit_batch in *.
  destruct (committed (BatchWriter.batch bw)) eqn:Hcm; cbn [fst snd] in *.
  - split; [done|]. intros a [= <-]. unfold P, writer_in_bounds.
    rewrite Hcm. by repeat split.
  - split; [done|]. intros a [= <-]. unfold P, writer_in_bounds. cbn.
    by repeat split.
Qed.

Lemma keeps_write (t : string) (rec : Row) (bw : BatchWriter.t) :
  P bw ->
  (forall k x, Q (WSet (doc (collection d t) k) x)) ->
  keeps I P (BatchWriter.write t rec bw).
Proof.
  intros (Hlen & Hle & Hlt & HQ & Hd) Hset. unfold BatchWriter.write.
  eapply keeps_bind.
  { apply (keeps_lift I
             (fun b => committed (BatchWriter.batch bw) = false
                       /\ b = {| writes := writes (BatchWriter.batch bw)
                                   ++ [WSet (doc (collection d t)
                                               (encodeURIComponent (id rec)))
                                            (DRow (withRevision rec
                                                     (BatchWriter.brevision bw)))];
                                 committed := false |})).
    intros b. unfold batch_queue. rewrite Hd.
    destruct (committed (BatchWriter.batch bw)); [done|]. by intros [= <-]. }
  intros b [Hopen ->]. specialize (Hlt Hopen).
  unfold BatchWriter.bumpCount. cbv zeta.
  set (bw1 := BatchWriter.with_batch (BatchWriter.with_batch bw _ _) _ _).
  assert (Z.of_nat (length (writes (BatchWriter.batch bw1)))
          = BatchWriter.count bw1
          /\ BatchWriter.count bw1 = BatchWriter.count bw + 1
          /\ Forall Q (writes (BatchWriter.batch bw1))
          /\ BatchWriter.bdoc bw1 = d) as (H1 & H2 & H3 & H4).
  { subst bw1. cbn. rewrite length_app, Nat2Z.inj_add. cbn [length].
    split; [lia|]. split; [done|]. split; [|done].
    apply Forall_app. split; [done|]. repeat constructor. apply Hset. }
  destruct (Z.eqb_spec (BatchWriter.count bw1) MAX_TRANSACTION_WRITES)
    as [Heq|Hne].
  - eapply keeps_weaken; [|apply keeps_flushBatch; [lia|done|done]].
    by intros a [Ha _].
  - apply keeps_ret. unfold P, writer_in_bounds.
    split; [done|]. split; [lia|]. split; [lia|]. by split.
Qed.

Lemma queue_deletes_cases (b b' : WriteBatch) (refs : list DocRef) :
  BatchWriter.queue_deletes b refs = Ok b' ->
  (refs = [] /\ b' = b)
  \/ (committed b = false
      /\ b' = {| writes := writes b ++ map WDelete refs; committed := false |}).
Proof.
  intros H. destruct (committed b) eqn:Hcm.
  - destruct refs as [|r refs].
    + left. split; [done|]. by injection H as <-.
    + by rewrite queue_deletes_committed in H.
  - right. split; [done|]. rewrite queue_deletes_open in H by done.
    by injection H as <-.
Qed.

Lemma Forall_take_drop {A} (R : A -> Prop) (l : list A) (n m : nat) :
  Forall R l -> Forall R (take n (drop m l)).
Proof. intros H. by apply Forall_take, Forall_drop. Qed.

(* the loop over the rest of the references: the batch is fresh, or it is
   committed, or nothing is left for the blocks to come *)
Lemma keeps_deleted_blocks (fuel : nat) (restRefs : list DocRef) (iBlock : Z)
    (bw : BatchWriter.t) :
  0 <= iBlock ->
  Forall (fun r => Q (WDelete r)) restRefs ->
  Z.of_nat (length (writes (BatchWriter.batch bw))) = BatchWriter.count bw ->
  BatchWriter.count bw <= MAX_TRANSACTION_WRITES ->
  Forall Q (writes (BatchWriter.batch bw)) ->
  BatchWriter.bdoc bw = d ->
  (committed (BatchWriter.batch bw) = false ->
   BatchWriter.count bw < MAX_TRANSACTION_WRITES
   /\ (BatchWriter.count bw = 0
       \/ Z.of_nat (length restRefs) <= iBlock * 500)) ->
  keeps I P (BatchWriter.deleted_blocks fuel restRefs iBlock bw).
Proof.
  intros Hi Hrefs. revert iBlock bw Hi.
  induction fuel as [|fuel IH]; intros iBlock bw Hi Hlen Hle HQ Hd Hopen.
  - cbn [BatchWriter.deleted_blocks].
    destruct (_ <? _); [apply keeps_throw|]. apply keeps_ret.
    unfold P, writer_in_bounds. repeat split; try done. by apply Hopen.
  - rewrite deleted_blocks_unfold.
    destruct (_ <? _).
    2: { apply keeps_ret. unfold P, writer_in_bounds.
         repeat split; try done. by apply Hopen. }
    cbv zeta. rewrite block_slice by done.
    set (block := take 500 (drop (Z.to_nat (iBlock * 500)) restRefs)).
    assert (Z.of_nat (length block)
            = Z.min 500 (Z.max 0 (Z.of_nat (length restRefs) - iBlock * 500)))
      as Hblock.
    { subst block. rewrite length_take, length_drop. lia. }
    assert (Forall (fun r => Q (WDelete r)) block) as HQb
      by (by apply Forall_take_drop).
    eapply keeps_bind.
    { apply (keeps_lift I
               (fun b => (block = [] /\ b = BatchWriter.batch bw)
                         \/ (committed (BatchWriter.batch bw) = false
                             /\ b = {| writes := writes (BatchWriter.batch bw)
                                         ++ map WDelete block;
                                       committed := false |}))).
      intros b. apply queue_deletes_cases. }
    intros b Hb.
    set (bw1 := BatchWriter.with_batch bw b _).
    assert (Z.of_nat (length (writes (BatchWriter.batch bw1)))
            = BatchWriter.count bw1
            /\ BatchWriter.count bw1 <= MAX_TRANSACTION_WRITES
            /\ Forall Q (writes (BatchWriter.batch bw1))
            /\ BatchWriter.bdoc bw1 = d
            /\ (committed (BatchWriter.batch bw1) = false ->
                BatchWriter.count bw1 <> MAX_TRANSACTION_WRITES ->
                BatchWriter.count bw1 < MAX_TRANSACTION_WRITES
                /\ Z.of_nat (length restRefs) <= (iBlock + 1) * 500))
      as (H1 & H2 & H3 & H4 & H5).
    { subst bw1. cbn. unfold MAX_TRANSACTION_WRITES in *.
      destruct Hb as [[Hnil ->]|[Hcm ->]].
      - rewrite Hnil in *. cbn [length] in *. rewrite Z.add_0_r.
        split; [done|]. split; [done|]. split; [done|]. split; [done|].
        intros Hcm _. destruct (Hopen Hcm) as [Hlt Hor]. split; [done|]. lia.
      - destruct (Hopen Hcm) as [Hlt Hor]. cbn.
        rewrite length_app, length_map, Nat2Z.inj_add.
        split; [lia|]. split; [lia|]. split.
        { apply Forall_app. split; [done|]. by apply Forall_fmap. }
        split; [done|]. intros _ Hne. lia. }
    eapply keeps_bind.
    { instantiate (1 := fun bw2 =>
        Z.of_nat (length (writes (BatchWriter.batch bw2)))
        = BatchWriter.count bw2
        /\ BatchWriter.count bw2 <= MAX_TRANSACTION_WRITES
        /\ Forall Q (writes (BatchWriter.batch bw2))
        /\ BatchWriter.bdoc bw2 = d
        /\ (committed (BatchWriter.batch bw2) = false ->
            BatchWriter.count bw2 < MAX_TRANSACTION_WRITES
            /\ Z.of_nat (length restRefs) <= (iBlock + 1) * 500)).
      destruct (Z.eqb_spec (BatchWriter.count bw1) MAX_TRANSACTION_WRITES)
        as [Heq|Hne].
      - eapply keeps_weaken; [|by apply keeps_flushBatch_detached].
        intros a [(Ha1 & Ha2 & Ha3 & Ha4 & Ha5) Hcm].
        split; [done|]. split; [done|]. split; [done|]. split; [done|].
        intros Hopen'. by rewrite Hcm in Hopen'.
      - apply keeps_ret. repeat split; try done; by apply H5. }
    intros bw2 (G1 & G2 & G3 & G4 & G5).
    apply IH; try done; [lia|]. intros Hcm. destruct (G5 Hcm). split; [done|].
    by right.
Qed.

Lemma keeps_deleted (refs : list DocRef) (bw : BatchWriter.t) :
  P bw ->
  Forall (fun r => Q (WDelete r)) refs ->
  keeps I P (BatchWriter.deleted refs bw).
Proof.
  intros (Hlen & Hle & Hlt & HQ & Hd) Hrefs. unfold BatchWriter.deleted.
  cbv zeta.
  set (headCount := Z.min (Z.of_nat (length refs))
                          (MAX_TRANSACTION_WRITES - BatchWriter.count bw)).
  assert (0 <= headCount) as Hhead by lia.
  rewrite (js_slice_nonneg refs 0 headCount) by lia.
  rewrite (js_slice_nonneg refs headCount (Z.of_nat (length refs))) by lia.
  rewrite drop_0, Z.sub_0_r.
  set (head := take (Z.to_nat headCount) refs).
  set (restRefs := take _ (drop (Z.to_nat headCount) refs)).
  assert (Z.of_nat (length head) = headCount) as Hhlen
    by (subst head; rewrite length_take; lia).
  eapply keeps_bind.
  { apply (keeps_lift I
             (fun b => (head = [] /\ b = BatchWriter.batch bw)
                       \/ (committed (BatchWriter.batch bw) = false
                           /\ b = {| writes := writes (BatchWriter.batch bw)
                                       ++ map WDelete head;
                                     committed := false |}))).
    intros b. apply queue_deletes_cases. }
  intros b Hb.
  set (bw1 := BatchWriter.with_batch bw b _).
  assert (Z.of_nat (length (writes (BatchWriter.batch bw1)))
          = BatchWriter.count bw1
          /\ BatchWriter.count bw1 <= MAX_TRANSACTION_WRITES
          /\ Forall Q (writes (BatchWriter.batch bw1))
          /\ BatchWriter.bdoc bw1 = d
          /\ committed (BatchWriter.batch bw1)
             = committed (BatchWriter.batch bw))
    as (H1 & H2 & H3 & H4 & H5).
  { subst bw1. cbn. destruct Hb as [[Hnil ->]|[Hcm ->]].
    - rewrite Hnil in Hhlen. cbn [length] in Hhlen. rewrite <- Hhlen.
      rewrite Z.add_0_r. by repeat split.
    - cbn. rewrite length_app, length_map, Nat2Z.inj_add, Hcm.
      split; [lia|]. split; [lia|]. split; [|done].
      apply Forall_app. split; [done|]. apply Forall_fmap.
      subst head. by apply Forall_take. }
  destruct (Z.eqb_spec (BatchWriter.count bw1) MAX_TRANSACTION_WRITES)
    as [Heq|Hne].
  - eapply keeps_bind; [apply keeps_flushBatch; [lia|done|done]|].
    intros bw2 [(G1 & G2 & G3 & G4 & G5) G0].
    apply keeps_deleted_blocks; try done.
    + subst restRefs. by apply Forall_take_drop.
    + intros _. unfold MAX_TRANSACTION_WRITES. split; [lia|by left].
  - apply keeps_ret. unfold P, writer_in_bounds.
    split; [done|]. split; [done|]. split; [lia|]. by split.
Qed.

Lemma keeps_strip (l : loc) : keeps I (fun _ => True) (strip_in_place l).
Proof. intros w HI. by split. Qed.

Lemma keeps_rows (t : string) (ls : list loc) (bw : BatchWriter.t) :
  P bw ->
  (forall k x, Q (WSet (doc (collection d t) k) x)) ->
  keeps I P (mfoldl (fun bw l =>
                       bind (strip_in_place l)
                            (fun rec => BatchWriter.write t rec bw))
                    bw ls).
Proof.
  intros HP Hset. apply keeps_mfoldl; [|done].
  intros bw' l _ HP'. eapply keeps_bind; [apply keeps_strip|].
  intros rec _. by apply keeps_write.
Qed.

Lemma keeps_stage_table (delRefs : AllDeleteRefs)
    (acc : BatchWriter.t * TableDeletes) (entry : string * TableChanges loc) :
  P acc.1 ->
  (forall k x, Q (WSet (doc (collection d entry.1) k) x)) ->
  (forall refs, delRefs !! entry.1 = Some refs ->
                Forall (fun r => Q (WDelete (ref r))) refs) ->
  keeps I (fun acc' : BatchWriter.t * TableDeletes => P acc'.1)
        (stage_table delRefs acc entry).
Proof.
  intros HP Hset Hdel. unfold stage_table.
  eapply keeps_bind; [by apply keeps_rows|]. intros bw1 HP1.
  eapply keeps_bind; [by apply keeps_rows|]. intros bw2 HP2.
  destruct (delRefs !! entry.1) as [refs|] eqn:Hrefs.
  - eapply keeps_bind.
    + apply keeps_deleted; [done|]. apply Forall_fmap. by apply Hdel.
    + intros bw3 HP3. by apply keeps_ret.
  - destruct (inherited entry.1); [apply keeps_throw|by apply keeps_ret].
Qed.

Lemma keeps_stage (rev : Z) (chs : PushChangeSet) (delRefs : AllDeleteRefs) :
  (forall e k x, e ∈ chs -> Q (WSet (doc (collection d e.1) k) x)) ->
  (forall e refs, e ∈ chs -> delRefs !! e.1 = Some refs ->
                  Forall (fun r => Q (WDelete (ref r))) refs) ->
  keeps I (fun _ => True) (stage d rev chs delRefs).
Proof.
  intros Hset Hdel. unfold stage.
  eapply keeps_bind.
  - apply (keeps_mfoldl I (fun acc : BatchWriter.t * TableDeletes => P acc.1)).
    + intros acc e He HP. apply keeps_stage_table; [done| |].
      * intros k x. by apply Hset.
      * intros refs. by apply Hdel.
    + unfold P, writer_in_bounds. cbn. unfold MAX_TRANSACTION_WRITES.
      repeat split; try done; lia.
  - intros staged (Hlen & Hle & _ & HQ & Hd).
    eapply keeps_bind.
    + unfold BatchWriter.flush. apply keeps_flushBatch; [lia|done|done].
    + intros. by apply keeps_ret.
Qed.

End Trace.

(* the catch block commits nothing but empty batches and leaves the store *)
Lemma rollback_world (batchDoc : DocRef) (chs : PushChangeSet) (err : Error)
    (w : World) :
  exists e new,
    rollback batchDoc chs err w
    = (Err e, {| store := store w; heap := heap w;
                 commits := commits w ++ new |})
    /\ Forall (fun ws => ws = []) new.
Proof.
  destruct chs as [|entry chs].
  - exists err, [[]]. split; [|by repeat constructor]. reflexivity.
  - exists InvalidArgument, []. split; [|constructor].
    rewrite rollback_refuses by done. destruct w. cbn.
    by rewrite app_nil_r.
Qed.

Lemma committed_so_far_init (Q : Write -> Prop) (w : World) :
  committed_so_far Q (store w) (commits w) w.
Proof. exists []. by rewrite app_nil_r. Qed.

(* the world a side-batch push leaves if it fails *)
Lemma pushBatchedChanges_failed (Q : Write -> Prop) (env : Env)
    (base : DocRef) (params : SyncPushArgs) (delRefs : AllDeleteRefs)
    (w : World) :
  (forall e k x, e ∈ changes params ->
                 Q (WSet (doc (collection (batch_doc env base) e.1) k) x)) ->
  (forall e refs, e ∈ changes params -> delRefs !! e.1 = Some refs ->
                  Forall (fun r => Q (WDelete (ref r))) refs) ->
  let out := pushBatchedChanges env base params delRefs w in
  exists new,
    commits out.2 = commits w ++ new
    /\ Forall (fun ws => Z.of_nat (length ws) <= MAX_TRANSACTION_WRITES
                         /\ Forall Q ws) new
    /\ (is_ok out.1 = false -> store out.2 = apply_writes (store w) (concat new)).
Proof.
  intros Hset Hdel out. subst out.
  unfold pushBatchedChanges, bind, get_store.
  destruct (negb _).
  { exists []. cbn. by rewrite app_nil_r. }
  fold (batch_doc env base).
  destruct (keeps_stage Q (store w) (commits w) (batch_doc env base)
              (revisionFromBaseSnap (store w !! base)).1
              (changes params) delRefs Hset Hdel w
              (committed_so_far_init Q w)) as [(new & Hc & Hs & Hall) _].
  destruct (stage _ _ _ _ w) as [[dels|e] w1]; cbn [fst snd] in *.
  2: { by exists new. }
  unfold integrate.
  assert (forall err,
    exists new0,
      commits (rollback (batch_doc env base) (changes params) err w1).2
      = commits w ++ new0
      /\ Forall (fun ws => Z.of_nat (length ws) <= MAX_TRANSACTION_WRITES
                           /\ Forall Q ws) new0
      /\ (is_ok (rollback (batch_doc env base) (changes params) err w1).1
          = false ->
          store (rollback (batch_doc env base) (changes params) err w1).2
          = apply_writes (store w) (concat new0))) as Hroll.
  { intros err.
    destruct (rollback_world (batch_doc env base) (changes params) err w1)
      as (e & new1 & -> & Hnil).
    exists (new ++ new1). cbn. rewrite Hc, app_assoc. split; [done|]. split.
    - apply Forall_app. split; [done|]. eapply Forall_impl; [exact Hnil|].
      intros ws ->. unfold MAX_TRANSACTION_WRITES. cbn. split; [lia|done].
    - intros _. rewrite Hs, concat_app. f_equal.
      assert (concat new1 = []) as ->; [|by rewrite app_nil_r].
      clear -Hnil. induction Hnil as [|ws new1 -> _ IH]; [done|]. exact IH. }
  destruct (integrateFailure env); [apply Hroll|].
  destruct (negb _); [apply Hroll|].
  exists new. cbn. split; [done|]. split; [done|]. done.
Qed.

(** X8. However a push ends, every write batch it commits holds at most 500
    writes. *)
Theorem push_batches_bounded (env : Env) (base : DocRef)
    (params : SyncPushArgs) (w : World) :
  exists new,
    commits (pushChanges env base params w).2 = commits w ++ new
    /\ Forall (fun ws => Z.of_nat (length ws) <= MAX_TRANSACTION_WRITES) new.
Proof.
  unfold pushChanges, bind, findDeleteRefs.
  destruct (_ <? _).
  - exists []. rewrite app_nil_r. split; [|constructor].
    unfold pushAllChanges. destruct (negb _); [done|].
    by destruct (pushAll_writes _ _ _ _ _ _).
  - destruct (pushBatchedChanges_failed (fun _ => True) env base params
                (foldl (findDeleteRefs_table (store w) base) ∅
                       (changes params)) w)
      as (new & Hc & Hall & _).
    + done.
    + intros e refs _ _. by apply Forall_forall.
    + exists new. split; [done|]. eapply Forall_impl; [exact Hall|].
      by intros ws [? _].
Qed.

(** X9. A push that fails leaves the root document as it was, so the
    revision does not advance; and it leaves every document alone that is
    not a document of a pushed table, under the root or under a side
    batch. *)
Theorem failed_push_frame (env : Env) (base : DocRef) (params : SyncPushArgs)
    (w w' : World) (err : Error) :
  NoDup (changes params).*1 ->
  pushChanges env base params w = (Err err, w') ->
  store w' !! base = store w !! base
  /\ nextRevisionToWrite (store w') base = nextRevisionToWrite (store w) base
  /\ forall p,
       (forall t, t ∈ (changes params).*1 -> ~ of_table base t p) ->
       store w' !! p = store w !! p.
Proof.
  intros Hnd H.
  assert (forall p,
            (forall t, t ∈ (changes params).*1 -> ~ of_table base t p) ->
            store w' !! p = store w !! p) as Hframe.
  { intros p Hp. unfold pushChanges, bind, findDeleteRefs in H.
    fold (discovered (store w) base (changes params)) in H.
    destruct (_ <? _).
    - unfold pushAllChanges in H.
      destruct (negb _); [by injection H as _ <-|].
      destruct (pushAll_writes _ _ _ _ _ _); [done|].
      by injection H as _ <-.
    - destruct (pushBatchedChanges_failed
                  (fun wr => exists t, t ∈ (changes params).*1
                                       /\ of_table base t (write_target wr))
                  env base params
                  (discovered (store w) base (changes params)) w)
        as (new & _ & Hall & Hst).
      + intros e k x He. exists e.1. split.
        * apply list_elem_of_fmap. by exists e.
        * apply (batch_of_table base (autoId env)).
      + intros [t ch] refs He Hrefs. cbn [fst] in *.
        rewrite (discovered_lookup_in _ _ _ _ _ Hnd He) in Hrefs.
        apply Forall_forall. intros r Hr. exists t. split.
        * apply list_elem_of_fmap. by exists (t, ch).
        * cbn [write_target].
          assert (r ∈ refs_of (store w) base t ch) as Hr'.
          { destruct (refs_of _ _ _ _); [done|]. by injection Hrefs as ->. }
          apply elem_of_existing_refs in Hr' as [Hr' _].
          by apply delete_candidates_of_table in Hr'.
      + rewrite H in Hst. cbn [fst snd] in Hst. rewrite Hst by done.
        apply lookup_untouched. apply Forall_forall. intros wr Hwr.
        apply list_elem_of_In, in_concat in Hwr as (ws & Hws & Hwr).
        apply list_elem_of_In in Hws, Hwr.
        rewrite Forall_forall in Hall. destruct (Hall ws Hws) as [_ HQ].
        rewrite Forall_forall in HQ. destruct (HQ wr Hwr) as (t & Ht & Hof).
        intros Heq. apply (Hp t Ht). by rewrite <- Heq. }
  assert (store w' !! base = store w !! base) as Hbase.
  { apply Hframe. intros t _. apply of_table_not_base. }
  split; [done|]. split; [|done].
  by rewrite <- !revisionFromBaseSnap_next, Hbase.
Qed.

(** ** Deletes on the side-batch path *)

Lemma effect_deleted (p : DocRef) (cur : option Doc) (ws : list Write) :
  WDelete p ∈ ws ->
  (forall wr, wr ∈ ws -> write_target wr = p -> wr = WDelete p) ->
  foldl (write_effect p) cur ws = None.
Proof.
  revert cur. induction ws as [|wr ws IH] using rev_ind; intros cur Hin Hall.
  - by apply elem_of_nil in Hin.
  - rewrite foldl_app. cbn [foldl]. unfold write_effect at 1.
    case_decide as Hw.
    + rewrite (Hall wr); [done| |done]. apply elem_of_app. right. left.
    + apply IH.
      * apply elem_of_app in Hin as [Hin|Hin]; [done|].
        apply list_elem_of_singleton in Hin. by subst wr.
      * intros wr' Hwr'. apply Hall. apply elem_of_app. by left.
Qed.

(** X10. On the side-batch path the deletes happen while staging.  When
    staging has gone through and the integrate transaction is rejected, the
    push fails and the root is as it was, yet every document that
    [findDeleteRefs] had found for a deleted id is gone from the store. *)
Theorem rejected_integrate_keeps_deletes (env : Env) (base : DocRef)
    (params : SyncPushArgs) (w w1 : World) (dels : TableDeletes)
    (msg : string) :
  let chs := changes params in
  let delRefs := discovered (store w) base chs in
  let batchDoc := doc (collection base BATCH_COLLECTION) (autoId env) in
  NoDup chs.*1 ->
  nextRevisionToWrite (store w) base = lastPulledAt params ->
  (forall t dk, store w !! doc (collection batchDoc t) dk = None) ->
  stage batchDoc (lastPulledAt params) chs delRefs w = (Ok dels, w1) ->
  integrateFailure env = Some msg ->
  let out := pushBatchedChanges env base params delRefs w in
  is_ok out.1 = false
  /\ store out.2 !! base = store w !! base
  /\ forall t ch r,
       (t, ch) ∈ chs -> r ∈ default [] (delRefs !! t) ->
       is_Some (store w !! ref r) /\ store out.2 !! ref r = None.
Proof.
  intros chs delRefs batchDoc Hnd Hrev Hfresh Hstage Hfail out.
  subst chs delRefs batchDoc.
  set (chs := changes params) in *.
  set (batchDoc := doc (collection base BATCH_COLLECTION) (autoId env)) in *.
  assert (exists e new,
            out = (Err e, {| store := store w1; heap := heap w1;
                             commits := commits w1 ++ new |}))
    as (e & new & Hout).
  { subst out. unfold pushBatchedChanges, bind, get_store.
    rewrite revisionFromBaseSnap_next, Hrev, Z.eqb_refl. cbn [negb].
    fold batchDoc chs. rewrite Hstage. unfold integrate. rewrite Hfail.
    destruct (rollback_world batchDoc chs (RemoteError msg) w1)
      as (e & new & -> & _).
    by exists e, new. }
  rewrite Hout. cbn [fst snd store is_ok].
  apply stage_done in Hstage as [Hstore _]. rewrite Hstore.
  split; [done|]. split.
  - rewrite apply_writes_lookup.
    apply (tables_skip (store w) base chs (heap w) (lastPulledAt params)
             batchDoc base); [done| |].
    + apply (batch_of_table base (autoId env)).
    + intros; apply of_table_not_base.
  - intros t ch r Hch Hr.
    rewrite (discovered_lookup_in _ _ _ _ _ Hnd Hch) in Hr.
    assert (r ∈ refs_of (store w) base t ch) as Hr'
      by (by destruct (refs_of _ _ _ _)).
    pose proof Hr' as Hex.
    apply elem_of_existing_refs in Hex as (_ & d & Hd & _).
    split; [by eexists|].
    rewrite apply_writes_lookup. apply effect_deleted.
    + apply list_elem_of_In, in_flat_map. exists (t, ch).
      split; [by apply list_elem_of_In|]. apply list_elem_of_In.
      unfold table_writes. apply elem_of_app. right.
      unfold table_dels. cbn [fst].
      rewrite (discovered_lookup_in _ _ _ _ _ Hnd Hch).
      destruct (refs_of (store w) base t ch) as [|r0 refs] eqn:Hrefs;
        [by apply elem_of_nil in Hr'|].
      apply list_elem_of_fmap. by exists r.
    + intros wr Hwr Htarget.
      apply list_elem_of_In, in_flat_map in Hwr as ([t' ch'] & _ & Hwr).
      apply list_elem_of_In in Hwr. unfold table_writes in Hwr.
      apply elem_of_app in Hwr as [Hwr|Hwr].
      * unfold table_sets in Hwr.
        apply list_elem_of_fmap in Hwr as (raw & -> & _).
        cbn [write_target fst] in Htarget.
        rewrite <- Htarget in Hd. subst batchDoc. by rewrite Hfresh in Hd.
      * unfold table_dels in Hwr.
        destruct (discovered (store w) base chs !! (t', ch').1);
          [|by apply elem_of_nil in Hwr].
        apply list_elem_of_fmap in Hwr as (r' & -> & _).
        cbn [write_target] in Htarget. by rewrite Htarget.
Qed.

(** X11. [deleted] with references that fit into the open batch queues them
    all, in order, after what the batch holds.  If they leave room the batch
    is not committed; if they fill it exactly it is committed once and the
    writer starts on a fresh batch. *)
Theorem deleted_within_batch (this : BatchWriter.t) (refs : list DocRef)
    (w : World) :
  committed (BatchWriter.batch this) = false ->
  0 <= BatchWriter.count this < MAX_TRANSACTION_WRITES ->
  BatchWriter.count this + Z.of_nat (length refs) <= MAX_TRANSACTION_WRITES ->
  BatchWriter.deleted refs this w
  = if BatchWriter.count this + Z.of_nat (length refs)
       <? MAX_TRANSACTION_WRITES
    then (Ok (BatchWriter.with_batch this
                {| writes := writes (BatchWriter.batch this)
                             ++ map WDelete refs;
                   committed := false |}
                (BatchWriter.count this + Z.of_nat (length refs))), w)
    else (Ok (BatchWriter.with_batch this new_batch 0),
          after_commit w (writes (BatchWriter.batch this)
                          ++ map WDelete refs)).
Proof.
  intros Hopen Hcount Hle.
  destruct (Z.ltb_spec (BatchWriter.count this + Z.of_nat (length refs))
                       MAX_TRANSACTION_WRITES) as [Hlt|Hge].
  - by apply deleted_fits.
  - assert (Z.to_nat (MAX_TRANSACTION_WRITES - BatchWriter.count this)
            = length refs) as Hhead by lia.
    rewrite deleted_head; [|done|done|lia].
    rewrite Hhead, drop_all, firstn_all. reflexivity.
Qed.

(** * More about the pull *)

(** ** The scan for the next side batch *)

Lemma advance_end_spec (fuel : nat) (tokens : option (gmap Z string))
    (endRevision e : Z) :
  (Z.to_nat (endRevision - e) <= fuel)%nat ->
  exists e',
    advance_end fuel tokens endRevision e = Ok e'
    /\ e <= e' <= Z.max e endRevision
    /\ (forall k, e <= k < e' -> has_token tokens k = false)
    /\ (has_token tokens e' = true \/ endRevision <= e').
Proof.
  revert e. induction fuel as [|fuel IH]; intros e Hfuel;
    cbn [advance_end].
  - destruct (has_token tokens e) eqn:Htok; cbn [negb andb].
    + exists e. split; [done|]. split; [lia|]. split; [intros; lia|by left].
    + destruct (Z.ltb_spec e endRevision); [lia|].
      exists e. split; [done|]. split; [lia|]. split; [intros; lia|by right].
  - destruct (has_token tokens e) eqn:Htok; cbn [negb andb].
    + exists e. split; [done|]. split; [lia|]. split; [intros; lia|by left].
    + destruct (Z.ltb_spec e endRevision).
      * destruct (IH (e + 1)) as (e' & He' & Hle & Hno & Hstop); [lia|].
        exists e'. split; [done|]. split; [lia|]. split; [|done].
        intros k Hk. destruct (decide (k = e)) as [->|]; [done|].
        apply Hno. lia.
      * exists e. split; [done|]. split; [lia|].
        split; [intros; lia|by right].
Qed.

(** X12. The inner scan of a pull stops at the first revision from [start]
    on that has a batch token, or at [endRevision] if there is none: nothing
    between [start] and where it stops has a token, and it never passes
    [endRevision]. *)
Theorem advance_end_stops (tokens : option (gmap Z string))
    (endRevision start : Z) :
  start <= endRevision ->
  exists e,
    advance_end (Z.to_nat (endRevision - start)) tokens endRevision start
    = Ok e
    /\ start <= e <= endRevision
    /\ (forall k, start <= k < e -> has_token tokens k = false)
    /\ (e < endRevision -> has_token tokens e = true).
Proof.
  intros Hle.
  destruct (advance_end_spec (Z.to_nat (endRevision - start)) tokens
              endRevision start) as (e & He & Hrange & Hno & Hstop); [lia|].
  exists e. split; [done|]. split; [lia|]. split; [done|].
  intros Hlt. destruct Hstop; [done|lia].
Qed.

(** ** Errors of a pull *)

Lemma decode_error (s : string) (e : Error) :
  decodeURIComponent s = Err e -> e = URIError.
Proof.
  remember (String.length s) as n eqn:Hn. revert s Hn e.
  induction n as [n IH] using lt_wf_ind. intros s Hn e H.
  destruct s as [|c s]; [done|]. cbn [decodeURIComponent] in H.
  destruct (Ascii.eqb c "%").
  - destruct s as [|h [|l s]]; [by injection H|by injection H|].
    destruct (hex_value h), (hex_value l); try (by injection H).
    destruct (decodeURIComponent s) as [r|e'] eqn:Hs; [done|].
    cbn [rbind] in H. injection H as <-.
    apply (IH (String.length s)) with (s := s); [cbn in Hn; lia|done|done].
  - destruct (decodeURIComponent s) as [r|e'] eqn:Hs; [done|].
    cbn [rbind] in H. injection H as <-.
    apply (IH (String.length s)) with (s := s); [cbn in Hn; lia|done|done].
Qed.

Lemma halts_rfoldl {A B} (f : A -> B -> Result A) (a : A) (l : list B) :
  (forall a b, halts (f a b)) -> halts (rfoldl f a l).
Proof.
  intros Hf. revert a. induction l as [|b l IH]; intros a; cbn [rfoldl];
    [done|].
  specialize (Hf a b).
  destruct (f a b) as [a'|e]; cbn [rbind]; [apply IH|exact Hf].
Qed.

Lemma halts_merge_doc (t : string) (cm : ChangeLoadMap) (row : Row) :
  halts (merge_doc t cm row).
Proof.
  unfold merge_doc, halts. destruct (cm !! t); [|done].
  destruct (decodeURIComponent _) as [k|e] eqn:Hd; [done|].
  apply decode_error in Hd as ->. done.
Qed.

Lemma halts_mark_deleted (t : string) (cm : ChangeLoadMap) (i : string) :
  halts (mark_deleted t cm i).
Proof.
  unfold mark_deleted, halts. destruct (cm !! t); [|done].
  destruct (decodeURIComponent _) as [k|e] eqn:Hd; [done|].
  apply decode_error in Hd as ->. done.
Qed.

Lemma halts_merge (st : Store) (root : DocRef) (s e : Z)
    (tables : list string) (cm : ChangeLoadMap) :
  halts (mergeCreatesAndUpdates st root s e tables cm).
Proof.
  unfold mergeCreatesAndUpdates. apply halts_rfoldl. intros cm' t.
  apply halts_rfoldl. intros. apply halts_merge_doc.
Qed.

Lemma halts_add_deletions (cm : ChangeLoadMap) (dels : TableDeletes) :
  halts (add_deletions cm dels).
Proof.
  unfold add_deletions. apply halts_rfoldl. intros cm' entry.
  apply halts_rfoldl. intros. apply halts_mark_deleted.
Qed.

Lemma halts_rbind {A B} (r : Result A) (k : A -> Result B) :
  halts r -> (forall a, halts (k a)) -> halts (rbind r k).
Proof.
  intros Hr Hk. destruct r as [a|e]; cbn [rbind]; [apply Hk|].
  intros [= ->]. by apply Hr.
Qed.

Lemma halts_pull_run (st : Store) (base : DocRef) (tables : list string)
    (s e : Z) (cm : ChangeLoadMap) :
  halts (pull_run st base tables s e cm).
Proof.
  unfold pull_run. apply halts_rbind; [apply halts_merge|]. intros cm1.
  apply halts_rfoldl. intros. apply halts_add_deletions.
Qed.

Lemma halts_pull_batch (st : Store) (base : DocRef) (tables : list string)
    (tokens : option (gmap Z string)) (s : Z) (cm : ChangeLoadMap) :
  halts (pull_batch st base tables tokens s cm).
Proof.
  unfold pull_batch. destruct tokens as [m|]; [|done].
  destruct (m !! s); [|done].
  apply halts_rbind; [apply halts_merge|]. intros cm1.
  destruct (st !! _) as [[| |b|]|]; try done. apply halts_add_deletions.
Qed.

Lemma halts_pull_loop (fuel : nat) (st : Store) (base : DocRef)
    (tables : list string) (tokens : option (gmap Z string))
    (endRevision start : Z) (cm : ChangeLoadMap) :
  (Z.to_nat (endRevision - start) <= fuel)%nat ->
  halts (pull_loop fuel st base tables tokens endRevision start cm).
Proof.
  revert start cm. induction fuel as [|fuel IH]; intros start cm Hfuel;
    cbn [pull_loop].
  - destruct (Z.ltb_spec start endRevision); [lia|done].
  - destruct (Z.ltb_spec start endRevision); [|done].
    destruct (advance_end_spec (Z.to_nat (endRevision - start)) tokens
                endRevision start)
      as (e & -> & Hrange & Hno & Hstop); [lia|].
    cbn [rbind]. destruct (Z.eqb_spec e start) as [->|Hne].
    + apply halts_rbind; [apply halts_pull_batch|]. intros cm1.
      apply IH. lia.
    + apply halts_rbind; [apply halts_pull_run|]. intros cm1.
      apply IH. lia.
Qed.

Lemma halts_build_changes (tables : list string) (cm : ChangeLoadMap) :
  halts (build_changes tables cm).
Proof.
  unfold build_changes. apply halts_rfoldl. intros acc t.
  by destruct (cm !! t).
Qed.

(** X13. The revision loop of a pull terminates: every round moves [start]
    forward, by a run of revisions or by one side batch, so [endRevision -
    start] rounds are enough and the pull never stops for lack of steps. *)
Theorem pull_terminates (tables : list string) (base : DocRef)
    (pulledAt : option Z) (w : World) :
  (pullChanges tables base pulledAt w).1 <> Err OutOfFuel.
Proof.
  unfold pullChanges. cbn [fst].
  apply halts_rbind.
  - apply halts_pull_loop. lia.
  - intros cm. apply halts_rbind; [apply halts_build_changes|]. done.
Qed.

(** ** What every pull returns *)

Lemma build_changes_tables (tables : list string) (cm : ChangeLoadMap)
    (chs : gmap string (TableChanges Row)) :
  build_changes tables cm = Ok chs ->
  forall t, t ∈ tables -> is_Some (cm !! t).
Proof.
  unfold build_changes. generalize (∅ : gmap string (TableChanges Row)).
  induction tables as [|t' tables IH]; intros acc H t Ht.
  - by apply elem_of_nil in Ht.
  - cbn [rfoldl] in H. destruct (cm !! t') as [tl|] eqn:Htl; [|done].
    cbn [rbind] in H. apply elem_of_cons in Ht as [->|Ht]; [by eexists|].
    by apply (IH _ H).
Qed.

(** X14. A pull that succeeds changes nothing.  Its timestamp is the next
    revision to write, one beyond the last committed one; it returns an
    entry for exactly the requested tables, and [created] is empty in each:
    creates arrive as updates. *)
Theorem pull_shape (tables : list string) (base : DocRef)
    (pulledAt : option Z) (w w' : World) (res : SyncPullResult) :
  pullChanges tables base pulledAt w = (Ok res, w') ->
  w' = w
  /\ timestamp res = nextRevisionToWrite (store w) base
  /\ (forall t, is_Some (pulled res !! t) <-> t ∈ tables)
  /\ forall t tc, pulled res !! t = Some tc -> created tc = [].
Proof.
  unfold pullChanges. intros H. injection H as H <-. split; [done|].
  destruct (pull_loop _ _ _ _ _ _ _ _) as [cm|e]; [|done]. cbn [rbind] in H.
  destruct (build_changes tables cm) as [chs|e] eqn:Hchs; [|done].
  cbn [rbind] in H. injection H as <-. cbn [timestamp pulled].
  split; [apply revisionFromBaseSnap_next|].
  pose proof (build_changes_inv _ _ _ Hchs) as Hlk.
  pose proof (build_changes_tables _ _ _ Hchs) as Hhas.
  split.
  - intros t. rewrite Hlk. case_decide as Ht.
    + split; [done|]. intros _. destruct (Hhas t Ht) as [tl ->]. by eexists.
    + split; [by intros [? ?]|done].
  - intros t tc. rewrite Hlk. case_decide; [|done].
    destruct (cm !! t) as [tl|]; [|done]. by intros [= <-].
Qed.

(** X15. A pull that starts at or beyond the next revision to write has
    nothing to read: whatever the store holds, it returns empty lists for
    every requested table and the next revision as timestamp.  This covers
    the first pull from a root that was never written. *)
Theorem pull_nothing_new (tables : list string) (base : DocRef)
    (pulledAt : option Z) (w : World) :
  nextRevisionToWrite (store w) base <= default MIN_REVISION pulledAt ->
  exists res,
    pullChanges tables base pulledAt w = (Ok res, w)
    /\ timestamp res = nextRevisionToWrite (store w) base
    /\ forall t, pulled res !! t
                 = if decide (t ∈ tables) then Some no_changes else None.
Proof.
  intros Hle. unfold pullChanges.
  assert (match pulledAt with Some r => r | None => MIN_REVISION end
          = default MIN_REVISION pulledAt) as -> by (by destruct pulledAt).
  rewrite revisionFromBaseSnap_next.
  assert (forall fuel cm,
            pull_loop fuel (store w) base tables
              (revisionFromBaseSnap (store w !! base)).2
              (nextRevisionToWrite (store w) base)
              (default MIN_REVISION pulledAt) cm = Ok cm) as ->.
  { intros fuel cm. destruct fuel; cbn [pull_loop];
      by destruct (Z.ltb_spec (default MIN_REVISION pulledAt)
                              (nextRevisionToWrite (store w) base));
        [lia|]. }
  cbn [rbind].
  destruct (build_changes_spec tables (init_changeMap tables))
    as (chs & -> & Hlk); [apply has_tables_init|].
  cbn [rbind]. eexists. split; [done|]. split; [done|].
  intros t. cbn [pulled]. rewrite Hlk, init_changeMap_lookup.
  by case_decide.
Qed.

(** ** Runs and side batches *)

Lemma pull_loop_one_run (fuel : nat) (st : Store) (base : DocRef)
    (tables : list string) (tokens : option (gmap Z string))
    (endRevision start : Z) (cm : ChangeLoadMap) :
  start < endRevision ->
  (forall k, start <= k < endRevision -> has_token tokens k = false) ->
  pull_loop (S fuel) st base tables tokens endRevision start cm
  = pull_run st base tables start endRevision cm.
Proof.
  intros Hlt Hno. cbn [pull_loop].
  destruct (Z.ltb_spec start endRevision); [|lia].
  destruct (advance_end_spec (Z.to_nat (endRevision - start)) tokens
              endRevision start)
    as (e & -> & Hrange & _ & Hstop); [lia|].
  assert (e = endRevision) as ->.
  { destruct Hstop as [Htok|?]; [|lia].
    destruct (Z.lt_ge_cases e endRevision) as [He|?]; [|lia].
    rewrite Hno in Htok by lia. done. }
  cbn [rbind]. destruct (Z.eqb_spec endRevision start); [lia|].
  destruct (pull_run st base tables start endRevision cm) as [cm1|err];
    [|done].
  cbn [rbind]. destruct fuel; cbn [pull_loop]; by rewrite Z.ltb_irrefl.
Qed.

(** X16. When no revision from the start of the pull up to the end has a
    batch token, the pull reads the whole range in one run: one query per
    requested table over [start, endRevision) under the root, then the
    delete records of that range. *)
Theorem pull_without_batches (tables : list string) (base : DocRef)
    (pulledAt : option Z) (w : World) :
  let start := default MIN_REVISION pulledAt in
  let endRevision := nextRevisionToWrite (store w) base in
  start < endRevision ->
  (forall k, start <= k < endRevision ->
             token_at (store w !! base) k = None) ->
  pullChanges tables base pulledAt w
  = (rbind (pull_run (store w) base tables start endRevision
                     (init_changeMap tables)) (fun cm =>
     rbind (build_changes tables cm) (fun chs =>
     Ok {| pulled := chs; timestamp := endRevision |})), w).
Proof.
  intros start endRevision Hlt Hno. unfold pullChanges.
  assert (match pulledAt with Some r => r | None => MIN_REVISION end = start)
    as -> by (by destruct pulledAt).
  rewrite revisionFromBaseSnap_next. fold endRevision.
  destruct (Z.to_nat (endRevision - start)) as [|fuel] eqn:Hfuel; [lia|].
  rewrite pull_loop_one_run; [done|done|].
  intros k Hk. specialize (Hno k Hk). unfold token_at, token_of in Hno.
  unfold has_token. destruct (revisionFromBaseSnap _).2 as [m|]; [|done].
  by rewrite Hno.
Qed.

(** X17. A pull that starts at a revision whose batch token names a side
    batch without a batch document fails: the deletes of the batch cannot be
    read. *)
Theorem pull_missing_batch (tables : list string) (base : DocRef)
    (r : Z) (tok : string) (w : World) :
  r < nextRevisionToWrite (store w) base ->
  token_at (store w !! base) r = Some tok ->
  store w !! doc (collection base BATCH_COLLECTION) tok = None ->
  exists err, pullChanges tables base (Some r) w = (Err err, w).
Proof.
  intros Hlt Htok Hdoc. unfold pullChanges.
  rewrite revisionFromBaseSnap_next. unfold token_at, token_of in Htok.
  destruct (revisionFromBaseSnap (store w !! base)).2 as [m|] eqn:Hm;
    [|done].
  destruct (Z.to_nat (nextRevisionToWrite (store w) base - r))
    as [|fuel] eqn:Hfuel; [lia|].
  cbn [pull_loop].
  destruct (Z.ltb_spec r (nextRevisionToWrite (store w) base)); [|lia].
  assert (forall n, advance_end n (Some m)
                      (nextRevisionToWrite (store w) base) r = Ok r) as ->.
  { intros n. destruct n; cbn [advance_end]; unfold has_token;
      by rewrite Htok. }
  cbn [rbind]. rewrite Z.eqb_refl.
  unfold pull_batch. rewrite Htok, Hdoc.
  destruct (mergeCreatesAndUpdates _ _ _ _ _ _) as [cm1|err]; cbn [rbind];
    by eexists.
Qed.

(** ** A pull, then a push *)

(** X18. The timestamp a pull returns is the [lastPulledAt] the next push
    must carry: a push at that timestamp whose changes fit into one
    transaction succeeds, provided nothing was written in between and no
    table of the changeset without a discovered delete reference is named
    after a property every object inherits.  With such a table the push
    fails with a TypeError and writes nothing. *)
Theorem pull_then_push (env : Env) (tables : list string) (base : DocRef)
    (pulledAt : option Z) (params : SyncPushArgs) (w w1 : World)
    (res : SyncPullResult) :
  pullChanges tables base pulledAt w = (Ok res, w1) ->
  lastPulledAt params = timestamp res ->
  countChanges (changes params)
               (delChanges (discovered (store w1) base (changes params)))
  < MAX_TRANSACTION_WRITES ->
  if existsb (throwing (discovered (store w1) base (changes params)))
             (changes params)
  then pushChanges env base params w1 = (Err TypeError, w1)
  else exists w2, pushChanges env base params w1 = (Ok tt, w2).
Proof.
  intros Hpull Hat Hfit. unfold pullChanges in Hpull.
  injection Hpull as Hres <-.
  destruct (pull_loop _ _ _ _ _ _ _ _) as [cm|e]; [|done].
  cbn [rbind] in Hres.
  destruct (build_changes tables cm) as [chs|e]; [|done].
  cbn [rbind] in Hres. injection Hres as <-. cbn [timestamp] in Hat.
  unfold pushChanges, bind, findDeleteRefs.
  fold (discovered (store w) base (changes params)).
  destruct (Z.ltb_spec
              (countChanges (changes params)
                 (delChanges (discovered (store w) base (changes params))))
              MAX_TRANSACTION_WRITES); [|lia].
  unfold pushAllChanges. rewrite Hat, Z.eqb_refl. cbn [negb].
  rewrite pushAll_writes_spec.
  destruct (existsb _ (changes params)); [done|by eexists].
Qed.

(** * The block loops end *)

Lemma mhalts_ret {A} (a : A) : mhalts (ret a).
Proof. by intros w. Qed.

Lemma mhalts_throw {A} (e : Error) : e <> OutOfFuel -> mhalts (@throw A e).
Proof. intros He w [= ->]. done. Qed.

Lemma mhalts_lift {A} (r : Result A) : halts r -> mhalts (lift r).
Proof. by intros Hr w. Qed.

Lemma mhalts_bind {A B} (m : M A) (k : A -> M B) :
  mhalts m -> (forall a, mhalts (k a)) -> mhalts (bind m k).
Proof.
  intros Hm Hk w. unfold bind. specialize (Hm w).
  destruct (m w) as [[a|e] w1]; cbn [fst] in *; [apply Hk|].
  intros [= ->]. by apply Hm.
Qed.

Lemma mhalts_mfoldl {A B} (f : A -> B -> M A) (a : A) (l : list B) :
  (forall a b, mhalts (f a b)) -> mhalts (mfoldl f a l).
Proof.
  intros Hf. revert a. induction l as [|b l IH]; intros a; cbn [mfoldl].
  - apply mhalts_ret.
  - apply mhalts_bind; [apply Hf|apply IH].
Qed.

Lemma halts_batch_queue (b : WriteBatch) (wr : Write) :
  halts (batch_queue b wr).
Proof. unfold batch_queue. by destruct (committed b). Qed.

Lemma halts_queue_deletes (b : WriteBatch) (refs : list DocRef) :
  halts (BatchWriter.queue_deletes b refs).
Proof.
  unfold BatchWriter.queue_deletes. apply halts_rfoldl.
  intros. apply halts_batch_queue.
Qed.

Lemma mhalts_commit (b : WriteBatch) : mhalts (commit_batch b).
Proof. intros w. unfold commit_batch. by destruct (committed b). Qed.

Lemma mhalts_flushBatch (bw : BatchWriter.t) :
  mhalts (BatchWriter.flushBatch bw).
Proof.
  unfold BatchWriter.flushBatch. apply mhalts_bind; [apply mhalts_commit|].
  intros. apply mhalts_ret.
Qed.

Lemma mhalts_flushBatch_detached (bw : BatchWriter.t) :
  mhalts (BatchWriter.flushBatch_detached bw).
Proof.
  intros w. unfold BatchWriter.flushBatch_detached.
  by destruct (commit_batch _ w) as [[?|?] ?].
Qed.

Lemma mhalts_write (t : string) (rec : Row) (bw : BatchWriter.t) :
  mhalts (BatchWriter.write t rec bw).
Proof.
  unfold BatchWriter.write. apply mhalts_bind.
  - apply mhalts_lift, halts_batch_queue.
  - intros b. unfold BatchWriter.bumpCount.
    destruct (_ =? _); [apply mhalts_flushBatch|apply mhalts_ret].
Qed.

Lemma mhalts_deleted_blocks (fuel : nat) (restRefs : list DocRef)
    (iBlock : Z) (bw : BatchWriter.t) :
  Z.of_nat (length restRefs) + 500 - 500 * iBlock <= 500 * Z.of_nat fuel ->
  mhalts (BatchWriter.deleted_blocks fuel restRefs iBlock bw).
Proof.
  revert iBlock bw. induction fuel as [|fuel IH]; intros iBlock bw Hfuel.
  - cbn [BatchWriter.deleted_blocks]. unfold MAX_TRANSACTION_WRITES.
    destruct (Z.ltb_spec (500 * iBlock) (Z.of_nat (length restRefs) + 500));
      [lia|apply mhalts_ret].
  - rewrite deleted_blocks_unfold.
    destruct (_ <? _); [|apply mhalts_ret]. cbv zeta.
    apply mhalts_bind; [apply mhalts_lift, halts_queue_deletes|].
    intros b. apply mhalts_bind.
    + destruct (_ =? _); [apply mhalts_flushBatch_detached|apply mhalts_ret].
    + intros bw2. apply IH. lia.
Qed.

Lemma mhalts_deleted (refs : list DocRef) (bw : BatchWriter.t) :
  mhalts (BatchWriter.deleted refs bw).
Proof.
  unfold BatchWriter.deleted.
  apply mhalts_bind; [apply mhalts_lift, halts_queue_deletes|].
  intros b. cbv zeta. destruct (_ =? _); [|apply mhalts_ret].
  apply mhalts_bind; [apply mhalts_flushBatch|]. intros bw1.
  apply mhalts_deleted_blocks. lia.
Qed.

Lemma mhalts_rollback_blocks (fuel : nat) (rollbackRefs : list (list DocRef))
    (iBlock : Z) :
  Z.of_nat (length rollbackRefs) + 500 - 500 * iBlock
  <= 500 * Z.of_nat fuel ->
  mhalts (rollback_blocks fuel rollbackRefs iBlock).
Proof.
  revert iBlock. induction fuel as [|fuel IH]; intros iBlock Hfuel;
    cbn [rollback_blocks]; unfold MAX_TRANSACTION_WRITES.
  - destruct (Z.ltb_spec (500 * iBlock)
                         (Z.of_nat (length rollbackRefs) + 500));
      [lia|apply mhalts_ret].
  - destruct (_ <? _); [|apply mhalts_ret].
    apply mhalts_bind.
    + apply mhalts_lift, halts_rfoldl. intros b r. done.
    + intros b. apply mhalts_bind; [apply mhalts_commit|].
      intros _. apply IH. lia.
Qed.

Lemma mhalts_stage (batchDoc : DocRef) (rev : Z) (chs : PushChangeSet)
    (delRefs : AllDeleteRefs) :
  mhalts (stage batchDoc rev chs delRefs).
Proof.
  unfold stage. apply mhalts_bind.
  - apply mhalts_mfoldl. intros acc entry. unfold stage_table.
    apply mhalts_bind.
    { apply mhalts_mfoldl. intros bw l. apply mhalts_bind; [by intros w|].
      intros rec. apply mhalts_write. }
    intros bw1. apply mhalts_bind.
    { apply mhalts_mfoldl. intros bw l. apply mhalts_bind; [by intros w|].
      intros rec. apply mhalts_write. }
    intros bw2. destruct (delRefs !! entry.1).
    2: { destruct (inherited entry.1); [by apply mhalts_throw|].
         apply mhalts_ret. }
    apply mhalts_bind; [apply mhalts_deleted|]. intros. apply mhalts_ret.
  - intros staged. apply mhalts_bind; [apply mhalts_flushBatch|].
    intros. apply mhalts_ret.
Qed.

(** X19. The block loops of [BatchWriter.deleted] and of the rollback end:
    each round moves on by 500 references, so a push never stops for lack of
    steps, whatever it is given. *)
Theorem push_terminates (env : Env) (base : DocRef) (params : SyncPushArgs)
    (w : World) :
  (pushChanges env base params w).1 <> Err OutOfFuel.
Proof.
  revert w. change (mhalts (pushChanges env base params)).
  unfold pushChanges. apply mhalts_bind; [by intros w|]. intros delRefs.
  destruct (_ <? _).
  - intros w. unfold pushAllChanges. destruct (negb _); [done|].
    rewrite pushAll_writes_spec. by destruct (existsb _ (changes params)).
  - unfold pushBatchedChanges. apply mhalts_bind; [by intros w|].
    intros st. destruct (negb _); [by apply mhalts_throw|].
    apply mhalts_bind; [apply mhalts_stage|]. intros dels w.
    unfold integrate.
    assert (forall err w1, err <> OutOfFuel ->
              halts (rollback
                       (doc (collection base BATCH_COLLECTION) (autoId env))
                       (changes params) err w1).1) as Hroll.
    { intros err w1 Herr. revert w1.
      change (mhalts (rollback
                        (doc (collection base BATCH_COLLECTION) (autoId env))
                        (changes params) err)).
      unfold rollback. apply mhalts_bind; [by intros w1|]. intros st1.
      apply mhalts_bind; [|intros; by apply mhalts_throw].
      apply mhalts_rollback_blocks. rewrite length_map. lia. }
    destruct (integrateFailure env); [by apply Hroll|].
    destruct (negb _); [by apply Hroll|done].
Qed.

(** * Staging is invisible *)

(** ** Collections are read in one order *)

Lemma string_leb_trans (s1 s2 s3 : string) :
  String.leb s1 s2 = true -> String.leb s2 s3 = true ->
  String.leb s1 s3 = true.
Proof.
  unfold String.leb. revert s2 s3.
  induction s1 as [|c1 s1 IH]; intros [|c2 s2] [|c3 s3]; cbn; try done.
  unfold Ascii.compare.
  destruct (N.compare_spec (N_of_ascii c1) (N_of_ascii c2)) as [H12|H12|H12],
           (N.compare_spec (N_of_ascii c2) (N_of_ascii c3)) as [H23|H23|H23],
           (N.compare_spec (N_of_ascii c1) (N_of_ascii c3)) as [H13|H13|H13];
    try done; try lia.
  apply IH.
Qed.

Section SortedBy.
Context {A : Type} (leb : A -> A -> bool).
Hypothesis leb_total : forall a b, leb a b = true \/ leb b a = true.
Hypothesis leb_trans :
  forall a b c, leb a b = true -> leb b c = true -> leb a c = true.

Lemma insert_sorted_by (x : A) (l : list A) :
  StronglySorted (fun a b => leb a b = true) l ->
  StronglySorted (fun a b => leb a b = true) (insert_sorted leb x l).
Proof.
  induction l as [|y l IH]; intros Hs; simpl.
  - repeat constructor.
  - apply StronglySorted_inv in Hs as [Hl Hy].
    destruct (leb x y) eqn:Hxy.
    + constructor; [by constructor|]. constructor; [done|].
      eapply Forall_impl; [exact Hy|]. intros z Hz. by eapply leb_trans.
    + constructor; [by apply IH|].
      rewrite insert_sorted_Permutation. constructor; [|done].
      destruct (leb_total x y) as [H|H]; [congruence|done].
Qed.

Lemma isort_sorted_by (l : list A) :
  StronglySorted (fun a b => leb a b = true) (isort leb l).
Proof.
  induction l as [|x l IH]; simpl; [constructor|].
  by apply insert_sorted_by.
Qed.
End SortedBy.

Lemma collection_docs_ext (st1 st2 : Store) (coll : list string) :
  (forall k, st1 !! (coll ++ [k]) = st2 !! (coll ++ [k])) ->
  collection_docs st1 coll = collection_docs st2 coll.
Proof.
  intros Hext.
  apply (StronglySorted_unique_strong
           (fun a b : string * Doc => String.leb a.1 b.1 = true)).
  - intros [k1 d1] [k2 d2] H1 H2 Hle1 Hle2. cbn [fst] in *.
    pose proof (String.leb_antisym _ _ Hle1 Hle2) as ->.
    apply elem_of_collection_docs in H1, H2. rewrite Hext in H1. congruence.
  - apply (isort_sorted_by (fun a b : string * Doc => String.leb a.1 b.1)).
    + intros a b. apply String.leb_total.
    + intros a b c. apply string_leb_trans.
  - apply (isort_sorted_by (fun a b : string * Doc => String.leb a.1 b.1)).
    + intros a b. apply String.leb_total.
    + intros a b c. apply string_leb_trans.
  - apply NoDup_Permutation.
    + eapply NoDup_fmap_1, NoDup_collection_docs.
    + eapply NoDup_fmap_1, NoDup_collection_docs.
    + intros [k d'].
      by rewrite !elem_of_collection_docs, Hext.
Qed.

(** ** What a pull reads *)

Lemma merge_ext (st1 st2 : Store) (root : DocRef) (s e : Z)
    (tables : list string) (cm : ChangeLoadMap) :
  (forall t, collection_docs st1 (collection root t)
             = collection_docs st2 (collection root t)) ->
  mergeCreatesAndUpdates st1 root s e tables cm
  = mergeCreatesAndUpdates st2 root s e tables cm.
Proof.
  intros Hext. unfold mergeCreatesAndUpdates. revert cm.
  induction tables as [|t tables IH]; intros cm; cbn [rfoldl]; [done|].
  unfold query_revisions at 1 3. rewrite Hext.
  destruct (rfoldl _ cm _) as [cm1|err]; cbn [rbind]; [apply IH|done].
Qed.

Section SameReads.
Context (base : DocRef) (tok : string) (st st1 : Store).
Hypothesis Hdiff :
  differs_under (doc (collection base BATCH_COLLECTION) tok) st st1.

Lemma same_root : st1 !! base = st !! base.
Proof.
  apply Hdiff. intros t k Heq. rewrite batch_table_doc in Heq.
  apply (f_equal length) in Heq. rewrite length_app in Heq. cbn in Heq. lia.
Qed.

Lemma same_collection (t : string) :
  collection_docs st1 (collection base t) = collection_docs st (collection base t).
Proof.
  apply collection_docs_ext. intros k. apply Hdiff. intros t' k' Heq.
  fold (doc (collection base t) k) in Heq.
  rewrite doc_collection, batch_table_doc in Heq.
  apply app_inv_head in Heq. discriminate Heq.
Qed.

Lemma same_batch_root (tok' : string) :
  st1 !! doc (collection base BATCH_COLLECTION) tok'
  = st !! doc (collection base BATCH_COLLECTION) tok'.
Proof.
  apply Hdiff. intros t k Heq.
  rewrite doc_collection, batch_table_doc in Heq.
  apply app_inv_head in Heq. discriminate Heq.
Qed.

Lemma same_batch_collection (tok' t : string) :
  tok' <> tok ->
  collection_docs st1
    (collection (doc (collection base BATCH_COLLECTION) tok') t)
  = collection_docs st
      (collection (doc (collection base BATCH_COLLECTION) tok') t).
Proof.
  intros Hne. apply collection_docs_ext. intros k. apply Hdiff.
  intros t' k' Heq.
  fold (doc (collection (doc (collection base BATCH_COLLECTION) tok') t) k)
    in Heq.
  rewrite !batch_table_doc in Heq. apply app_inv_head in Heq.
  by injection Heq.
Qed.

Lemma same_pull_run (tables : list string) (s e : Z) (cm : ChangeLoadMap) :
  pull_run st1 base tables s e cm = pull_run st base tables s e cm.
Proof.
  unfold pull_run. rewrite (merge_ext st1 st) by apply same_collection.
  unfold query_deletes. by rewrite same_collection.
Qed.

Lemma same_pull_batch (tables : list string)
    (tokens : option (gmap Z string)) (s : Z) (cm : ChangeLoadMap) :
  (forall k, token_of tokens k <> Some tok) ->
  pull_batch st1 base tables tokens s cm
  = pull_batch st base tables tokens s cm.
Proof.
  intros Hfresh. unfold pull_batch. destruct tokens as [m|]; [|done].
  destruct (m !! s) as [tok'|] eqn:Htok; [|done].
  assert (tok' <> tok) as Hne.
  { intros ->. apply (Hfresh s). cbn. done. }
  rewrite (merge_ext st1 st) by (intros; by apply same_batch_collection).
  by rewrite same_batch_root.
Qed.

Lemma same_pull_loop (fuel : nat) (tables : list string)
    (tokens : option (gmap Z string)) (endRevision start : Z)
    (cm : ChangeLoadMap) :
  (forall k, token_of tokens k <> Some tok) ->
  pull_loop fuel st1 base tables tokens endRevision start cm
  = pull_loop fuel st base tables tokens endRevision start cm.
Proof.
  intros Hfresh. revert start cm.
  induction fuel as [|fuel IH]; intros start cm; cbn [pull_loop]; [done|].
  destruct (_ <? _); [|done].
  destruct (advance_end _ _ _ _) as [e|err]; cbn [rbind]; [|done].
  destruct (e =? start).
  - rewrite same_pull_batch by done.
    destruct (pull_batch st _ _ _ _ _) as [cm1|err]; cbn [rbind]; [apply IH|done].
  - rewrite same_pull_run.
    destruct (pull_run st _ _ _ _ _) as [cm1|err]; cbn [rbind]; [apply IH|done].
Qed.

End SameReads.

(** X20. Staging is invisible to a pull.  When no document was found for
    deletion, the world that staging leaves (wherever it stops) gives every
    pull the result it had before staging began: the staged rows sit under a
    side batch that no batch token names yet. *)
Theorem staging_invisible (env : Env) (base : DocRef) (params : SyncPushArgs)
    (w : World) (tables : list string) (pulledAt : option Z) :
  let batchDoc := doc (collection base BATCH_COLLECTION) (autoId env) in
  let staged := stage batchDoc (lastPulledAt params) (changes params) ∅ w in
  (forall k, token_at (store w !! base) k <> Some (autoId env)) ->
  (pullChanges tables base pulledAt staged.2).1
  = (pullChanges tables base pulledAt w).1.
Proof.
  intros batchDoc staged Hfresh.
  assert (differs_under batchDoc (store w) (store staged.2)) as Hdiff.
  { destruct (keeps_stage
                (fun wr => exists t k,
                             write_target wr = doc (collection batchDoc t) k)
                (store w) (commits w) batchDoc (lastPulledAt params)
                (changes params) ∅) with (w := w)
      as [(new & _ & Hs & Hall) _].
    - intros e k x _. by exists e.1, k.
    - intros e refs _ Hrefs. by rewrite lookup_empty in Hrefs.
    - apply committed_so_far_init.
    - intros p Hp. fold staged in Hs. rewrite Hs.
      apply lookup_untouched, Forall_forall. intros wr Hwr.
      apply list_elem_of_In, in_concat in Hwr as (ws & Hws & Hwr).
      apply list_elem_of_In in Hws, Hwr.
      rewrite Forall_forall in Hall. destruct (Hall ws Hws) as [_ HQ].
      rewrite Forall_forall in HQ. destruct (HQ wr Hwr) as (t & k & ->).
      intros Heq. by apply (Hp t k). }
  unfold pullChanges. cbn [fst].
  rewrite (same_root base (autoId env) (store w) (store staged.2) Hdiff).
  by rewrite (same_pull_loop base (autoId env) (store w) (store staged.2)
                Hdiff).
Qed.

(** * The integrate transaction *)

(** X21. The integrate transaction of the side-batch path does not read the
    root again: its staleness test compares the revision read before staging
    with [lastPulledAt], as the earlier test did.  So, unless the remote
    store rejects it, it goes through on any store and sets the revision of
    the root to its own, whatever revision the root has reached in the
    meantime. *)
Theorem integrate_ignores_root (env : Env) (base batchDoc : DocRef) (r : Z)
    (tokens : option (gmap Z string)) (dels : TableDeletes) (w1 : World) :
  integrateFailure env = None ->
  base <> batchDoc ->
  exists w2,
    integrate env base batchDoc r tokens r dels w1 = (Ok tt, w2)
    /\ nextRevisionToWrite (store w2) base = r + 1
    /\ store w2 !! batchDoc
       = Some (DBatch {| batchLatestRevision := r;
                         batchLatestDate := now env;
                         batchDeletes := dels |}).
Proof.
  intros Hok Hne. unfold integrate. rewrite Hok, Z.eqb_refl. cbn [negb].
  eexists. split; [reflexivity|]. cbn [store apply_writes foldl apply_write].
  split.
  - rewrite <- revisionFromBaseSnap_next, lookup_insert_eq.
    apply merge_base_revision.
  - rewrite lookup_insert_ne by done. apply lookup_insert_eq.
Qed.

(** * Examples *)

Lemma push_advances_revision_witness :
  let w := history_world [sample_row "bbb" "x"] in
  let w' := (pushChanges sample_env sample_base push_second w).2 in
  nextRevisionToWrite (store w) sample_base = 2
  /\ nextRevisionToWrite (store w') sample_base = 3.
Proof.
  intros w w'.
  destruct (push_advances_revision sample_env sample_base push_second w w')
    as (H1 & H2 & _).
  - apply NoDup_singleton.
  - vm_compute. reflexivity.
  - split; [exact H1|exact H2].
Defined.

Lemma push_replay_rejected_witness :
  let w := history_world [sample_row "bbb" "x"] in
  let w' := (pushChanges sample_env sample_base push_second w).2 in
  pushChanges sample_env sample_base push_second w'
  = (Err (OutOfSync 1 3), w').
Proof.
  intros w w'.
  apply (push_replay_rejected sample_env sample_env sample_base push_second
           push_second w w').
  - apply NoDup_singleton.
  - vm_compute. reflexivity.
  - reflexivity.
Defined.

Lemma push_frame_witness :
  let w := history_world [sample_row "bbb" "x"] in
  let w' := (pushChanges sample_env sample_base push_second w).2 in
  store w' !! ["elsewhere"%string] = store w !! ["elsewhere"%string].
Proof.
  intros w w'.
  apply (push_frame sample_env sample_base push_second w w'
           ["elsewhere"%string]).
  - apply NoDup_singleton.
  - vm_compute. reflexivity.
  - discriminate.
  - discriminate.
  - discriminate.
  - intros t _ [(k & H)|(b & k & H)]; discriminate H.
Defined.

Lemma empty_push_witness :
  pushChanges sample_env sample_base
    {| changes := [("entries"%string, mkTableChanges [] [] [])];
       lastPulledAt := 2 |}
    (history_world [])
  = (Ok tt,
     {| store := <[sample_base :=
                     merge_base (store (history_world []) !! sample_base) 2
                                (now sample_env) None]>
                   (store (history_world []));
        heap := []; commits := [] |})
  /\ pushChanges sample_env sample_base
       {| changes := [("toString"%string, mkTableChanges [] [] [])];
          lastPulledAt := 2 |}
       (history_world [])
     = (Err TypeError, history_world []).
Proof.
  split.
  - refine (empty_push sample_env sample_base
              {| changes := [("entries"%string, mkTableChanges [] [] [])];
                 lastPulledAt := 2 |} (history_world []) _ _).
    + repeat constructor.
    + reflexivity.
  - refine (empty_push sample_env sample_base
              {| changes := [("toString"%string, mkTableChanges [] [] [])];
                 lastPulledAt := 2 |} (history_world []) _ _).
    + repeat constructor.
    + reflexivity.
Defined.

Lemma pushed_documents_clean_witness :
  let w := history_world [sample_row "bbb" "x"] in
  let w' := (pushChanges sample_env sample_base push_second w).2 in
  let p := sample_base ++ ["entries"; "bbb"]%string in
  exists row,
    store w' !! p = Some (DRow row)
    /\ (store w !! p = Some (DRow row)
        \/ (melonFireRevision row = Some 2 /\ _status row = None
            /\ _changed row = None)).
Proof.
  intros w w' p.
  destruct (store w' !! p) as [[row| | |]|] eqn:Hlk;
    try (vm_compute in Hlk; discriminate Hlk).
  exists row. split; [reflexivity|].
  destruct (pushed_documents_clean sample_env sample_base push_second w w' p
              row)
    as [Hold|(t & ch & l & _ & _ & _ & Hrev & Hst & Hch & _)].
  - vm_compute. reflexivity.
  - exact Hlk.
  - left. exact Hold.
  - right. split; [exact Hrev|]. split; [exact Hst|exact Hch].
Defined.

Lemma findDeleteRefs_finds_existing_witness :
  exists delRefs,
    findDeleteRefs sample_base push_second (history_world [])
    = (Ok delRefs, history_world [])
    /\ delRefs !! "other"%string = None.
Proof.
  destruct (findDeleteRefs_finds_existing sample_base push_second
              (history_world []))
    as (delRefs & Hfind & Hout & _).
  - apply NoDup_singleton.
  - exists delRefs. split; [exact Hfind|]. apply Hout.
    intros Hin. apply list_elem_of_singleton in Hin. discriminate Hin.
Defined.

Lemma inline_transaction_size_witness :
  exists ws,
    pushAll_writes sample_env [sample_row "bbb" "x"] sample_base 2
      (changes push_second)
      (discovered (store (history_world [sample_row "bbb" "x"])) sample_base
                  (changes push_second))
    = Ok ws
    /\ Z.of_nat (length ws)
       = countChanges (changes push_second)
           (delChanges
              (discovered (store (history_world [sample_row "bbb" "x"]))
                          sample_base (changes push_second)))
         + 1.
Proof.
  pose proof (inline_transaction_size sample_env [sample_row "bbb" "x"]
                sample_base 2 (changes push_second)
                (store (history_world [sample_row "bbb" "x"]))
                (NoDup_singleton _)) as H.
  cbv zeta in H.
  assert (existsb
            (throwing
               (discovered (store (history_world [sample_row "bbb" "x"]))
                           sample_base (changes push_second)))
            (changes push_second) = false) as Hno
    by (vm_compute; reflexivity).
  rewrite Hno in H. destruct H as (ws & Hws & Hn & _).
  exists ws. split; [exact Hws|exact Hn].
Defined.

Lemma failed_push_frame_witness :
  let w := history_world [sample_row "bbb" "x"] in
  let w' := (pushChanges sample_env sample_base push_first w).2 in
  store w' !! sample_base = store w !! sample_base.
Proof.
  intros w w'.
  destruct (failed_push_frame sample_env sample_base push_first w w'
              (OutOfSync 0 2)) as (Hroot & _).
  - apply NoDup_singleton.
  - vm_compute. reflexivity.
  - exact Hroot.
Defined.

Lemma rejected_integrate_keeps_deletes_witness :
  let w := history_world [sample_row "bbb" "x"] in
  let delRefs := discovered (store w) sample_base (changes push_second) in
  let out := pushBatchedChanges failing_env sample_base push_second delRefs w in
  is_ok out.1 = false
  /\ store out.2 !! sample_base = store w !! sample_base
  /\ store out.2 !! (sample_base ++ ["entries"; "aaa"]%string) = None.
Proof.
  intros w delRefs out.
  destruct (rejected_integrate_keeps_deletes failing_env sample_base
              push_second w
              (stage (doc (collection sample_base BATCH_COLLECTION)
                          (autoId failing_env))
                     2 (changes push_second) delRefs w).2
              [("entries"%string, ["aaa"%string])] "unavailable")
    as (Hfail & Hroot & Hgone).
  - apply NoDup_singleton.
  - reflexivity.
  - intros t dk. unfold w, history_world. cbn [store].
    apply lookup_insert_None. split.
    + apply lookup_singleton_None. rewrite batch_table_doc.
      intros Heq. apply app_inv_head in Heq. discriminate.
    + intros Heq.
      pose proof (batch_of_table sample_base (autoId failing_env) t dk)
        as Hof.
      rewrite <- Heq in Hof. by apply of_table_not_base in Hof.
  - vm_compute. reflexivity.
  - reflexivity.
  - split; [exact Hfail|]. split; [exact Hroot|].
    destruct (Hgone "entries"%string
                (mkTableChanges [0%nat] [] ["aaa"%string])
                {| ref := sample_base ++ ["entries"; "aaa"]%string;
                   encodedId := "aaa" |}) as [_ Hnone].
    + left.
    + vm_compute. left.
    + exact Hnone.
Defined.

Lemma deleted_within_batch_witness :
  BatchWriter.deleted [sample_base ++ ["entries"; "aaa"]%string]
                      (BatchWriter.new sample_base 1) (empty_world [])
  = (Ok (BatchWriter.with_batch (BatchWriter.new sample_base 1)
           {| writes := [WDelete (sample_base ++ ["entries"; "aaa"]%string)];
              committed := false |} 1),
     empty_world []).
Proof.
  apply (deleted_within_batch (BatchWriter.new sample_base 1)
           [sample_base ++ ["entries"; "aaa"]%string] (empty_world [])).
  - reflexivity.
  - unfold MAX_TRANSACTION_WRITES. cbn. lia.
  - unfold MAX_TRANSACTION_WRITES. cbn. lia.
Defined.

Lemma advance_end_stops_witness :
  exists e,
    advance_end 4 (Some {[ 3 := "token1"%string ]}) 5 1 = Ok e
    /\ 1 <= e <= 5.
Proof.
  destruct (advance_end_stops (Some {[ 3 := "token1"%string ]}) 5 1)
    as (e & He & Hrange & _).
  - lia.
  - exists e. split; [exact He|exact Hrange].
Defined.

Lemma pull_shape_witness :
  exists res,
    pullChanges ["entries"%string] sample_base None (history_world [])
    = (Ok res, history_world [])
    /\ timestamp res = 2.
Proof.
  destruct (pullChanges ["entries"%string] sample_base None
              (history_world [])) as [[res|err] w'] eqn:Hpull;
    [|vm_compute in Hpull; discriminate Hpull].
  destruct (pull_shape ["entries"%string] sample_base None (history_world [])
              w' res Hpull) as (-> & Hts & _).
  exists res. split; [reflexivity|exact Hts].
Defined.

Lemma pull_nothing_new_witness :
  exists res,
    pullChanges ["entries"%string] sample_base None (empty_world [])
    = (Ok res, empty_world [])
    /\ timestamp res = 1.
Proof.
  destruct (pull_nothing_new ["entries"%string] sample_base None
              (empty_world [])) as (res & Hres & Hts & _).
  - vm_compute. discriminate.
  - exists res. split; [exact Hres|exact Hts].
Defined.

Lemma pull_without_batches_witness :
  pullChanges ["entries"%string] sample_base None (history_world [])
  = (rbind (pull_run (store (history_world [])) sample_base
                     ["entries"%string] 1 2
                     (init_changeMap ["entries"%string])) (fun cm =>
     rbind (build_changes ["entries"%string] cm) (fun chs =>
     Ok {| pulled := chs; timestamp := 2 |})), history_world []).
Proof.
  apply (pull_without_batches ["entries"%string] sample_base None
           (history_world [])).
  - vm_compute. reflexivity.
  - intros k _. reflexivity.
Defined.

Lemma pull_missing_batch_witness :
  exists err,
    pullChanges ["entries"%string] sample_base (Some 1) dangling_world
    = (Err err, dangling_world).
Proof.
  apply (pull_missing_batch ["entries"%string] sample_base 1 "gone"
           dangling_world).
  - vm_compute. reflexivity.
  - reflexivity.
  - reflexivity.
Defined.

Lemma pull_then_push_witness :
  exists w2,
    pushChanges sample_env sample_base push_second_row
                (history_world [sample_row "bbb" "x"])
    = (Ok tt, w2).
Proof.
  destruct (pullChanges ["entries"%string] sample_base None
              (history_world [sample_row "bbb" "x"]))
    as [[res|err] w1] eqn:Hpull;
    [|vm_compute in Hpull; discriminate Hpull].
  assert (w1 = history_world [sample_row "bbb" "x"]
          /\ timestamp res = 2) as [Hw1 Hts].
  { vm_compute in Hpull. injection Hpull as Hres Hw.
    rewrite <- Hres, <- Hw. split; reflexivity. }
  rewrite Hw1 in Hpull.
  assert (lastPulledAt push_second_row = timestamp res) as Hat
    by (rewrite Hts; reflexivity).
  assert (countChanges (changes push_second_row)
            (delChanges
               (discovered (store (history_world [sample_row "bbb" "x"]))
                           sample_base (changes push_second_row)))
          < MAX_TRANSACTION_WRITES) as Hfit
    by (vm_compute; reflexivity).
  pose proof (pull_then_push sample_env ["entries"%string] sample_base None
                push_second_row (history_world [sample_row "bbb" "x"])
                (history_world [sample_row "bbb" "x"]) res Hpull Hat Hfit)
    as H.
  assert (existsb
            (throwing
               (discovered (store (history_world [sample_row "bbb" "x"]))
                           sample_base (changes push_second_row)))
            (changes push_second_row) = false) as Hno
    by (vm_compute; reflexivity).
  rewrite Hno in H. exact H.
Defined.

Lemma staging_invisible_witness :
  let w := history_world [sample_row "bbb" "x"] in
  let staged :=
    stage (doc (collection sample_base BATCH_COLLECTION) (autoId sample_env))
          2 (changes push_second_row) ∅ w in
  (pullChanges ["entries"%string] sample_base None staged.2).1
  = (pullChanges ["entries"%string] sample_base None w).1.
Proof.
  intros w staged.
  apply (staging_invisible sample_env sample_base push_second_row w
           ["entries"%string] None).
  intros k. discriminate.
Defined.

Lemma integrate_ignores_root_witness :
  nextRevisionToWrite (store occluded_world) sample_base = 3
  /\ exists w2,
       integrate sample_env sample_base
                 (doc (collection sample_base BATCH_COLLECTION) "token1")
                 1 None 1 [] occluded_world
       = (Ok tt, w2)
       /\ nextRevisionToWrite (store w2) sample_base = 2.
Proof.
  split; [reflexivity|].
  destruct (integrate_ignores_root sample_env sample_base
              (doc (collection sample_base BATCH_COLLECTION) "token1")
              1 None [] occluded_world) as (w2 & Hw2 & Hnext & _).
  - reflexivity.
  - discriminate.
  - exists w2. split; [exact Hw2|exact Hnext].
Defined.
